(** * GrammarMiner: mining input grammars from traced variable values

    A shallow embedding of the code cells of [notebooks/GrammarMiner.ipynb]:
    the three tracers ([Tracer], [StackTracer], [TaintedTracer]), the two
    grammar synthesizers ([get_grammar], simple and stack variant),
    [merge_grammars] and [get_merged_grammar].

    Conventions of the embedding.
    - A Python [str] is a [string], one [ascii] per character (a code
      point below 256), so that [len] is [String.length]; [x in s] is
      [contains], [s.replace] is [replace], [s.lower()] is [lower].
    - A Python [dict] is an association list in insertion order with at most
      one binding per key ([dict_get], [dict_set], [dict_del]).
    - A Python [set] of strings is a [gset string].
    - Code that can raise returns a [result]; code that mutates an object
      returns the new object. *)

From Stdlib Require Import Ascii NArith.
From stdpp Require Import base tactics option list relations strings gmap.

Set Warnings "-register-all,-clear-no-such-hyp".

(** ** Strings *)

Module Str.

(** [sub in s] *)
Fixpoint contains (sub s : string) : bool :=
  String.prefix sub s ||
  match s with
  | "" => false
  | String _ s' => contains sub s'
  end.

(** [s.endswith(suffix)] *)
Definition endswith (s suffix : string) : bool :=
  String.prefix (String.rev suffix) (String.rev s).

(** [s.replace("", new)]: [new] goes before every character and at the
    end. *)
Fixpoint interleave (new s : string) : string :=
  match s with
  | "" => new
  | String c s' => new +:+ String c (interleave new s')
  end.

(** [s.replace(old, new)] for a non-empty [old], scanning from the left;
    [skip] counts the characters of a match that are still to be passed
    over. *)
Fixpoint replace_from (skip : nat) (old new s : string) : string :=
  match s with
  | "" => ""
  | String c s' =>
      match skip with
      | S n => replace_from n old new s'
      | O =>
          if String.prefix old s
          then new +:+ replace_from (String.length old - 1) old new s'
          else String c (replace_from 0 old new s')
      end
  end.

(** [s.replace(old, new)] *)
Definition replace (old new s : string) : string :=
  match old with
  | "" => interleave new s
  | _ => replace_from 0 old new s
  end.

(** [c.lower()] for one character. The code points below 256 with a
    lower-case partner are A-Z (65-90), and the accented capitals 192-214
    and 216-222 (215 is the multiplication sign); in all three ranges the
    partner is 32 further on. *)
Definition lower_ascii (c : ascii) : ascii :=
  let n := N_of_ascii c in
  if ((65 <=? n) && (n <=? 90) ||
      (192 <=? n) && (n <=? 214) ||
      (216 <=? n) && (n <=? 222))%N
  then ascii_of_N (n + 32) else c.

(** [s.lower()] *)
Fixpoint lower (s : string) : string :=
  match s with
  | "" => ""
  | String c s' => String (lower_ascii c) (lower s')
  end.

End Str.

(** ** Exceptions and results *)

Inductive exn : Type :=
  | KeyError (key : string)
  | IndexError
  | AttributeError.

Inductive result (A : Type) : Type :=
  | Ok (a : A)
  | Raise (e : exn).
Arguments Ok {A} a.
Arguments Raise {A} e.

Global Instance result_ret : MRet result := fun A a => Ok a.
Global Instance result_bind : MBind result := fun A B f m =>
  match m with
  | Ok a => f a
  | Raise e => Raise e
  end.

(** ** Dictionaries *)

Definition dict (V : Type) : Type := list (string * V).

Section Dict.
Context {V : Type}.

Definition dict_keys (d : dict V) : list string := d.*1.

(** [d.get(k)] *)
Fixpoint dict_get (d : dict V) (k : string) : option V :=
  match d with
  | [] => None
  | (k', v) :: d' => if decide (k' = k) then Some v else dict_get d' k
  end.

(** [d[k] = v]: an existing key keeps its place, a new key goes last. *)
Fixpoint dict_set (d : dict V) (k : string) (v : V) : dict V :=
  match d with
  | [] => [(k, v)]
  | (k', v') :: d' =>
      if decide (k' = k) then (k, v) :: d' else (k', v') :: dict_set d' k v
  end.

(** [del d[k]] *)
Fixpoint dict_del (d : dict V) (k : string) : result (dict V) :=
  match d with
  | [] => Raise (KeyError k)
  | (k', v') :: d' =>
      if decide (k' = k) then Ok d'
      else d'' ← dict_del d' k; mret ((k', v') :: d'')
  end.

(** [d.update(e)] *)
Definition dict_update (d e : dict V) : dict V :=
  foldl (fun acc kv => dict_set acc kv.1 kv.2) d e.

(** Well-formed dictionaries bind every key once. *)
Definition dict_wf (d : dict V) : Prop := NoDup (dict_keys d).

End Dict.

(** ** Nonterminals *)

(** [nonterminal(var)] *)
Definition nonterminal (var : string) : string :=
  "<" +:+ Str.lower var +:+ ">".

(** Modelled from the spec: the constant [START_SYMBOL] of module
    [Grammars], which is not among the sources. The synthesizers below take
    the start symbol as a parameter; [the_start_symbol] is the value used
    in the examples, a "distinguished start symbol" written with the same
    angle-bracket delimiters as [nonterminal]. *)
Definition the_start_symbol : string := "<start>".

(** ** Values and frames seen by a trace function *)

(** Modelled from the spec: class [tstr] of module [InformationFlow], which
    is not among the sources. A traced string "carries an explicit
    back-reference to the exact parent string instance it was sliced from";
    [tstr_id] stands for the identity [id(s)] of the object. A parent that
    is not a [tstr] (the notebook passes [parent=None]) is [None]. *)
Inductive tstr : Type :=
  | Tstr (tstr_id : nat) (tstr_text : string) (parent : option tstr).

Definition tstr_id (t : tstr) : nat := let 'Tstr i _ _ := t in i.
Definition tstr_text (t : tstr) : string := let 'Tstr _ s _ := t in s.

Inductive pyval : Type :=
  | VStr (s : string)            (* a plain [str] *)
  | VTstr (t : tstr)             (* a [tstr], subclass of [str] *)
  | VNamed (name : string)       (* an object with [__name__], e.g. a class *)
  | VOther.                      (* anything else *)

Inductive event : Type := Call | Line | Return | Exception | OtherEvent.

Record frame : Type := Frame {
  co_name : string;
  co_filename : string;
  co_varnames : list string;
  co_argcount : nat;
  f_locals : dict pyval
}.

(** [isinstance(value, str)], giving the characters of the string. *)
Definition as_str (value : pyval) : option string :=
  match value with
  | VStr s => Some s
  | VTstr t => Some (tstr_text t)
  | _ => None
  end.

(** ** The simple miner *)

(** What [sys.gettrace()] returns: [None] or a trace function. *)
Inductive trace_function : Type :=
  | Traceit (of_input : string)   (* the bound method [tracer.traceit] *)
  | Foreign (name : string).      (* any other trace function *)

Definition hook : Type := option trace_function.

(** How a block of statements ends. *)
Inductive completion (E : Type) : Type :=
  | Completes
  | Throws (e : E).
Arguments Completes {E}.
Arguments Throws {E} e.

Module Tracer.

(** [oldtrace] is [None] until [__enter__] assigns the attribute. *)
Record t : Type := Make {
  inputstr : string;
  the_values : dict string;
  oldtrace : option hook
}.

(** [Tracer(inputstr)] *)
Definition init (inputstr : string) : t :=
  {| inputstr := inputstr; the_values := []; oldtrace := None |}.

(** [__enter__]: the second component is the new value of the
    interpreter's trace hook. *)
Definition enter (self : t) (sys_trace : hook) : t * hook :=
  ({| inputstr := inputstr self; the_values := the_values self;
      oldtrace := Some sys_trace |},
   Some (Traceit (inputstr self))).

(** [__exit__]: returns [None], so the first component (the truth value
    of what [__exit__] returns) is [false]. *)
Definition exit (self : t) (sys_trace : hook) : result (bool * hook) :=
  match oldtrace self with
  | Some old => Ok (false, old)
  | None => Raise AttributeError
  end.

(** The dictionary comprehension of [traceit]. *)
Definition my_vars (self : t) (fr : frame) : dict string :=
  omap (fun kv : string * pyval =>
          match as_str kv.2 with
          | Some value =>
              if (2 <? String.length value) && Str.contains value (inputstr self)
              then Some (kv.1, value) else None
          | None => None
          end) (f_locals fr).

Definition traceit (self : t) (fr : frame) (ev : event) : t :=
  {| inputstr := inputstr self;
     the_values := dict_update (the_values self) (my_vars self fr);
     oldtrace := oldtrace self |}.

(** [with Tracer(inputstr) as tracer: body]. The body (the call of the
    function under test) may read and set the interpreter's trace hook
    and, through [traceit], changes [the_values]; it ends normally or
    throws. When the body throws, the exception is re-raised unless
    [__exit__] returns a true value. *)
Definition with_ {E : Type} (inputstr : string)
    (body : dict string → hook → completion E * dict string * hook)
    (sys_trace : hook) : result (completion E * t * hook) :=
  let '(self, h1) := enter (init inputstr) sys_trace in
  let '(c, values, h2) := body (the_values self) h1 in
  let self' := {| inputstr := Tracer.inputstr self; the_values := values;
                  oldtrace := oldtrace self |} in
  '(suppress, h3) ← exit self' h2;
  match c with
  | Completes => Ok (Completes, self', h3)
  | Throws e => Ok (if suppress : bool then Completes else Throws e, self', h3)
  end.

End Tracer.

Definition grammar : Type := dict (list string).

Module Simple.
Section WithStart.
Variable START_SYMBOL : string.

(** An entry [(var, alt_key, value)] of [new_rules]. *)
Definition rule : Type := string * string * string.

(** [for j, repl in enumerate(repl_alternatives)] *)
Fixpoint scan_alternatives (var value : string) (alts : list string)
    : list string * list rule :=
  match alts with
  | [] => ([], [])
  | repl :: rest =>
      let '(rest', rules) := scan_alternatives var value rest in
      if Str.contains value repl
      then (Str.replace value (nonterminal var) repl :: rest',
            (var, nonterminal var, value) :: rules)
      else (repl :: rest', rules)
  end.

(** [for key, repl_alternatives in grammar.items()] *)
Fixpoint scan_grammar (var value : string) (g : grammar)
    : grammar * list rule :=
  match g with
  | [] => ([], [])
  | (key, alts) :: rest =>
      let '(alts', rules1) := scan_alternatives var value alts in
      let '(rest', rules2) := scan_grammar var value rest in
      ((key, alts') :: rest', rules1 ++ rules2)
  end.

(** [for var, value in traces.items()] *)
Fixpoint scan_traces (traces : dict string) (g : grammar)
    : grammar * list rule :=
  match traces with
  | [] => (g, [])
  | (var, value) :: rest =>
      let '(g1, rules1) := scan_grammar var value g in
      let '(g2, rules2) := scan_traces rest g1 in
      (g2, rules1 ++ rules2)
  end.

(** [for (var, alt_key, value) in new_rules] *)
Fixpoint add_rules (new_rules : list rule) (g : grammar)
    (traces : dict string) : result (grammar * dict string) :=
  match new_rules with
  | [] => Ok (g, traces)
  | (var, alt_key, value) :: rest =>
      let g' := dict_set g alt_key [value] in
      traces' ← dict_del traces var;
      add_rules rest g' traces'
  end.

(** [while True]: [None] when [fuel] rounds were not enough. *)
Fixpoint loop (fuel : nat) (g : grammar) (traces : dict string)
    : option (result (grammar * dict string)) :=
  match fuel with
  | O => None
  | S fuel' =>
      let '(g1, new_rules) := scan_traces traces g in
      match new_rules with
      | [] => Some (Ok (g1, traces))
      | _ :: _ =>
          match add_rules new_rules g1 traces with
          | Raise e => Some (Raise e)
          | Ok (g2, traces') => loop fuel' g2 traces'
          end
      end
  end.

(** [get_grammar(tracer)] returns the grammar; the second component is
    the tracer afterwards, whose [the_values] the function has changed. *)
Definition get_grammar (tracer : Tracer.t)
    : option (result (grammar * Tracer.t)) :=
  let traces := Tracer.the_values tracer in
  let my_input := Tracer.inputstr tracer in
  match loop (S (length traces)) [(START_SYMBOL, [my_input])] traces with
  | None => None
  | Some (Raise e) => Some (Raise e)
  | Some (Ok (g, traces')) =>
      Some (Ok (g, {| Tracer.inputstr := my_input;
                      Tracer.the_values := traces';
                      Tracer.oldtrace := Tracer.oldtrace tracer |}))
  end.

End WithStart.
End Simple.

(** ** Merging grammars *)

(** [set(c)] for the collections of alternatives the miners produce: lists
    (simple miner, merged grammars) and sets (stack miner). *)
Class Alternatives (C : Type) : Type := as_set : C → gset string.
Global Instance list_alternatives : Alternatives (list string) := list_to_set.
Global Instance set_alternatives : Alternatives (gset string) := id.

Section Merge.
(** [list(s)]: Python fixes no order for the elements of a set, so the
    enumeration is a parameter. *)
Variable list_of_set : gset string → list string.

Context {C1 C2 : Type} `{!Alternatives C1, !Alternatives C2}.

(** [set(g.get(key, []))] *)
Definition alternatives_of {C : Type} `{!Alternatives C}
    (g : dict C) (key : string) : gset string :=
  match dict_get g key with
  | Some c => as_set c
  | None => ∅
  end.

Definition merge_grammars (g1 : dict C1) (g2 : dict C2) : grammar :=
  foldl (fun merged_grammar key =>
           dict_set merged_grammar key
             (list_of_set (alternatives_of g1 key ∪ alternatives_of g2 key)))
        [] (dict_keys g1 ++ dict_keys g2).

End Merge.

(** ** The miners with a stack of inputs *)

(** [InputStack] and [Vars] are subclassed by [TaintedInputStack] and
    [TaintedVars], which override the test on the type of a value and the
    test [has]. A [Policy] holds what the subclasses override: the type of
    the values kept on the stack, which values are accepted, when an
    accepted value counts as coming from an active one, and the characters
    of a value. *)
Class Policy : Type := {
  active : Type;
  accept : pyval → option active;
  comes_from : active → active → bool;
  text : active → string
}.

(** [InputStack], [Vars]: [isinstance(v, str)] and [val in var]. *)
Definition plain : Policy := {|
  active := string;
  accept := as_str;
  comes_from val var := Str.contains val var;
  text s := s
|}.

(** [is_from(var1, var2)] of [TaintedInputStack.has]. *)
Fixpoint is_from (var1 var2 : tstr) : bool :=
  match var1 with
  | Tstr i _ p =>
      (tstr_id var2 =? i) ||
      match p with
      | Some s => is_from s var2
      | None => false
      end
  end.

(** [TaintedInputStack], [TaintedVars]: [isinstance(v, tstr)] and
    [is_from]. *)
Definition tainted : Policy := {|
  active := tstr;
  accept value := match value with VTstr t => Some t | _ => None end;
  comes_from := is_from;
  text := tstr_text
|}.

(** [Vars.Namespaced] *)
Definition Namespaced : bool := true.

Module InputStack.
Section WithPolicy.
Context {P : Policy}.

(** [self.inputs]; the last element is the top of the stack. *)
Definition t : Type := list (dict active).

Definition has_in (top : dict active) (val : active) : bool :=
  existsb (fun kv => comes_from val kv.2) top.

(** [has]: [self.inputs[-1]] raises on an empty stack. *)
Definition has (inputs : t) (val : active) : result bool :=
  match last inputs with
  | Some top => Ok (has_in top val)
  | None => Raise IndexError
  end.

(** The values of [inputs] of the accepted type. *)
Definition accepted (inputs : dict pyval) : dict active :=
  omap (fun kv : string * pyval =>
          match accept kv.2 with
          | Some v => Some (kv.1, v)
          | None => None
          end) inputs.

Definition push (self : t) (inputs : dict pyval) : t :=
  let my_inputs :=
    match last self with
    | None => accepted inputs
    | Some top => filter (fun kv => has_in top kv.2 = true) (accepted inputs)
    end in
  self ++ [my_inputs].

Definition pop (self : t) : result t :=
  match self with
  | [] => Raise IndexError
  | _ => Ok (removelast self)
  end.

End WithPolicy.
End InputStack.

Module StackTracer.
Section WithPolicy.
Context {P : Policy}.
Variable START_SYMBOL : string.

(** The tracer together with its [Vars] object; [vars.istack] and
    [istack] are the same object, so there is one field for both. *)
Record t : Type := Make {
  inputstr : string;
  istack : InputStack.t;
  defs : dict string
}.

(** [StackTracer(inputstr)], [TaintedTracer(inputstr)] *)
Definition init (inputstr : string) : t :=
  {| inputstr := inputstr; istack := []; defs := [(START_SYMBOL, inputstr)] |}.

Definition set_istack (self : t) (s : InputStack.t) : t :=
  {| inputstr := inputstr self; istack := s; defs := defs self |}.

Definition set_defs (self : t) (d : dict string) : t :=
  {| inputstr := inputstr self; istack := istack self; defs := d |}.

(** [Vars.varname] *)
Definition varname (var : string) (fr : frame) : result string :=
  if negb Namespaced then Ok var
  else
    class_name ←
      (if decide (co_name fr = "__new__") then
         match co_varnames fr with
         | [] => Raise IndexError
         | first :: _ =>
             match dict_get (f_locals fr) first with
             | None => Raise (KeyError first)
             | Some (VNamed name) => Ok name
             | Some _ => Raise AttributeError
             end
         end
       else Ok (co_name fr));
    Ok (class_name +:+ ":" +:+ var).

(** [not self.defs.get(qual_var)] *)
Definition unset (d : dict string) (qual_var : string) : bool :=
  match dict_get d qual_var with
  | None => true
  | Some "" => true
  | Some _ => false
  end.

(** [Vars.update_vars], [TaintedVars.update_vars] *)
Definition update_vars (var : string) (value : pyval) (fr : frame)
    (self : t) : result t :=
  match accept value with
  | None => Ok self
  | Some v =>
      if 2 <=? String.length (text v) then
        b ← InputStack.has (istack self) v;
        if b : bool then
          qual_var ← varname var fr;
          if unset (defs self) qual_var
          then Ok (set_defs self (dict_set (defs self) qual_var (text v)))
          else Ok self
        else Ok self
      else Ok self
  end.

(** [for var, value in items: self.vars.update_vars(var, value, frame)] *)
Fixpoint update_all (items : dict pyval) (fr : frame) (self : t)
    : result t :=
  match items with
  | [] => Ok self
  | (var, value) :: rest =>
      self' ← update_vars var value fr self;
      update_all rest fr self'
  end.

(** [my_parameters] of [traceit] *)
Definition my_parameters (fr : frame) : result (dict pyval) :=
  if decide (co_argcount fr ≤ length (co_varnames fr)) then
    let param_names := take (co_argcount fr) (co_varnames fr) in
    Ok (filter (fun kv => kv.1 ∈ param_names) (f_locals fr))
  else Raise IndexError.

(** [StackTracer.traceit] *)
Definition traceit (self : t) (fr : frame) (ev : event) : result t :=
  if negb (Str.endswith (co_filename fr) "urllib/parse.py") then Ok self
  else
    match ev with
    | Call =>
        params ← my_parameters fr;
        update_all params fr
          (set_istack self (InputStack.push (istack self) params))
    | Return =>
        s ← InputStack.pop (istack self);
        Ok (set_istack self s)
    | Exception => Ok self
    | _ => update_all (f_locals fr) fr self
    end.

(** A run of the trace function over the events of an execution. *)
Fixpoint run (events : list (frame * event)) (self : t) : result t :=
  match events with
  | [] => Ok self
  | (fr, ev) :: rest =>
      self' ← traceit self fr ev;
      run rest self'
  end.

End WithPolicy.
End StackTracer.

Module Stack.
Section WithStart.
Variable START_SYMBOL : string.

(** [for repl in repl_alternatives]; [append] is threaded through. *)
Definition rewrite_alternatives (value nt_var : string)
    (repl_alternatives : gset string) (append : bool) : gset string * bool :=
  foldl (fun (acc : gset string * bool) repl =>
           if Str.contains value repl
           then ({[Str.replace value nt_var repl]} ∪ acc.1, true)
           else ({[repl]} ∪ acc.1, acc.2))
        (∅, append) (elements repl_alternatives).

(** [for key, repl_alternatives in my_grammar.items()] *)
Fixpoint rewrite_grammar (value nt_var : string)
    (my_grammar : dict (gset string)) (append : bool)
    : dict (gset string) * bool :=
  match my_grammar with
  | [] => ([], append)
  | (key, repl_alternatives) :: rest =>
      let '(alt, append1) :=
        rewrite_alternatives value nt_var repl_alternatives append in
      let '(rest', append2) := rewrite_grammar value nt_var rest append1 in
      ((key, alt) :: rest', append2)
  end.

(** The body of [for var, value in assignments.items()] *)
Definition assign (my_grammar : dict (gset string))
    (assignment : string * string) : dict (gset string) :=
  let '(var, value) := assignment in
  let nt_var := if decide (var = START_SYMBOL) then var else nonterminal var in
  match my_grammar with
  | [] => [(nt_var, {[value]})]
  | _ :: _ =>
      let '(g, append) := rewrite_grammar value nt_var my_grammar false in
      if append then dict_set g nt_var {[value]} else g
  end.

(** [get_grammar(tracer)], called on [tracer.vars.defs] *)
Definition get_grammar (assignments : dict string) : dict (gset string) :=
  foldl assign [] assignments.

End WithStart.
End Stack.

(** ** Merging the grammars of several traces *)

Section MergedGrammar.
(** [list(s)], as for [merge_grammars]. *)
Variable list_of_set : gset string → list string.

(** [get_merged_grammar] calls the global [get_grammar]: the simple
    synthesizer where the notebook calls it first, the stack synthesizer
    once that one is defined. So the synthesizer is a parameter here; it
    gives the grammar and the tracer as the call leaves it. *)
Context {T C : Type} `{!Alternatives C}.
Variable get_grammar : T → option (result (dict C * T)).

(** The list [traces] holds references to tracer objects, and the simple
    [get_grammar] changes the object it is given. So a trace is the
    identity of an object, the objects are kept in a store [objects], and
    a tracer listed twice is seen the second time as the first call has
    left it. *)
Definition object : Type := nat.

(** [for trace in traces]; the second component holds the objects as the
    calls of [get_grammar] leave them. Python has no reference to no
    object: there the result is [None], as for a loop that does not
    end. *)
Fixpoint merge_traces (merged_grammar : grammar) (traces : list object)
    (objects : gmap object T) : option (result (grammar * gmap object T)) :=
  match traces with
  | [] => Some (Ok (merged_grammar, objects))
  | trace :: rest =>
      match objects !! trace with
      | None => None
      | Some tracer =>
          match get_grammar tracer with
          | None => None
          | Some (Raise e) => Some (Raise e)
          | Some (Ok (g, tracer')) =>
              merge_traces (merge_grammars list_of_set merged_grammar g) rest
                (<[trace := tracer']> objects)
          end
      end
  end.

(** [get_merged_grammar(traces)] *)
Definition get_merged_grammar (traces : list object) (objects : gmap object T)
    : option (result (grammar * gmap object T)) :=
  merge_traces [] traces objects.

(** [calls objects traces gs objects']: the calls [get_grammar(trace)] for
    the traces of the list, in turn, each on its tracer as the calls
    before it have left it, return the grammars [gs] and leave the objects
    as [objects']. *)
Inductive calls : gmap object T → list object → list (dict C) →
                  gmap object T → Prop :=
  | calls_nil objects : calls objects [] [] objects
  | calls_cons objects trace tracer g tracer' traces gs objects' :
      objects !! trace = Some tracer →
      get_grammar tracer = Some (Ok (g, tracer')) →
      calls (<[trace := tracer']> objects) traces gs objects' →
      calls objects (trace :: traces) (g :: gs) objects'.

End MergedGrammar.

(** [get_grammar(tracer)] of the stack miner, as [get_merged_grammar] calls
    it: it reads [tracer.vars.defs], changes nothing and raises nothing. *)
Definition stack_get_grammar {P : Policy} (START_SYMBOL : string)
    (tracer : StackTracer.t)
    : option (result (dict (gset string) * StackTracer.t)) :=
  Some (Ok (Stack.get_grammar START_SYMBOL (StackTracer.defs tracer), tracer)).

(** ** Rewriting with a grammar *)

(** Rewriting a string with the rules of a grammar: a step replaces one
    occurrence of the characters of a nonterminal [k] by [alt], where
    [R k alt] says that [alt] is an alternative of [k]. This is rewriting
    of text: it takes the characters of [k] wherever they are, so it is
    coarser than the reading of a grammar by [symbols] below, which
    [generates] follows. *)
Inductive expand (R : string → string → Prop) : string → string → Prop :=
  | expand_at l k alt r :
      R k alt → expand R (l +:+ k +:+ r) (l +:+ alt +:+ r).

(** [derives R s t]: [s] is rewritten to [t] in zero or more steps. *)
Definition derives (R : string → string → Prop) : string → string → Prop :=
  rtc (expand R).

(** ** Grammars as they are read *)

(** Modelled from the spec: how a grammar is read is fixed by the modules
    [Grammars] and [GrammarFuzzer], which the notebook imports and which
    are not among the sources. In an alternative a nonterminal is written
    in angle brackets: [<], then characters other than [<], [>] and
    space, then [>]; every other character stands for itself. *)
Inductive symbol : Type :=
  | Terminal (c : ascii)
  | Nonterminal (k : string).

Fixpoint terminals (s : string) : list symbol :=
  match s with
  | "" => []
  | String c s' => Terminal c :: terminals s'
  end.

(** The symbols of an alternative, read from the left; [opened] holds the
    characters read since a [<] that may still open a nonterminal. *)
Fixpoint symbols_from (opened : option string) (s : string) : list symbol :=
  match s with
  | "" =>
      match opened with
      | Some w => terminals ("<" +:+ w)
      | None => []
      end
  | String c s' =>
      match opened with
      | None =>
          if decide (c = "<"%char) then symbols_from (Some "") s'
          else Terminal c :: symbols_from None s'
      | Some w =>
          if decide (c = ">"%char)
          then Nonterminal ("<" +:+ w +:+ ">") :: symbols_from None s'
          else if decide (c = "<"%char)
          then terminals ("<" +:+ w) ++ symbols_from (Some "") s'
          else if decide (c = " "%char)
          then terminals ("<" +:+ w +:+ " ") ++ symbols_from None s'
          else symbols_from (Some (w +:+ String c "")) s'
      end
  end.

Definition symbols (alternative : string) : list symbol :=
  symbols_from None alternative.

(** [generates_symbols g syms t]: the symbols [syms] derive the string [t]
    in the grammar [g], every terminal giving its character and every
    nonterminal what one of its alternatives derives. *)
Inductive generates_symbols {C : Type} `{!Alternatives C} (g : dict C)
    : list symbol → string → Prop :=
  | generates_nil : generates_symbols g [] ""
  | generates_terminal c syms t :
      generates_symbols g syms t →
      generates_symbols g (Terminal c :: syms) (String c t)
  | generates_nonterminal k alt syms t1 t2 :
      alt ∈ alternatives_of g k →
      generates_symbols g (symbols alt) t1 →
      generates_symbols g syms t2 →
      generates_symbols g (Nonterminal k :: syms) (t1 +:+ t2).

(** The nonterminal [k] derives the string [t] in the grammar [g]. *)
Definition generates {C : Type} `{!Alternatives C} (g : dict C)
    (k t : string) : Prop :=
  generates_symbols g [Nonterminal k] t.

(** ** Names of nonterminals *)

(** The variables [vars] give pairwise different nonterminals, all different
    from the start symbol. *)
Definition distinct_nonterminals (START_SYMBOL : string) (vars : list string)
    : Prop :=
  NoDup (START_SYMBOL :: (nonterminal <$> vars)).

(** [nt_var] of the stack synthesizer. *)
Definition nt_var_of (START_SYMBOL var : string) : string :=
  if decide (var = START_SYMBOL) then var else nonterminal var.

(** Every character of [s] passes the test [p]. *)
Fixpoint all_chars (p : ascii → bool) (s : string) : bool :=
  match s with
  | "" => true
  | String c s' => p c && all_chars p s'
  end.

(** A character other than [<] and [>]. *)
Definition plain_char (c : ascii) : bool :=
  negb (Ascii.eqb c "<") && negb (Ascii.eqb c ">").

(** A character that the name of a nonterminal may have. *)
Definition name_char (c : ascii) : bool :=
  plain_char c && negb (Ascii.eqb c " ").

(** No [<] and no [>] occurs in [s]. *)
Definition bracket_free (s : string) : bool := all_chars plain_char s.

(** [k] is read as one nonterminal. *)
Definition is_nonterminal (k : string) : Prop :=
  ∃ w, k = "<" +:+ w +:+ ">" ∧ all_chars name_char w = true.

(** ** Grammars and observations *)

(** Every nonterminal of [g] has exactly one alternative. *)
Definition singletons (g : grammar) : Prop :=
  Forall (fun e : string * list string => ∃ a, e.2 = [a]) g.

(** Every nonterminal of [g] has exactly one alternative. *)
Definition singletons_set (g : dict (gset string)) : Prop :=
  Forall (fun e : string * gset string => ∃ a, e.2 = {[a]}) g.

(** [value] occurs in no alternative listed in [g]. *)
Definition no_match (value : string) (g : grammar) : Prop :=
  Forall (fun e : string * list string =>
            Forall (fun a => Str.contains value a = false) e.2) g.

(** [value] occurs in no alternative listed in [g]. *)
Definition no_match_set (value : string) (g : dict (gset string)) : Prop :=
  Forall (fun e : string * gset string =>
            set_Forall (fun a => Str.contains value a = false) e.2) g.

(** [value] occurs in no alternative of [g]. *)
Definition unmatched {C : Type} `{!Alternatives C} (value : string)
    (g : dict C) : Prop :=
  ∀ key alts repl,
    dict_get g key = Some alts → repl ∈ as_set alts →
    Str.contains value repl = false.

(** A dictionary without the binding of [var]. *)
Definition without {V : Type} (var : string) (d : dict V) : dict V :=
  filter (fun kv : string * V => kv.1 ≠ var) (d : list (string * V)).

(** The tracer [tracer] had the variable [var] not been observed. *)
Definition forget (var : string) (tracer : Tracer.t) : Tracer.t :=
  {| Tracer.inputstr := Tracer.inputstr tracer;
     Tracer.the_values := without var (Tracer.the_values tracer);
     Tracer.oldtrace := Tracer.oldtrace tracer |}.

(** The simple tracer after the events of an execution. *)
Definition simple_run (inputstr : string) (events : list (frame * event))
    : Tracer.t :=
  foldl (fun self fe => Tracer.traceit self fe.1 fe.2)
        (Tracer.init inputstr) events.

(** ** Traces of the stack miner *)

(** The test of [StackTracer.traceit] on the file of a frame. *)
Definition in_parse (fr : frame) : bool :=
  Str.endswith (co_filename fr) "urllib/parse.py".

(** The events that [StackTracer.traceit] acts on: those of
    [urllib/parse.py] other than [exception]. *)
Definition acted_on (fe : frame * event) : bool :=
  in_parse fe.1 && match fe.2 with Exception => false | _ => true end.

(** A frame as the interpreter makes it: the parameters are among the
    variables of the code, and in a frame of [__new__] the first variable
    is bound to a class. *)
Definition frame_ok (fr : frame) : Prop :=
  co_argcount fr ≤ length (co_varnames fr) ∧
  (co_name fr = "__new__" →
   ∃ first rest name,
     co_varnames fr = first :: rest ∧
     dict_get (f_locals fr) first = Some (VNamed name)).

(** The number of calls of [urllib/parse.py] that are open after [events],
    when [depth] were open before. *)
Fixpoint depth_after (depth : nat) (events : list (frame * event)) : nat :=
  match events with
  | [] => depth
  | (fr, ev) :: rest =>
      if in_parse fr then
        match ev with
        | Call => depth_after (S depth) rest
        | Return => depth_after (pred depth) rest
        | _ => depth_after depth rest
        end
      else depth_after depth rest
  end.

(** The events of [urllib/parse.py] are nested: every [return], [line] or
    other event comes while a call is open. *)
Fixpoint well_nested (depth : nat) (events : list (frame * event)) : bool :=
  match events with
  | [] => true
  | (fr, ev) :: rest =>
      if in_parse fr then
        match ev with
        | Call => well_nested (S depth) rest
        | Return => (0 <? depth) && well_nested (pred depth) rest
        | Exception => well_nested depth rest
        | _ => (0 <? depth) && well_nested depth rest
        end
      else well_nested depth rest
  end.

(** [u] is a string argument of a call of [urllib/parse.py] that the trace
    [events] of the stack miner enters while no call is open. *)
Definition outermost_argument (START_SYMBOL inputstr : string)
    (events : list (frame * event)) (u : string) : Prop :=
  ∃ pre fr post (self : StackTracer.t (P := plain)) k value,
    events = pre ++ (fr, Call) :: post ∧
    in_parse fr = true ∧
    StackTracer.run pre (StackTracer.init START_SYMBOL inputstr) = Ok self ∧
    StackTracer.istack self = [] ∧
    (k, value) ∈ f_locals fr ∧
    k ∈ take (co_argcount fr) (co_varnames fr) ∧
    as_str value = Some u.

(** ** Observations of the stack miner *)

Section Observations.
Context {P : Policy}.




End Observations.


(** ** Traced strings *)

(** The strings that [s = s.parent] of [is_from] runs through, from a
    traced string up to the one it was first taken from. *)
Fixpoint ancestors (v : tstr) : list tstr :=
  v :: match v with
       | Tstr _ _ (Some p) => ancestors p
       | Tstr _ _ None => []
       end.

(** ** Grammars with several alternatives *)


(** ** Notions used in the proofs *)

(** The characters of [s] left after passing over [n] of them. *)
Fixpoint skipn_string (n : nat) (s : string) : string :=
  match n, s with
  | S n', String _ s' => skipn_string n' s'
  | _, _ => s
  end.

(** The rules that the entries of [new_rules] stand for. *)
Definition pending (rules : list Simple.rule) (k alt : string) : Prop :=
  ∃ var, (var, k, alt) ∈ rules.

(** The variables and the nonterminals of the entries of [new_rules]. *)
Definition rule_vars (rules : list Simple.rule) : list string :=
  (fun r : Simple.rule => r.1.1) <$> rules.
Definition rule_keys (rules : list Simple.rule) : list string :=
  (fun r : Simple.rule => r.1.2) <$> rules.



(** What a list of symbols derives in a grammar in which the nonterminals
    met have one alternative each; [fuel] bounds the nesting of
    nonterminals. *)
Fixpoint expansion {C : Type} `{!Alternatives C} (fuel : nat) (g : dict C)
    (syms : list symbol) : option string :=
  match fuel with
  | O => None
  | S fuel' =>
      (fix go (syms : list symbol) : option string :=
         match syms with
         | [] => Some ""
         | Terminal c :: rest => String c <$> go rest
         | Nonterminal k :: rest =>
             match elements (alternatives_of g k) with
             | [alt] =>
                 t1 ← expansion fuel' g (symbols alt);
                 t2 ← go rest;
                 Some (t1 +:+ t2)
             | _ => None
             end
         end) syms
  end.

(** [refines R g g']: the grammars have the same keys, and each alternative
    of [g'] expands with the rules [R] to the alternative of [g] at the
    same place. *)
Definition refines (R : string → string → Prop) (g g' : grammar) : Prop :=
  Forall2 (fun e e' : string * list string =>
             e.1 = e'.1 ∧ Forall2 (fun a a' => derives R a' a) e.2 e'.2) g g'.

(** [refines] for grammars with one alternative per nonterminal, held in
    sets. *)
Definition refines_set (R : string → string → Prop)
    (g g' : dict (gset string)) : Prop :=
  Forall2 (fun e e' : string * gset string =>
             e.1 = e'.1 ∧
             ∃ a a', e.2 = {[a]} ∧ e'.2 = {[a']} ∧ derives R a' a) g g'.

(** What the loop over the alternatives does to one of them. *)
Definition rewrite_one (value nt_var repl : string) : string :=
  if Str.contains value repl then Str.replace value nt_var repl else repl.

(** The string that a list of symbols is written as. *)
Fixpoint render (syms : list symbol) : string :=
  match syms with
  | [] => ""
  | Terminal c :: rest => String c (render rest)
  | Nonterminal k :: rest => k +:+ render rest
  end.

(** A terminal other than an angle bracket, or one of the nonterminals
    [K]. *)
Definition well_formed (K : list string) (sym : symbol) : Prop :=
  match sym with
  | Terminal c => plain_char c = true
  | Nonterminal k => is_nonterminal k ∧ k ∈ K
  end.

(** [folds value nt syms syms']: [syms'] is [syms] with the nonterminal
    [nt] in the place of some runs of terminals that spell [value]. *)
Inductive folds (value nt : string) : list symbol → list symbol → Prop :=
  | folds_nil : folds value nt [] []
  | folds_keep sym syms syms' :
      folds value nt syms syms' →
      folds value nt (sym :: syms) (sym :: syms')
  | folds_run syms syms' :
      folds value nt syms syms' →
      folds value nt (terminals value ++ syms) (Nonterminal nt :: syms').

(** A grammar with one alternative for every nonterminal, as the stack
    [get_grammar] holds it. *)
Definition one_each (sg : dict string) : dict (gset string) :=
  (fun e : string * string => (e.1, ({[e.2]} : gset string))) <$> sg.

(** [Stack.assign] on a grammar with one alternative for every
    nonterminal. *)
Definition assign_one (START_SYMBOL : string) (sg : dict string)
    (assignment : string * string) : dict string :=
  let '(var, value) := assignment in
  let nt_var := nt_var_of START_SYMBOL var in
  match sg with
  | [] => [(nt_var, value)]
  | _ :: _ =>
      let sg1 := (fun e : string * string =>
                    (e.1, rewrite_one value nt_var e.2)) <$> sg in
      if existsb (fun e : string * string => Str.contains value e.2) sg
      then dict_set sg1 nt_var value
      else sg1
  end.

(** [sound K target sg]: every alternative of [sg] is written with
    terminals other than angle brackets and nonterminals of [K], and
    derives what [target] gives for its nonterminal. *)
Definition sound (K : list string) (target : string → string → Prop)
    (sg : dict string) : Prop :=
  dict_wf sg ∧
  (∀ k a, dict_get sg k = Some a →
          ∃ syms, a = render syms ∧ Forall (well_formed K) syms) ∧
  (∀ k a, dict_get sg k = Some a →
          ∃ t, target k t ∧ generates_symbols (one_each sg) (symbols a) t).

(** What [update_vars] may do to [defs]: nothing, or bind a name that has
    no non-empty value yet to a string of at least two characters. *)
Definition records (d d' : dict string) : Prop :=
  d' = d ∨
  ∃ q s, StackTracer.unset d q = true ∧ 2 ≤ String.length s ∧
         d' = dict_set d q s.

(** The strings of the frames of the stack [s] are parts of strings of
    [O]. *)
Definition stack_within (O : string → Prop) (s : InputStack.t (P := plain))
    : Prop :=
  ∀ fr_inputs k v,
    fr_inputs ∈ s → (k, v) ∈ fr_inputs → ∃ u, O u ∧ Str.contains v u = true.

(** The values bound in [d] are parts of strings of [O], but for the
    sample under the start symbol. *)
Definition values_within (START_SYMBOL inputstr : string) (O : string → Prop)
    (d : dict string) : Prop :=
  ∀ q v,
    dict_get d q = Some v →
    q = START_SYMBOL ∧ v = inputstr ∨ ∃ u, O u ∧ Str.contains v u = true.

(** ** Examples used below *)

(** A trace of the simple miner: two observations, the second of which
    straddles the first and is never matched. *)
Definition straddling_tracer : Tracer.t :=
  {| Tracer.inputstr := "abcdef";
     Tracer.the_values := [("x", "abc"); ("q", "cde")];
     Tracer.oldtrace := None |}.

Definition straddling_grammar : grammar :=
  [("<start>", ["<x>def"]); ("<x>", ["abc"])].

Definition straddling_tracer_after : Tracer.t :=
  {| Tracer.inputstr := "abcdef";
     Tracer.the_values := [("q", "cde")];
     Tracer.oldtrace := None |}.

(** The call of [parse_qs("a=b")], as the trace function sees it. *)
Definition parse_qs_call : frame :=
  {| co_name := "parse_qs";
     co_filename := "/usr/lib/python3.6/urllib/parse.py";
     co_varnames := ["qs"; "keep_blank_values"; "strict_parsing"; "encoding";
                     "errors"; "parsed_result"; "pairs"];
     co_argcount := 5;
     f_locals := [("qs", VStr "a=b"); ("keep_blank_values", VOther);
                  ("strict_parsing", VOther); ("encoding", VStr "utf-8");
                  ("errors", VStr "replace")] |}.

(** Two variables whose names differ in the case of a letter only. *)
Definition collision_tracer : Tracer.t :=
  Tracer.Make "abcdef" [("A", "abc"); ("a", "def")] None.

(** Two variables of [urlparse("http://url/x")]: the value of the second
    is a part of the sample, and also the name of the first. *)
Definition name_tracer : Tracer.t :=
  Tracer.Make "http://url/x" [("url", "http://url/x"); ("netloc", "url")] None.

(** A trace of the simple miner that [get_grammar] handles once, and on
    whose leftovers it raises. *)
Definition twice_tracer : Tracer.t :=
  Tracer.Make "abcdabce"
    [("w", "cdab"); ("x", "abcd"); ("y", "abce"); ("z", "abc")] None.

(** A call of [urlparse] that calls [urlsplit], which finds the host. *)
Definition urlparse_events : list (frame * event) :=
  let parse := "/usr/lib/python3.6/urllib/parse.py" in
  [(Frame "urlparse" parse ["url"; "scheme"] 1 [("url", VStr "http://url/x")],
    Call);
   (Frame "urlsplit" parse ["url"; "scheme"; "netloc"] 1
      [("url", VStr "http://url/x")], Call);
   (Frame "urlsplit" parse ["url"; "scheme"; "netloc"] 1
      [("url", VStr "http://url/x"); ("netloc", VStr "url")], Line)].


(** A call of [urlparse] that calls [urlsplit], which finds the scheme and
    the host. *)
Definition urlsplit_events : list (frame * event) :=
  let parse := "/usr/lib/python3.6/urllib/parse.py" in
  [(Frame "urlparse" parse ["url"; "scheme"] 1
      [("url", VStr "http://host/path")], Call);
   (Frame "urlsplit" parse ["url"; "scheme"; "netloc"] 1
      [("url", VStr "http://host/path")], Call);
   (Frame "urlsplit" parse ["url"; "scheme"; "netloc"] 1
      [("url", VStr "http://host/path"); ("scheme", VStr "http");
       ("netloc", VStr "host")], Line)].

(** * Properties *)

(** ** Strings *)

Section StrFacts.
Implicit Types s t u : string.
Local Arguments String.append !_ _ /.

Lemma str_app_nil_r s : s +:+ "" = s.
Proof. induction s; simpl; f_equal; auto. Qed.

Lemma str_app_assoc s t u : (s +:+ t) +:+ u = s +:+ (t +:+ u).
Proof. induction s; simpl; f_equal; auto. Qed.

Lemma prefix_spec p s :
  String.prefix p s = true ↔ ∃ r, s = p +:+ r.
Proof.
  revert s. induction p as [|a p IH]; intros s; simpl.
  - destruct s; split; eauto.
  - destruct s as [|b s]; simpl.
    + split; [done | intros [r Hr]; done].
    + destruct (ascii_dec a b) as [->|Hne].
      * rewrite IH. split; intros [r Hr]; exists r; simpl in *; congruence.
      * split; [done | intros [r Hr]; simpl in Hr; congruence].
Qed.

Lemma contains_cons sub c s :
  Str.contains sub (String c s) =
  String.prefix sub (String c s) || Str.contains sub s.
Proof. done. Qed.

Lemma contains_spec sub s :
  Str.contains sub s = true ↔ ∃ l r, s = l +:+ sub +:+ r.
Proof.
  induction s as [|c s IH].
  - change (Str.contains sub "") with (String.prefix sub "" || false).
    rewrite orb_false_r, prefix_spec. split.
    + intros [r Hr]. by exists "", r.
    + intros (l & r & H). destruct l; simpl in H; [by exists r | done].
  - rewrite contains_cons, orb_true_iff, prefix_spec, IH. split.
    + intros [[r Hr] | (l & r & Hr)].
      * by exists "", r.
      * exists (String c l), r. simpl. by rewrite Hr.
    + intros (l & r & H). destruct l as [|c' l]; simpl in H.
      * left. by exists r.
      * right. exists l, r. congruence.
Qed.

Lemma contains_refl s : Str.contains s s = true.
Proof. apply contains_spec. exists "", "". simpl. by rewrite str_app_nil_r. Qed.

Lemma contains_trans s t u :
  Str.contains s t = true → Str.contains t u = true →
  Str.contains s u = true.
Proof.
  rewrite !contains_spec. intros (l1 & r1 & ->) (l2 & r2 & ->).
  exists (l2 +:+ l1), (r1 +:+ r2). by rewrite !str_app_assoc.
Qed.

End StrFacts.

(** ** Rewriting with a grammar *)

Section ExpandFacts.
Implicit Types R : string → string → Prop.
Local Arguments String.append !_ _ /.

Lemma expand_context R p q s t :
  expand R s t → expand R (p +:+ s +:+ q) (p +:+ t +:+ q).
Proof.
  intros [l k alt r H].
  replace (p +:+ (l +:+ k +:+ r) +:+ q)
    with ((p +:+ l) +:+ k +:+ (r +:+ q)) by by rewrite !str_app_assoc.
  replace (p +:+ (l +:+ alt +:+ r) +:+ q)
    with ((p +:+ l) +:+ alt +:+ (r +:+ q)) by by rewrite !str_app_assoc.
  by constructor.
Qed.

Lemma derives_context R p q s t :
  derives R s t → derives R (p +:+ s +:+ q) (p +:+ t +:+ q).
Proof.
  induction 1 as [|s t u Hst _ IH]; [apply rtc_refl|].
  eapply rtc_l; [by apply expand_context | done].
Qed.

Lemma derives_prepend R p s t :
  derives R s t → derives R (p +:+ s) (p +:+ t).
Proof.
  intros H. apply (derives_context R p "") in H.
  by rewrite !str_app_nil_r in H.
Qed.

Lemma derives_cons R c s t :
  derives R s t → derives R (String c s) (String c t).
Proof. apply (derives_prepend R (String c "")). Qed.

Lemma derives_rule R k alt r : R k alt → derives R (k +:+ r) (alt +:+ r).
Proof. intros H. apply rtc_once, (expand_at R "" k alt r H). Qed.

Lemma expand_mono R R' s t :
  (∀ k alt, R k alt → R' k alt) → expand R s t → expand R' s t.
Proof. intros HR [l k alt r H]. constructor. auto. Qed.

Lemma derives_mono R R' s t :
  (∀ k alt, R k alt → R' k alt) → derives R s t → derives R' s t.
Proof.
  intros HR. induction 1; [apply rtc_refl|].
  eapply rtc_l; [by eapply expand_mono | done].
Qed.

Lemma skipn_string_app p r : skipn_string (String.length p) (p +:+ r) = r.
Proof. induction p; simpl; auto. Qed.

Lemma replace_from_derives R old new skip s :
  R new old → old ≠ "" →
  derives R (Str.replace_from skip old new s) (skipn_string skip s).
Proof.
  intros HR Hold. revert skip.
  induction s as [|c s IH]; intros skip.
  - destruct skip; apply rtc_refl.
  - destruct skip as [|n]; [|apply IH].
    change (Str.replace_from 0 old new (String c s)) with
      (if String.prefix old (String c s)
       then new +:+ Str.replace_from (String.length old - 1) old new s
       else String c (Str.replace_from 0 old new s)).
    destruct (String.prefix old (String c s)) eqn:Hp.
    + apply prefix_spec in Hp as [r Hr].
      destruct old as [|c' old']; [done|].
      injection Hr as <- ->.
      replace (String.length (String c old') - 1)
        with (String.length old') by (simpl; lia).
      etrans.
      * apply derives_prepend, IH.
      * rewrite skipn_string_app.
        apply (derives_rule R new (String c old') r HR).
    + apply derives_cons, (IH 0).
Qed.

Lemma interleave_derives R new s :
  R new "" → derives R (Str.interleave new s) s.
Proof.
  intros HR. induction s as [|c s IH]; simpl.
  - rewrite <-(str_app_nil_r new). apply (derives_rule R new "" "" HR).
  - etrans; [apply (derives_rule R new "" _ HR)|]. simpl.
    by apply derives_cons.
Qed.

(** Replacing [old] by [new] is undone by expanding [new] to [old]. *)
Lemma replace_derives R old new s :
  R new old → derives R (Str.replace old new s) s.
Proof.
  intros HR. unfold Str.replace. destruct old as [|c old].
  - by apply interleave_derives.
  - by apply (replace_from_derives R (String c old) new 0 s).
Qed.

End ExpandFacts.

(** ** Characters in a string *)

Section Tokens.
Implicit Types s t l r m w k : string.
Local Arguments String.append !_ _ /.

Lemma str_app_eq_app l1 r1 l2 r2 :
  l1 +:+ r1 = l2 +:+ r2 →
  (∃ m, l2 = l1 +:+ m ∧ r1 = m +:+ r2) ∨ (∃ m, l1 = l2 +:+ m ∧ r2 = m +:+ r1).
Proof.
  revert l2. induction l1 as [|c l1 IH]; intros l2 H.
  - left. by exists l2.
  - destruct l2 as [|c2 l2].
    + right. by exists (String c l1).
    + simpl in H. injection H as -> H.
      destruct (IH _ H) as [(m & -> & ->)|(m & -> & ->)].
      * left. by exists m.
      * right. by exists m.
Qed.

Lemma contains_char c s :
  Str.contains (String c "") s = true ↔ ∃ l r, s = l +:+ String c r.
Proof. rewrite contains_spec. naive_solver. Qed.

Lemma contains_char_app c s t :
  Str.contains (String c "") (s +:+ t) = false →
  Str.contains (String c "") s = false ∧ Str.contains (String c "") t = false.
Proof.
  intros H. split; apply not_true_is_false; intros (l & r & ->)%contains_char;
    apply not_true_iff_false in H; apply H, contains_char.
  - exists l, (r +:+ t). by rewrite str_app_assoc.
  - exists (s +:+ l), r. by rewrite str_app_assoc.
Qed.

Lemma contains_char_head c r : Str.contains (String c "") (String c r) = true.
Proof. apply contains_char. by exists "", r. Qed.

End Tokens.

(** ** Lists *)

Lemma filter_ext_elem {A} (P Q : A → Prop) `{!∀ x, Decision (P x)}
    `{!∀ x, Decision (Q x)} (l : list A) :
  (∀ x, x ∈ l → P x ↔ Q x) → filter P l = filter Q l.
Proof.
  induction l as [|x l IH]; intros HPQ; [done|].
  rewrite !filter_cons. rewrite IH by (intros; apply HPQ; by right).
  destruct (decide (P x)) as [HP|HP], (decide (Q x)) as [HQ|HQ]; try done;
    exfalso; apply (HPQ x) in HP || apply (HPQ x) in HQ; done || left.
Qed.

Lemma filter_all {A} (P : A → Prop) `{!∀ x, Decision (P x)} (l : list A) :
  (∀ x, x ∈ l → P x) → filter P l = l.
Proof.
  induction l as [|x l IH]; intros HP; [done|].
  rewrite filter_cons_True by (apply HP; left).
  f_equal. apply IH. intros; apply HP; by right.
Qed.

(** ** Dictionaries *)

Section DictFacts.
Context {V : Type}.
Implicit Types d : dict V.

Lemma dict_get_None d k : dict_get d k = None ↔ k ∉ dict_keys d.
Proof.
  unfold dict_keys. induction d as [|[k' v] d IH]; simpl.
  - split; [intros _ H; inversion H | done].
  - case_decide; subst.
    + split; [done | intros []; left].
    + rewrite IH, not_elem_of_cons. naive_solver.
Qed.

Lemma dict_get_Some_keys d k v : dict_get d k = Some v → k ∈ dict_keys d.
Proof.
  intros H. destruct (decide (k ∈ dict_keys d)) as [|Hn]; [done|].
  apply dict_get_None in Hn. congruence.
Qed.

Lemma dict_get_Some_elem d k v : dict_get d k = Some v → (k, v) ∈ d.
Proof.
  induction d as [|[k' v'] d IH]; simpl; [done|].
  case_decide; subst.
  - intros [= ->]. left.
  - intros. right. auto.
Qed.

Lemma dict_get_elem d k v : dict_wf d → (k, v) ∈ d → dict_get d k = Some v.
Proof.
  unfold dict_wf, dict_keys. induction d as [|[k' v'] d IH]; simpl.
  - intros _ H. inversion H.
  - intros [Hk Hd]%NoDup_cons [[= -> ->] | Hin]%elem_of_cons.
    + by rewrite decide_True.
    + rewrite decide_False; [auto|]. intros ->. apply Hk.
      apply list_elem_of_fmap. by exists (k, v).
Qed.

Lemma dict_get_set_eq d k v : dict_get (dict_set d k v) k = Some v.
Proof.
  induction d as [|[k' v'] d IH]; simpl.
  - by rewrite decide_True.
  - case_decide; simpl; [by rewrite decide_True | by rewrite decide_False].
Qed.

Lemma dict_get_set_ne d k k' v :
  k ≠ k' → dict_get (dict_set d k v) k' = dict_get d k'.
Proof.
  intros Hne. induction d as [|[k1 v1] d IH]; simpl.
  - by rewrite decide_False.
  - case_decide; simpl; subst.
    + by rewrite !decide_False.
    + case_decide; auto.
Qed.

Lemma dict_set_fresh d k v : k ∉ dict_keys d → dict_set d k v = d ++ [(k, v)].
Proof.
  unfold dict_keys. induction d as [|[k' v'] d IH]; simpl; [done|].
  intros [Hne Hd]%not_elem_of_cons.
  rewrite decide_False by done. f_equal. auto.
Qed.

Lemma dict_keys_set d k v :
  k ∈ dict_keys d → dict_keys (dict_set d k v) = dict_keys d.
Proof.
  unfold dict_keys. induction d as [|[k' v'] d IH]; simpl.
  - intros H. inversion H.
  - intros Hin. case_decide; subst; simpl; [done|].
    f_equal. apply IH. apply elem_of_cons in Hin as [|]; [congruence|done].
Qed.

Lemma dict_keys_set_elem d k v k' :
  k' ∈ dict_keys (dict_set d k v) ↔ k' = k ∨ k' ∈ dict_keys d.
Proof.
  destruct (decide (k ∈ dict_keys d)) as [Hin|Hn].
  - rewrite dict_keys_set by done. naive_solver.
  - rewrite dict_set_fresh by done. unfold dict_keys.
    rewrite fmap_app, elem_of_app. simpl. rewrite list_elem_of_singleton.
    naive_solver.
Qed.

Lemma dict_del_Ok d k d' :
  dict_del d k = Ok d' →
  ∃ d1 v d2, d = d1 ++ (k, v) :: d2 ∧ d' = d1 ++ d2 ∧ k ∉ dict_keys d1.
Proof.
  revert d'. induction d as [|[k1 v1] d IH]; simpl; intros d'; [done|].
  case_decide; subst.
  - intros [= <-]. exists [], v1, d. split_and!; [done..|].
    intros H. inversion H.
  - destruct (dict_del d k) as [d''|e] eqn:Hdel; simpl; [|done].
    intros [= <-]. destruct (IH _ eq_refl) as (d1 & v & d2 & -> & -> & Hn).
    exists ((k1, v1) :: d1), v, d2. split_and!; [done..|].
    unfold dict_keys in *. simpl. rewrite not_elem_of_cons. done.
Qed.

Lemma dict_del_Raise d k e :
  dict_del d k = Raise e → e = KeyError k ∧ k ∉ dict_keys d.
Proof.
  unfold dict_keys. induction d as [|[k1 v1] d IH]; simpl.
  - intros [= <-]. split; [done|]. intros H. inversion H.
  - case_decide; [done|].
    destruct (dict_del d k) as [d''|e'] eqn:Hdel; simpl; [done|].
    intros [= <-]. destruct (IH eq_refl) as [-> Hn].
    split; [done|]. rewrite not_elem_of_cons. done.
Qed.

Lemma dict_wf_app_inv d1 k v d2 :
  dict_wf (d1 ++ (k, v) :: d2) →
  dict_wf (d1 ++ d2) ∧ k ∉ dict_keys (d1 ++ d2).
Proof.
  unfold dict_wf, dict_keys. rewrite !fmap_app, fmap_cons. simpl.
  intros H. apply NoDup_app in H as (H1 & H12 & H2).
  apply NoDup_cons in H2 as [Hk H2]. split.
  - apply NoDup_app. split_and!; [done| |done].
    intros x Hx1 Hx2. apply (H12 x Hx1). by right.
  - rewrite elem_of_app. intros [Hin|Hin]; [|done].
    apply (H12 k Hin). left.
Qed.

End DictFacts.

(** ** The simple synthesizer *)

Section SimpleFacts.
Variable START_SYMBOL : string.
Implicit Types (g : grammar) (traces : dict string) (rules : list Simple.rule).
Implicit Types R : string → string → Prop.

Lemma pending_app rules1 rules2 k alt :
  pending (rules1 ++ rules2) k alt ↔ pending rules1 k alt ∨ pending rules2 k alt.
Proof. unfold pending. setoid_rewrite elem_of_app. naive_solver. Qed.

Lemma refines_refl R g : refines R g g.
Proof.
  apply Forall2_same_length_lookup_2; [done|].
  intros i e e' H1 H2. simplify_eq. split; [done|].
  apply Forall2_same_length_lookup_2; [done|].
  intros j a a' Ha Ha'. simplify_eq. apply rtc_refl.
Qed.

Lemma refines_trans R g1 g2 g3 :
  refines R g1 g2 → refines R g2 g3 → refines R g1 g3.
Proof.
  unfold refines. intros H12 H23.
  eapply Forall2_trans; [|exact H12|exact H23].
  intros e1 e2 e3 [Hk1 Ha1] [Hk2 Ha2]. split; [congruence|].
  eapply Forall2_trans; [|exact Ha1|exact Ha2].
  intros a1 a2 a3 Hd1 Hd2. unfold derives in *. by etrans.
Qed.

Lemma refines_mono R R' g g' :
  (∀ k alt, R k alt → R' k alt) → refines R g g' → refines R' g g'.
Proof.
  intros HR H. unfold refines. eapply Forall2_impl; [exact H|].
  intros e e' [Hk Ha]. split; [done|].
  eapply Forall2_impl; [exact Ha|]. intros a a'. by apply derives_mono.
Qed.

Lemma refines_keys R g g' : refines R g g' → dict_keys g' = dict_keys g.
Proof.
  unfold dict_keys. induction 1 as [|e e' g g' [Hk _] _ IH]; [done|].
  rewrite !fmap_cons. congruence.
Qed.

Lemma refines_singletons R g g' :
  refines R g g' → singletons g → singletons g'.
Proof.
  unfold singletons.
  induction 1 as [|[k1 alts1] [k1' alts1'] g g' [Hk Ha] _ IH]; [done|].
  intros [[a Heq] Hg]%Forall_cons. simpl in *. subst.
  constructor; [|auto].
  inversion Ha as [|? a' ? l' Hd Hnil]; subst. inversion Hnil. simpl. eauto.
Qed.

Lemma singletons_get g k alts :
  singletons g → dict_get g k = Some alts → ∃ a, alts = [a].
Proof.
  intros Hs Hget%dict_get_Some_elem.
  unfold singletons in Hs. rewrite Forall_forall in Hs.
  apply (Hs _ Hget).
Qed.
(** *** One scan of the grammar *)

Lemma scan_alternatives_rules var value alts alts' rules :
  Simple.scan_alternatives var value alts = (alts', rules) →
  Forall (fun r => r = (var, nonterminal var, value)) rules.
Proof.
  revert alts' rules. induction alts as [|a alts IH]; intros alts' rules; simpl.
  - by intros [= <- <-].
  - destruct (Simple.scan_alternatives var value alts) as [rest' rs].
    destruct (Str.contains value a); intros [= <- <-]; [constructor|]; eauto.
Qed.

Lemma scan_alternatives_derives R var value alts alts' rules :
  Simple.scan_alternatives var value alts = (alts', rules) →
  (rules ≠ [] → R (nonterminal var) value) →
  Forall2 (fun a a' => derives R a' a) alts alts'.
Proof.
  revert alts' rules. induction alts as [|a alts IH]; intros alts' rules; simpl.
  - intros [= <- <-] _. constructor.
  - destruct (Simple.scan_alternatives var value alts) as [rest' rs] eqn:Hrec.
    destruct (Str.contains value a); intros [= <- <-] HR.
    + constructor.
      * apply replace_derives. by apply HR.
      * eapply IH; [done|]. intros _. by apply HR.
    + constructor; [apply rtc_refl | by eapply IH].
Qed.

Lemma scan_alternatives_nil var value alts alts' :
  Simple.scan_alternatives var value alts = (alts', []) →
  alts' = alts ∧ Forall (fun a => Str.contains value a = false) alts.
Proof.
  revert alts'. induction alts as [|a alts IH]; intros alts'; simpl.
  - by intros [= <-].
  - destruct (Simple.scan_alternatives var value alts) as [rest' rs] eqn:Hrec.
    destruct (Str.contains value a) eqn:Hc; intros [= <- ->].
    destruct (IH _ eq_refl) as [-> ?]. split; [done | by constructor].
Qed.

Lemma scan_alternatives_unmatched var value alts :
  Forall (fun a => Str.contains value a = false) alts →
  Simple.scan_alternatives var value alts = (alts, []).
Proof.
  induction 1 as [|a alts Ha _ IH]; simpl; [done|]. by rewrite IH, Ha.
Qed.

Lemma scan_grammar_rules var value g g' rules :
  Simple.scan_grammar var value g = (g', rules) →
  Forall (fun r => r = (var, nonterminal var, value)) rules.
Proof.
  revert g' rules. induction g as [|[key alts] g IH]; intros g' rules; simpl.
  - by intros [= <- <-].
  - destruct (Simple.scan_alternatives var value alts) as [alts' rs1] eqn:H1.
    destruct (Simple.scan_grammar var value g) as [rest' rs2] eqn:H2.
    intros [= <- <-]. apply Forall_app. split.
    + by eapply scan_alternatives_rules.
    + by eapply IH.
Qed.

Lemma scan_grammar_refines R var value g g' rules :
  Simple.scan_grammar var value g = (g', rules) →
  (rules ≠ [] → R (nonterminal var) value) →
  refines R g g'.
Proof.
  revert g' rules. induction g as [|[key alts] g IH]; intros g' rules; simpl.
  - intros [= <- <-] _. constructor.
  - destruct (Simple.scan_alternatives var value alts) as [alts' rs1] eqn:H1.
    destruct (Simple.scan_grammar var value g) as [rest' rs2] eqn:H2.
    intros [= <- <-] HR. constructor.
    + split; [done|]. simpl. eapply scan_alternatives_derives; [done|].
      intros Hne. apply HR. by destruct rs1.
    + eapply IH; [done|]. intros Hne. apply HR. by destruct rs1, rs2.
Qed.

Lemma scan_grammar_nil var value g g' :
  Simple.scan_grammar var value g = (g', []) → g' = g ∧ no_match value g.
Proof.
  revert g'. induction g as [|[key alts] g IH]; intros g'; simpl.
  - intros [= <-]. split; [done | constructor].
  - destruct (Simple.scan_alternatives var value alts) as [alts' rs1] eqn:H1.
    destruct (Simple.scan_grammar var value g) as [rest' rs2] eqn:H2.
    intros [= <- [-> ->]%app_eq_nil].
    apply scan_alternatives_nil in H1 as [-> Ha].
    destruct (IH _ eq_refl) as [-> Hg]. split; [done | by constructor].
Qed.

Lemma scan_grammar_unmatched var value g :
  no_match value g → Simple.scan_grammar var value g = (g, []).
Proof.
  induction 1 as [|[key alts] g Ha _ IH]; simpl; [done|].
  by rewrite scan_alternatives_unmatched, IH.
Qed.

Lemma scan_traces_rules traces g g' rules :
  Simple.scan_traces traces g = (g', rules) →
  Forall (fun r => ∃ var value,
            (var, value) ∈ traces ∧ r = (var, nonterminal var, value)) rules.
Proof.
  revert g g' rules.
  induction traces as [|[var value] traces IH]; intros g g' rules; simpl.
  - by intros [= <- <-].
  - destruct (Simple.scan_grammar var value g) as [g1 rs1] eqn:H1.
    destruct (Simple.scan_traces traces g1) as [g2 rs2] eqn:H2.
    intros [= <- <-]. apply Forall_app. split.
    + eapply Forall_impl; [by eapply scan_grammar_rules|].
      intros r ->. exists var, value. split; [left | done].
    + eapply Forall_impl; [by eapply IH|].
      intros r (var' & value' & Hin & ->). exists var', value'.
      split; [by right | done].
Qed.

Lemma scan_traces_refines traces g g' rules :
  Simple.scan_traces traces g = (g', rules) → refines (pending rules) g g'.
Proof.
  revert g g' rules.
  induction traces as [|[var value] traces IH]; intros g g' rules; simpl.
  - intros [= <- <-]. apply refines_refl.
  - destruct (Simple.scan_grammar var value g) as [g1 rs1] eqn:H1.
    destruct (Simple.scan_traces traces g1) as [g2 rs2] eqn:H2.
    intros [= <- <-]. eapply refines_trans.
    + eapply scan_grammar_refines; [exact H1|].
      intros Hne. apply pending_app. left.
      pose proof (scan_grammar_rules _ _ _ _ _ H1) as Hrs.
      destruct rs1 as [|r rs1]; [done|].
      apply Forall_cons in Hrs as [-> _]. exists var. left.
    + eapply refines_mono; [|by eapply IH].
      intros k alt Hp. apply pending_app. by right.
Qed.

Lemma scan_traces_nil traces g g' :
  Simple.scan_traces traces g = (g', []) →
  g' = g ∧ Forall (fun kv => no_match kv.2 g) traces.
Proof.
  revert g g'. induction traces as [|[var value] traces IH]; intros g g'; simpl.
  - intros [= <-]. split; [done | constructor].
  - destruct (Simple.scan_grammar var value g) as [g1 rs1] eqn:H1.
    destruct (Simple.scan_traces traces g1) as [g2 rs2] eqn:H2.
    intros [= <- [-> ->]%app_eq_nil].
    apply scan_grammar_nil in H1 as [-> Hv].
    destruct (IH _ _ H2) as [-> Ht]. split; [done | by constructor].
Qed.

Lemma scan_traces_keys traces g g' rules :
  Simple.scan_traces traces g = (g', rules) → dict_keys g' = dict_keys g.
Proof. intros H. eapply refines_keys, scan_traces_refines, H. Qed.
(** *** Adding the new rules *)

Lemma add_rules_length rules g traces g' traces' :
  Simple.add_rules rules g traces = Ok (g', traces') →
  length traces = length rules + length traces'.
Proof.
  revert g traces. induction rules as [|[[var k] v] rules IH]; intros g traces.
  - by intros [= <- <-].
  - simpl. destruct (dict_del traces var) as [traces1|e] eqn:Hdel; [|done].
    simpl. intros H%IH.
    apply dict_del_Ok in Hdel as (d1 & v' & d2 & -> & -> & _).
    rewrite length_app in *. simpl. lia.
Qed.

Lemma dict_del_keys (traces traces1 : dict string) var :
  dict_wf traces → dict_del traces var = Ok traces1 →
  dict_wf traces1 ∧ sublist traces1 traces ∧
  ∀ var', var' ∈ dict_keys traces1 ↔ var' ∈ dict_keys traces ∧ var' ≠ var.
Proof.
  intros Hwf (d1 & v & d2 & -> & -> & Hn)%dict_del_Ok.
  apply dict_wf_app_inv in Hwf as [Hwf Hnotin]. split_and!; [done| |].
  - apply sublist_app; [done|]. by apply sublist_cons.
  - intros var'. unfold dict_keys in *.
    rewrite !fmap_app, fmap_cons, !elem_of_app, elem_of_cons in *. simpl.
    split; [|naive_solver].
    intros H. split; [naive_solver|]. intros ->.
    apply Hnotin. by apply elem_of_app.
Qed.

Lemma add_rules_keys rules g traces g' traces' :
  dict_wf traces →
  Simple.add_rules rules g traces = Ok (g', traces') →
  dict_wf traces' ∧ sublist traces' traces ∧
  (∀ var, var ∈ dict_keys traces' ↔
          var ∈ dict_keys traces ∧ var ∉ rule_vars rules) ∧
  (∀ k, k ∈ dict_keys g' ↔ k ∈ dict_keys g ∨ k ∈ rule_keys rules).
Proof.
  unfold rule_vars, rule_keys.
  revert g traces. induction rules as [|[[var k] v] rules IH]; intros g traces Hwf.
  - intros [= <- <-]. split_and!; [done..| |].
    + intros var. rewrite fmap_nil, elem_of_nil. naive_solver.
    + intros k. rewrite fmap_nil, elem_of_nil. naive_solver.
  - simpl. destruct (dict_del traces var) as [traces1|e] eqn:Hdel; [|done].
    simpl. intros Hrec.
    destruct (dict_del_keys _ _ _ Hwf Hdel) as (Hwf1 & Hsub1 & Hkeys1).
    destruct (IH _ _ Hwf1 Hrec) as (Hwf' & Hsub' & Hvars & Hks).
    split_and!; [done|by etrans| |].
    + intros var'. rewrite Hvars, Hkeys1, elem_of_cons. simpl. naive_solver.
    + intros k'. rewrite Hks, dict_keys_set_elem, elem_of_cons. simpl.
      naive_solver.
Qed.

(** *** The loop *)

Lemma loop_total fuel g traces :
  length traces < fuel → is_Some (Simple.loop fuel g traces).
Proof.
  revert g traces. induction fuel as [|fuel IH]; intros g traces Hlt; [lia|].
  simpl. destruct (Simple.scan_traces traces g) as [g1 rules].
  destruct rules as [|r rules]; [eauto|].
  destruct (Simple.add_rules (r :: rules) g1 traces) as [[g2 traces']|e] eqn:Hadd;
    [|eauto].
  apply IH. apply add_rules_length in Hadd. simpl in Hadd. lia.
Qed.

Lemma loop_fuel fuel fuel' g traces r :
  Simple.loop fuel g traces = Some r → fuel ≤ fuel' →
  Simple.loop fuel' g traces = Some r.
Proof.
  revert fuel' g traces. induction fuel as [|fuel IH]; intros fuel' g traces;
    [done|].
  destruct fuel' as [|fuel']; [lia|]. simpl.
  destruct (Simple.scan_traces traces g) as [g1 rules].
  destruct rules as [|r0 rules]; [done|].
  destruct (Simple.add_rules (r0 :: rules) g1 traces) as [[g2 traces']|e];
    [|done].
  intros H ?. apply IH; [done|lia].
Qed.


Lemma get_grammar_loop tracer g tracer' :
  Simple.get_grammar START_SYMBOL tracer = Some (Ok (g, tracer')) →
  Tracer.inputstr tracer' = Tracer.inputstr tracer ∧
  Simple.loop (S (length (Tracer.the_values tracer)))
    [(START_SYMBOL, [Tracer.inputstr tracer])] (Tracer.the_values tracer)
  = Some (Ok (g, Tracer.the_values tracer')) ∧
  Tracer.oldtrace tracer' = Tracer.oldtrace tracer.
Proof.
  unfold Simple.get_grammar.
  destruct (Simple.loop _ _ _) as [[[g0 traces']|e]|]; [|done..].
  by intros [= <- <-].
Qed.

(** *** What the alternatives expand to *)

Lemma add_rules_sublist rules g traces g' traces' :
  Simple.add_rules rules g traces = Ok (g', traces') → sublist traces' traces.
Proof.
  revert g traces. induction rules as [|[[var k0] v] rules IH]; intros g traces.
  - by intros [= <- <-].
  - simpl. destruct (dict_del traces var) as [traces1|e] eqn:Hdel; [|done].
    simpl. intros Hrec%IH. etrans; [exact Hrec|].
    apply dict_del_Ok in Hdel as (d1 & v' & d2 & -> & -> & _).
    apply sublist_app; [done|]. by apply sublist_cons.
Qed.

End SimpleFacts.

(** ** The synthesizer of the stack miner *)

Section StackFacts.
Variable START_SYMBOL : string.
Implicit Types (g : dict (gset string)) (R : string → string → Prop).

Lemma rewrite_alternatives_fold value nt_var (l : list string)
    (X : gset string) (b : bool) :
  foldl (fun (acc : gset string * bool) repl =>
           if Str.contains value repl
           then ({[Str.replace value nt_var repl]} ∪ acc.1, true)
           else ({[repl]} ∪ acc.1, acc.2)) (X, b) l
  = (list_to_set (rewrite_one value nt_var <$> l) ∪ X,
     b || existsb (Str.contains value) l).
Proof.
  revert X b. induction l as [|a l IH]; intros X b; simpl.
  - f_equal; [set_solver | by rewrite orb_false_r].
  - pose proof (eq_refl (rewrite_one value nt_var a)) as Hone.
    unfold rewrite_one at 2 in Hone.
    destruct (Str.contains value a) eqn:Ha; rewrite IH, Hone; simpl.
    + f_equal; [set_solver | by rewrite orb_true_r].
    + f_equal. set_solver.
Qed.

Lemma rewrite_alternatives_spec value nt_var alts b :
  Stack.rewrite_alternatives value nt_var alts b
  = (set_map (rewrite_one value nt_var) alts,
     b || existsb (Str.contains value) (elements alts)).
Proof.
  unfold Stack.rewrite_alternatives. rewrite rewrite_alternatives_fold.
  f_equal. unfold set_map. set_solver.
Qed.

Lemma rewrite_alternatives_singleton value nt_var a b :
  Stack.rewrite_alternatives value nt_var {[a]} b
  = ({[rewrite_one value nt_var a]}, b || Str.contains value a).
Proof.
  rewrite rewrite_alternatives_spec, set_map_singleton_L, elements_singleton.
  simpl. by rewrite orb_false_r.
Qed.

Lemma rewrite_alternatives_unmatched value nt_var alts b :
  (∀ a, a ∈ alts → Str.contains value a = false) →
  Stack.rewrite_alternatives value nt_var alts b = (alts, b).
Proof.
  intros Hno. rewrite rewrite_alternatives_spec. f_equal.
  - apply set_eq. intros x. rewrite elem_of_map. split.
    + intros (y & -> & Hy). unfold rewrite_one. by rewrite (Hno y Hy).
    + intros Hx. exists x. unfold rewrite_one. by rewrite (Hno x Hx).
  - replace (existsb (Str.contains value) (elements alts)) with false;
      [by rewrite orb_false_r|].
    symmetry. apply not_true_is_false. intros (a & Ha & Hc)%existsb_exists.
    apply list_elem_of_In, elem_of_elements in Ha. rewrite (Hno a Ha) in Hc. done.
Qed.

Lemma rewrite_grammar_unmatched value nt_var g b :
  no_match_set value g → Stack.rewrite_grammar value nt_var g b = (g, b).
Proof.
  induction 1 as [|[key alts] g Ha _ IH]; simpl; [done|].
  rewrite rewrite_alternatives_unmatched by done. by rewrite IH.
Qed.

Lemma rewrite_grammar_append value nt_var g g' b b' :
  Stack.rewrite_grammar value nt_var g b = (g', b') → b = true → b' = true.
Proof.
  revert g' b b'. induction g as [|[key alts] g IH]; intros g' b b'; simpl.
  - by intros [= <- <-].
  - rewrite rewrite_alternatives_spec.
    destruct (Stack.rewrite_grammar value nt_var g _) as [rest' b2] eqn:Hrec.
    intros [= <- <-] ->. by eapply IH.
Qed.

Lemma rewrite_grammar_refines R value nt_var g g' b b' :
  singletons_set g →
  Stack.rewrite_grammar value nt_var g b = (g', b') →
  (b' = true → R nt_var value) →
  refines_set R g g'.
Proof.
  intros Hs. revert g' b b'.
  induction Hs as [|[key alts] g [a Ha] _ IH]; intros g' b b'; simpl.
  - intros [= <- <-] _. constructor.
  - simpl in Ha. subst alts. rewrite rewrite_alternatives_singleton.
    destruct (Stack.rewrite_grammar value nt_var g _) as [rest' b2] eqn:Hrec.
    intros [= <- <-] HR. constructor; [|by eapply IH].
    split; [done|]. exists a, (rewrite_one value nt_var a).
    split_and!; [done..|]. unfold rewrite_one.
    destruct (Str.contains value a) eqn:Hc; [|apply rtc_refl].
    apply replace_derives, HR.
    eapply rewrite_grammar_append; [done|]. by rewrite orb_true_r.
Qed.

Lemma refines_set_singletons R g g' : refines_set R g g' → singletons_set g'.
Proof.
  unfold singletons_set.
  induction 1 as [|e e' g g' [_ (a & a' & _ & Ha' & _)] _ IH];
    constructor; eauto.
Qed.

Lemma singletons_set_get g k alts :
  singletons_set g → dict_get g k = Some alts → ∃ a, alts = {[a]}.
Proof.
  intros Hs Hget%dict_get_Some_elem.
  unfold singletons_set in Hs. rewrite Forall_forall in Hs.
  apply (Hs _ Hget).
Qed.

End StackFacts.

(** ** What synthesis does to the observations *)

Section SimpleEffect.
Implicit Types (g : grammar) (traces : dict string) (rules : list Simple.rule).

Lemma sublist_keys traces traces' var :
  sublist traces' traces → var ∈ dict_keys traces' → var ∈ dict_keys traces.
Proof.
  unfold dict_keys. intros Hsub ((k & v) & -> & Hin)%list_elem_of_fmap.
  apply list_elem_of_fmap. exists (k, v). split; [done|].
  by eapply elem_of_sublist.
Qed.

Lemma scan_traces_rule_keys traces g g' rules k :
  Simple.scan_traces traces g = (g', rules) →
  (k ∈ rule_keys rules ↔ ∃ var, var ∈ rule_vars rules ∧ k = nonterminal var).
Proof.
  intros Hrs%scan_traces_rules. unfold rule_keys, rule_vars.
  rewrite Forall_forall in Hrs. split.
  - intros (r & -> & Hin)%list_elem_of_fmap.
    destruct (Hrs r Hin) as (var & value & _ & ->). exists var.
    split; [|done]. apply list_elem_of_fmap. by exists (var, nonterminal var, value).
  - intros (var & (r & -> & Hin)%list_elem_of_fmap & ->).
    destruct (Hrs r Hin) as (var & value & _ & ->).
    apply list_elem_of_fmap. by exists (var, nonterminal var, value).
Qed.

Lemma loop_effect fuel g traces g' traces' :
  dict_wf traces →
  Simple.loop fuel g traces = Some (Ok (g', traces')) →
  dict_wf traces' ∧ sublist traces' traces ∧
  (∀ k, k ∈ dict_keys g' ↔
        k ∈ dict_keys g ∨
        (∃ var, var ∈ dict_keys traces ∧ (var ∉ dict_keys traces') ∧
                k = nonterminal var)) ∧
  Forall (fun kv => no_match kv.2 g') traces'.
Proof.
  revert g traces. induction fuel as [|fuel IH]; intros g traces Hwf; [done|].
  simpl. destruct (Simple.scan_traces traces g) as [g1 rules] eqn:Hscan.
  destruct rules as [|r rules].
  - intros [= <- <-]. apply scan_traces_nil in Hscan as [-> Hno].
    split_and!; [done..| |done]. naive_solver.
  - destruct (Simple.add_rules (r :: rules) g1 traces) as [[g2 traces2]|e]
      eqn:Hadd; [|done].
    intros Hloop.
    destruct (add_rules_keys _ _ _ _ _ Hwf Hadd) as (Hwf2 & Hsub2 & Hvars & Hks).
    destruct (IH _ _ Hwf2 Hloop) as (Hwf' & Hsub' & Hkeys & Hno).
    split_and!; [done|by etrans| |done].
    intros k. rewrite Hkeys, Hks, (scan_traces_keys _ _ _ _ Hscan).
    rewrite (scan_traces_rule_keys _ _ _ _ k Hscan). split.
    + intros [[Hk | (var & Hv & ->)] | (var & Hin & Hnotin & ->)]; [auto|..].
      * right. exists var. split_and!; [|  |done].
        -- destruct (decide (var ∈ dict_keys traces)) as [|Hn]; [done|].
           apply scan_traces_rules in Hscan. rewrite Forall_forall in Hscan.
           unfold rule_vars in Hv.
           apply list_elem_of_fmap in Hv as (r0 & -> & Hr0).
           destruct (Hscan _ Hr0) as (var & value & Hin & ->). simpl in *.
           exfalso. apply Hn. unfold dict_keys.
           apply list_elem_of_fmap. by exists (var, value).
        -- intros Hin'. apply (sublist_keys _ _ _ Hsub'), Hvars in Hin'.
           by destruct Hin'.
      * right. exists var. split_and!; [|done..]. by apply Hvars in Hin as [].
    + intros [Hk | (var & Hin & Hnotin & ->)]; [auto|].
      destruct (decide (var ∈ dict_keys traces2)) as [Hin2|Hn2].
      * right. eauto.
      * left. right. exists var. split; [|done].
        destruct (decide (var ∈ rule_vars (r :: rules))) as [|Hnr]; [done|].
        exfalso. apply Hn2, Hvars. done.
Qed.

Lemma no_match_unmatched value g : no_match value g → unmatched value g.
Proof.
  intros Hno key alts repl Hget%dict_get_Some_elem Hin.
  unfold no_match in Hno. rewrite Forall_forall in Hno.
  specialize (Hno _ Hget). simpl in Hno. rewrite Forall_forall in Hno.
  apply Hno. unfold as_set, list_alternatives in Hin. set_solver.
Qed.

(** *** Leaving out an observation that is never matched *)

Lemma without_length {V} var (d : dict V) : length (without var d) ≤ length d.
Proof. apply length_filter. Qed.

Lemma dict_del_without traces traces1 var var' :
  var' ≠ var → dict_del traces var' = Ok traces1 →
  dict_del (without var traces) var' = Ok (without var traces1).
Proof.
  intros Hne. unfold without. revert traces1.
  induction traces as [|[k v] traces IH]; intros traces1 Hdel; [done|].
  simpl in Hdel. rewrite filter_cons.
  destruct (decide (k = var')) as [->|Hk].
  - injection Hdel as <-. rewrite decide_True by done. simpl.
    by rewrite decide_True.
  - destruct (dict_del traces var') as [t1|e] eqn:Hdel1; [|done].
    simpl in Hdel. injection Hdel as <-. rewrite filter_cons.
    destruct (decide ((k, v).1 ≠ var)); simpl.
    + rewrite decide_False by done. by rewrite (IH _ eq_refl).
    + by apply IH.
Qed.

Lemma add_rules_without var rules g traces g' traces' :
  var ∉ rule_vars rules →
  Simple.add_rules rules g traces = Ok (g', traces') →
  Simple.add_rules rules g (without var traces) = Ok (g', without var traces').
Proof.
  unfold rule_vars. revert g traces.
  induction rules as [|[[var0 k] v] rules IH]; intros g traces Hn; simpl.
  - by intros [= <- <-].
  - rewrite fmap_cons in Hn. apply not_elem_of_cons in Hn as [Hne Hn].
    simpl in Hne.
    destruct (dict_del traces var0) as [traces1|e] eqn:Hdel; [|done].
    rewrite (dict_del_without _ _ var var0 (not_eq_sym Hne) Hdel). simpl.
    by apply IH.
Qed.

Lemma scan_traces_without var traces g g' rules :
  var ∉ rule_vars rules →
  Simple.scan_traces traces g = (g', rules) →
  Simple.scan_traces (without var traces) g = (g', rules).
Proof.
  unfold rule_vars, without. revert g g' rules.
  induction traces as [|[var' value'] traces IH]; intros g g' rules Hn Hscan;
    [done|].
  simpl in Hscan.
  destruct (Simple.scan_grammar var' value' g) as [g1 rs1] eqn:H1.
  destruct (Simple.scan_traces traces g1) as [g2 rs2] eqn:H2.
  injection Hscan as <- <-. rewrite fmap_app, not_elem_of_app in Hn.
  destruct Hn as [Hn1 Hn2]. rewrite filter_cons.
  destruct (decide ((var', value').1 ≠ var)) as [Hne|Heq]; simpl.
  - rewrite H1. by rewrite (IH _ _ _ Hn2 H2).
  - apply dec_stable in Heq. simpl in Heq. subst var'.
    pose proof (scan_grammar_rules _ _ _ _ _ H1) as Hrs.
    destruct rs1 as [|r rs1].
    + apply scan_grammar_nil in H1 as [-> _]. simpl. by apply IH.
    + apply Forall_cons in Hrs as [-> _]. exfalso. apply Hn1. left.
Qed.

Lemma loop_without var fuel g traces g' traces' :
  dict_wf traces →
  Simple.loop fuel g traces = Some (Ok (g', traces')) →
  var ∈ dict_keys traces' →
  Simple.loop fuel g (without var traces) = Some (Ok (g', without var traces')).
Proof.
  revert g traces. induction fuel as [|fuel IH]; intros g traces Hwf; [done|].
  simpl. destruct (Simple.scan_traces traces g) as [g1 rules] eqn:Hscan.
  destruct rules as [|r rules].
  - intros [= <- <-] _. 
    by rewrite (scan_traces_without var traces g g1 [] (not_elem_of_nil _) Hscan).
  - destruct (Simple.add_rules (r :: rules) g1 traces) as [[g2 traces2]|e]
      eqn:Hadd; [|done].
    intros Hloop Hin.
    destruct (add_rules_keys _ _ _ _ _ Hwf Hadd) as (Hwf2 & Hsub2 & Hvars & _).
    destruct (loop_effect _ _ _ _ _ Hwf2 Hloop) as (_ & Hsub' & _).
    assert (var ∉ rule_vars (r :: rules)) as Hn.
    { by apply (sublist_keys _ _ _ Hsub'), Hvars in Hin as []. }
    rewrite (scan_traces_without var _ _ _ _ Hn Hscan).
    rewrite (add_rules_without var _ _ _ _ _ Hn Hadd). by apply IH.
Qed.

End SimpleEffect.

(** ** Synthesis and the sample *)

Section Generates.
Context {C : Type} `{!Alternatives C}.

Lemma expansion_generates fuel (g : dict C) syms t :
  expansion fuel g syms = Some t →
  generates_symbols g syms t ∧ ∀ t', generates_symbols g syms t' → t' = t.
Proof.
  revert syms t. induction fuel as [|fuel IH]; [done|].
  induction syms as [|[c|k] rest IHrest]; intros t; simpl.
  - intros [= <-]. split; [constructor|]. intros t' Ht'. by inversion Ht'.
  - change ((fix go (syms : list symbol) : option string := _) rest)
      with (expansion (S fuel) g rest).
    destruct (expansion (S fuel) g rest) as [t2|] eqn:Hrest; [|done].
    intros [= <-]. destruct (IHrest _ eq_refl) as [Hgen Huniq].
    split; [by constructor|].
    intros t' Ht'. inversion Ht'; subst. f_equal. by apply Huniq.
  - change ((fix go (syms : list symbol) : option string := _) rest)
      with (expansion (S fuel) g rest).
    destruct (elements (alternatives_of g k)) as [|alt [|]] eqn:Helems;
      [done| |done].
    destruct (expansion fuel g (symbols alt)) as [t1|] eqn:Halt; [|done].
    destruct (expansion (S fuel) g rest) as [t2|] eqn:Hrest; simpl; [|done].
    intros [= <-].
    destruct (IH _ _ Halt) as [Hgen1 Huniq1].
    destruct (IHrest _ eq_refl) as [Hgen2 Huniq2].
    split.
    + econstructor; [|done..]. apply elem_of_elements. rewrite Helems. left.
    + intros t' Ht'. inversion Ht' as [| |k' alt' syms' t1' t2' Hin H1 H2]; subst.
      apply elem_of_elements in Hin. rewrite Helems in Hin.
      apply list_elem_of_singleton in Hin as ->.
      f_equal; [by apply Huniq1|by apply Huniq2].
Qed.

Lemma expansion_exactly fuel (g : dict C) k t :
  expansion fuel g [Nonterminal k] = Some t →
  ∀ t', generates g k t' ↔ t' = t.
Proof.
  intros [Hgen Huniq]%expansion_generates t'. split; [apply Huniq|].
  by intros ->.
Qed.

End Generates.

(** C1. [get_grammar] replaces a value wherever it finds its characters in
    an alternative, also inside the name of a nonterminal that an earlier
    replacement has put there. For the sample [http://url/x] and the
    variables [url], observed with the sample, and [netloc], observed with
    [url] (two names with nonterminals of their own), the simple
    [get_grammar] returns a grammar whose start symbol derives [<url>] and
    nothing else, not the sample. For the trace of
    [urlparse("http://url/x")], whose call of [urlsplit] finds the host
    [url], the stack [get_grammar] returns a grammar whose start symbol
    derives [<urlparse:url>] and nothing else. And for the variables [A]
    and [a], which share the nonterminal [<a>], the start symbol derives
    [defdef] and not the sample [abcdef]. *)
Theorem get_grammar_loses_sample :
  (distinct_nonterminals the_start_symbol
     (dict_keys (Tracer.the_values name_tracer)) ∧
   Simple.get_grammar the_start_symbol name_tracer
   = Some (Ok ([("<start>", ["<<netloc>>"]); ("<url>", ["http://url/x"]);
                ("<netloc>", ["url"])],
               Tracer.Make "http://url/x" [] None)) ∧
   (∀ t, generates [("<start>", ["<<netloc>>"]); ("<url>", ["http://url/x"]);
                    ("<netloc>", ["url"])] the_start_symbol t ↔ t = "<url>")) ∧
  (∃ tracer : StackTracer.t,
     StackTracer.run (P := plain) urlparse_events
       (StackTracer.init the_start_symbol "http://url/x") = Ok tracer ∧
     StackTracer.defs tracer
     = [("<start>", "http://url/x"); ("urlparse:url", "http://url/x");
        ("urlsplit:url", "http://url/x"); ("urlsplit:netloc", "url")] ∧
     NoDup (nt_var_of the_start_symbol <$> dict_keys (StackTracer.defs tracer)) ∧
     Stack.get_grammar the_start_symbol (StackTracer.defs tracer)
     = [("<start>", {["<<urlsplit:netloc>parse:<urlsplit:netloc>>"]});
        ("<urlparse:url>", {["<<urlsplit:netloc>split:<urlsplit:netloc>>"]});
        ("<urlsplit:url>", {["http://<urlsplit:netloc>/x"]});
        ("<urlsplit:netloc>", {["url"]})] ∧
     ∀ t, generates (Stack.get_grammar the_start_symbol (StackTracer.defs tracer))
            the_start_symbol t ↔ t = "<urlparse:url>") ∧
  (Simple.get_grammar the_start_symbol collision_tracer
   = Some (Ok ([("<start>", ["<a><a>"]); ("<a>", ["def"])],
               Tracer.Make "abcdef" [] None)) ∧
   (∀ t, generates [("<start>", ["<a><a>"]); ("<a>", ["def"])]
           the_start_symbol t ↔ t = "defdef")).
Proof.
  split_and!.
  - unfold distinct_nonterminals. compute_done.
  - reflexivity.
  - by apply (expansion_exactly 3).
  - eexists. split; [reflexivity|]. split; [reflexivity|].
    split; [compute_done|]. split; [by vm_compute|].
    by apply (expansion_exactly 3).
  - reflexivity.
  - by apply (expansion_exactly 3).
Qed.

(** ** The simple synthesizer can fail *)

(** C2: on the sample ["abcdabce"] with the observations [x = "abcd"],
    [y = "abce"], [z = "abc"], the second round finds the value of [z] in
    the alternatives of both [<x>] and [<y>], so [new_rules] lists [z]
    twice and the second [del traces[var]] raises [KeyError]: no grammar is
    returned. *)
Theorem get_grammar_raises_KeyError :
  Simple.get_grammar the_start_symbol
    {| Tracer.inputstr := "abcdabce";
       Tracer.the_values := [("x", "abcd"); ("y", "abce"); ("z", "abc")];
       Tracer.oldtrace := None |}
  = Some (Raise (KeyError "z")).
Proof. vm_compute. reflexivity. Qed.

Section StackDrop.
Variable START_SYMBOL : string.
Implicit Types g : dict (gset string).

Lemma assign_unmatched g var value :
  g ≠ [] → no_match_set value g →
  Stack.assign START_SYMBOL g (var, value) = g.
Proof.
  intros Hne Hno. unfold Stack.assign. destruct g as [|e g0] eqn:Hg; [done|].
  rewrite <-Hg in *. by rewrite rewrite_grammar_unmatched.
Qed.

Lemma rewrite_grammar_length value nt_var g g' b b' :
  Stack.rewrite_grammar value nt_var g b = (g', b') → length g' = length g.
Proof.
  revert g' b b'. induction g as [|[key alts] g IH]; intros g' b b'; simpl.
  - by intros [= <- <-].
  - destruct (Stack.rewrite_alternatives _ _ _ _) as [alt b1].
    destruct (Stack.rewrite_grammar value nt_var g b1) as [rest' b2] eqn:Hrec.
    intros [= <- <-]. simpl. f_equal. by eapply IH.
Qed.

Lemma assign_nonempty g assignment :
  Stack.assign START_SYMBOL g assignment ≠ [].
Proof.
  destruct assignment as [var value]. unfold Stack.assign.
  destruct g as [|e g0] eqn:Hg; [done|]. rewrite <-Hg.
  destruct (Stack.rewrite_grammar _ _ g false) as [g1 append] eqn:Hrw.
  apply rewrite_grammar_length in Hrw. rewrite Hg in Hrw.
  destruct g1 as [|[k1 v1] g1]; [done|].
  destruct append; [|done]. simpl. by case_decide.
Qed.

Lemma get_grammar_nonempty (pre : dict string) :
  pre ≠ [] → Stack.get_grammar START_SYMBOL pre ≠ [].
Proof.
  unfold Stack.get_grammar. destruct pre as [|a pre _] using rev_ind; [done|].
  intros _. rewrite foldl_app. simpl. apply assign_nonempty.
Qed.

Lemma get_grammar_drop (pre post : dict string) var value :
  pre ≠ [] → no_match_set value (Stack.get_grammar START_SYMBOL pre) →
  Stack.get_grammar START_SYMBOL (pre ++ (var, value) :: post) =
  Stack.get_grammar START_SYMBOL (pre ++ post).
Proof.
  intros Hne Hno. unfold Stack.get_grammar in *. rewrite !foldl_app.
  cbn [foldl].
  rewrite assign_unmatched; [done| |done]. by apply get_grammar_nonempty.
Qed.

Lemma rewrite_grammar_keys value nt_var g b :
  dict_keys (Stack.rewrite_grammar value nt_var g b).1 = dict_keys g.
Proof.
  unfold dict_keys. revert b. induction g as [|[key alts] g IH]; intros b; simpl;
    [done|].
  destruct (Stack.rewrite_alternatives _ _ _ _) as [alt b1].
  specialize (IH b1).
  destruct (Stack.rewrite_grammar value nt_var g b1) as [rest' b2].
  simpl in *. f_equal. exact IH.
Qed.

Lemma assign_keys g var value k :
  k ∈ dict_keys (Stack.assign START_SYMBOL g (var, value)) →
  k ∈ dict_keys g ∨ k = nt_var_of START_SYMBOL var.
Proof.
  unfold Stack.assign, nt_var_of. destruct g as [|e g0] eqn:Hg.
  - simpl. intros ->%list_elem_of_singleton. by right.
  - rewrite <-Hg.
    pose proof (rewrite_grammar_keys value
                  (if decide (var = START_SYMBOL) then var else nonterminal var)
                  g false) as Hkeys.
    destruct (Stack.rewrite_grammar _ _ g false) as [g1 append].
    simpl in Hkeys. destruct append.
    + rewrite dict_keys_set_elem, Hkeys. naive_solver.
    + rewrite Hkeys. by left.
Qed.

Lemma get_grammar_keys (assignments : dict string) k :
  k ∈ dict_keys (Stack.get_grammar START_SYMBOL assignments) →
  k ∈ nt_var_of START_SYMBOL <$> dict_keys assignments.
Proof.
  unfold Stack.get_grammar.
  induction assignments as [|[var value] assignments IH] using rev_ind.
  - simpl. by intros ?%elem_of_nil.
  - rewrite foldl_app. cbn [foldl]. unfold dict_keys at 2.
    rewrite !fmap_app, elem_of_app. simpl.
    intros [Hk| ->]%assign_keys.
    + left. by apply IH.
    + right. apply list_elem_of_singleton. done.
Qed.

End StackDrop.

(** ** Unmatched observations *)

(** C8. An observation whose value occurs in no alternative is dropped
    silently. In the simple miner, a scan over the grammar for such a value
    changes nothing and yields no new rule; an observation still in
    [the_values] when [get_grammar] returns occurs in no alternative of the
    result, and the call returns the very grammar it returns when the
    observation is left out from the start. In the stack miner, which
    cannot raise, an assignment whose value occurs in no alternative leaves
    the grammar as it is, and [get_grammar] returns the grammar it returns
    without that assignment. So nothing in the resulting grammar comes from
    the observation; in particular the grammar has no rule for its
    nonterminal, unless another variable gives the same nonterminal. *)
Theorem unmatched_observation_dropped :
  (∀ var value (g : grammar),
     no_match value g → Simple.scan_grammar var value g = (g, [])) ∧
  (∀ START_SYMBOL tracer g tracer' var value,
     dict_wf (Tracer.the_values tracer) →
     Simple.get_grammar START_SYMBOL tracer = Some (Ok (g, tracer')) →
     (var, value) ∈ Tracer.the_values tracer' →
     (var, value) ∈ Tracer.the_values tracer ∧
     unmatched value g ∧
     Simple.get_grammar START_SYMBOL (forget var tracer)
     = Some (Ok (g, forget var tracer')) ∧
     (nonterminal var ≠ START_SYMBOL →
      (∀ var', var' ∈ dict_keys (Tracer.the_values tracer) →
               nonterminal var' = nonterminal var → var' = var) →
      dict_get g (nonterminal var) = None)) ∧
  (∀ START_SYMBOL (g : dict (gset string)) var value,
     g ≠ [] → no_match_set value g →
     Stack.assign START_SYMBOL g (var, value) = g) ∧
  (∀ START_SYMBOL (pre post : dict string) var value,
     pre ≠ [] → no_match_set value (Stack.get_grammar START_SYMBOL pre) →
     Stack.get_grammar START_SYMBOL (pre ++ (var, value) :: post) =
     Stack.get_grammar START_SYMBOL (pre ++ post) ∧
     ((nt_var_of START_SYMBOL var ∉
         nt_var_of START_SYMBOL <$> dict_keys (pre ++ post)) →
      dict_get (Stack.get_grammar START_SYMBOL (pre ++ (var, value) :: post))
        (nt_var_of START_SYMBOL var) = None)).
Proof.
  split_and!.
  - intros var value g. apply scan_grammar_unmatched.
  - intros START tracer g tracer' var value Hwf Hget Hin.
    destruct (get_grammar_loop _ _ _ _ Hget) as (Hinput & Hloop & Hold).
    destruct (loop_effect _ _ _ _ _ Hwf Hloop) as (_ & Hsub & Hkeys & Hno).
    split_and!.
    + by eapply elem_of_sublist.
    + rewrite Forall_forall in Hno. by apply no_match_unmatched, (Hno (var, value)).
    + assert (var ∈ dict_keys (Tracer.the_values tracer')) as Hkey.
      { unfold dict_keys. apply list_elem_of_fmap. by exists (var, value). }
      pose proof (loop_without var _ _ _ _ _ Hwf Hloop Hkey) as Hloop'.
      destruct (loop_total
                  (S (length (without var (Tracer.the_values tracer))))
                  [(START, [Tracer.inputstr tracer])]
                  (without var (Tracer.the_values tracer))) as [r Hr]; [lia|].
      pose proof (loop_fuel _ (S (length (Tracer.the_values tracer))) _ _ _ Hr)
        as Hr'.
      rewrite Hloop' in Hr'.
      assert (r = Ok (g, without var (Tracer.the_values tracer'))) as ->.
      { pose proof (without_length var (Tracer.the_values tracer)).
        symmetry. injection Hr' as ->; [done | lia]. }
      unfold Simple.get_grammar, forget.
      cbn [Tracer.the_values Tracer.inputstr Tracer.oldtrace].
      rewrite Hr. by rewrite Hinput, Hold.
    + intros Hstart Hothers. apply dict_get_None. rewrite Hkeys.
      intros [Hst%list_elem_of_singleton|(var' & Hin' & Hnotin & Heq)]; [done|].
      symmetry in Heq. apply Hothers in Heq; [|done]. subst var'.
      apply Hnotin. unfold dict_keys. apply list_elem_of_fmap.
      by exists (var, value).
  - intros START g var value. apply assign_unmatched.
  - intros START pre post var value Hne Hno.
    rewrite get_grammar_drop by done. split; [done|].
    intros Hfresh. apply dict_get_None. intros Hin. apply Hfresh.
    by apply get_grammar_keys.
Qed.

Lemma unmatched_observation_dropped_witness :
  Simple.scan_grammar "q" "cde" straddling_grammar = (straddling_grammar, []) ∧
  (unmatched "cde" straddling_grammar ∧
   Simple.get_grammar the_start_symbol (forget "q" straddling_tracer)
   = Some (Ok (straddling_grammar, forget "q" straddling_tracer_after)) ∧
   dict_get straddling_grammar "<q>" = None) ∧
  Stack.assign the_start_symbol
    [("<start>", {["<f:x>def"]}); ("<f:x>", {["abc"]})] ("f:q", "cde")
  = [("<start>", {["<f:x>def"]}); ("<f:x>", {["abc"]})] ∧
  Stack.get_grammar the_start_symbol
    ([("<start>", "abcdef"); ("f:x", "abc")] ++ ("f:q", "cde") :: [("f:y", "ef")])
  = Stack.get_grammar the_start_symbol
      ([("<start>", "abcdef"); ("f:x", "abc")] ++ [("f:y", "ef")]).
Proof.
  destruct unmatched_observation_dropped as (Hscan & Hrun & Hassign & Hdrop).
  split_and!.
  - apply Hscan. unfold no_match. compute_done.
  - apply (Hrun the_start_symbol straddling_tracer straddling_grammar
             straddling_tracer_after "q" "cde").
    + unfold dict_wf. compute_done.
    + compute_done.
    + compute_done.
  - apply (Hrun the_start_symbol straddling_tracer straddling_grammar
             straddling_tracer_after "q" "cde").
    + unfold dict_wf. compute_done.
    + compute_done.
    + compute_done.
  - refine (proj2 (proj2 (proj2 (Hrun the_start_symbol straddling_tracer
             straddling_grammar straddling_tracer_after "q" "cde" _ _ _))) _ _).
    + unfold dict_wf. compute_done.
    + compute_done.
    + compute_done.
    + discriminate.
    + intros var' Hin Heq. unfold straddling_tracer in Hin. simpl in Hin.
      apply elem_of_cons in Hin as [->|Hin]; [discriminate|].
      by apply list_elem_of_singleton in Hin.
  - apply Hassign; [done|]. unfold no_match_set. compute_done.
  - apply Hdrop; [done|]. unfold no_match_set. compute_done.
Defined.

(** ** Synthesis consumes the observations *)

Section Deleted.
Variable START_SYMBOL : string.





End Deleted.



(** ** Merging *)

Section DictFold.
Context {V : Type}.
Implicit Types (d : dict V) (F : string → V).

Lemma dict_set_same d k v : dict_get d k = Some v → dict_set d k v = d.
Proof.
  induction d as [|[k' v'] d IH]; simpl; [done|].
  case_decide; subst.
  - by intros [= ->].
  - intros H'. f_equal. auto.
Qed.

Lemma foldl_set_get F d keys k :
  dict_get (foldl (fun m key => dict_set m key (F key)) d keys) k =
  if decide (k ∈ keys) then Some (F k) else dict_get d k.
Proof.
  revert d. induction keys as [|key keys IH]; intros d; cbn [foldl].
  - rewrite decide_False; [done | apply not_elem_of_nil].
  - rewrite IH. destruct (decide (k ∈ keys)) as [Hin|Hn].
    + rewrite decide_True; [done | by right].
    + destruct (decide (key = k)) as [->|Hne].
      * rewrite decide_True by left. apply dict_get_set_eq.
      * rewrite decide_False.
        -- by apply dict_get_set_ne.
        -- intros [?|?]%elem_of_cons; congruence.
Qed.

Lemma foldl_set_fresh F d keys :
  NoDup keys → (∀ k, k ∈ keys → k ∉ dict_keys d) →
  foldl (fun m key => dict_set m key (F key)) d keys =
  d ++ ((fun k => (k, F k)) <$> keys).
Proof.
  intros Hnd. revert d. induction Hnd as [|key keys Hkey Hnd IH]; intros d Hd.
  - simpl. by rewrite app_nil_r.
  - simpl. rewrite dict_set_fresh by (apply Hd; left).
    rewrite IH.
    + by rewrite <-(assoc_L (++)).
    + intros k Hk. unfold dict_keys. rewrite fmap_app, not_elem_of_app.
      split; [apply Hd; by right|]. simpl.
      intros ->%list_elem_of_singleton. done.
Qed.

Lemma foldl_set_again F d keys :
  (∀ k, k ∈ keys → dict_get d k = Some (F k)) →
  foldl (fun m key => dict_set m key (F key)) d keys = d.
Proof.
  induction keys as [|key keys IH]; intros Hd; simpl; [done|].
  rewrite dict_set_same by (apply Hd; left). apply IH.
  intros k Hk. apply Hd. by right.
Qed.

End DictFold.

Section MergeFacts.
Variable list_of_set : gset string → list string.
Hypothesis list_of_set_perm : ∀ X, list_of_set X ≡ₚ elements X.

Lemma list_of_set_NoDup X : NoDup (list_of_set X).
Proof. rewrite list_of_set_perm. apply NoDup_elements. Qed.

Lemma list_of_set_elem X a : a ∈ list_of_set X ↔ a ∈ X.
Proof. rewrite list_of_set_perm. apply elem_of_elements. Qed.

Lemma list_of_set_empty : list_of_set ∅ = [].
Proof.
  apply Permutation_nil_r. rewrite list_of_set_perm. by rewrite elements_empty.
Qed.

Lemma list_of_set_singleton a : list_of_set {[a]} = [a].
Proof.
  apply Permutation_singleton_r. rewrite list_of_set_perm.
  by rewrite elements_singleton.
Qed.

Lemma merge_grammars_get {C1 C2 : Type} `{!Alternatives C1, !Alternatives C2}
    (g1 : dict C1) (g2 : dict C2) key :
  dict_get (merge_grammars list_of_set g1 g2) key =
  if decide (key ∈ dict_keys g1 ++ dict_keys g2)
  then Some (list_of_set (alternatives_of g1 key ∪ alternatives_of g2 key))
  else None.
Proof.
  unfold merge_grammars.
  by rewrite (foldl_set_get
    (fun key => list_of_set (alternatives_of g1 key ∪ alternatives_of g2 key))).
Qed.

(** C3. For a nonterminal of either grammar, [merge_grammars] holds a list
    without repetitions whose elements are exactly the alternatives that
    [g1] or [g2] has for it, a grammar without the nonterminal contributing
    none; so every alternative of either grammar is in the merged grammar.
    Other nonterminals are not in the merged grammar. *)
Theorem merge_grammars_union {C1 C2 : Type}
    `{!Alternatives C1, !Alternatives C2} (g1 : dict C1) (g2 : dict C2) key :
  (key ∈ dict_keys g1 ∨ key ∈ dict_keys g2 →
   ∃ alts,
     dict_get (merge_grammars list_of_set g1 g2) key = Some alts ∧
     NoDup alts ∧
     list_to_set alts = alternatives_of g1 key ∪ alternatives_of g2 key ∧
     (∀ c a, dict_get g1 key = Some c → a ∈ as_set c → a ∈ alts) ∧
     (∀ c a, dict_get g2 key = Some c → a ∈ as_set c → a ∈ alts)) ∧
  ((key ∉ dict_keys g1) ∧ (key ∉ dict_keys g2) →
   dict_get (merge_grammars list_of_set g1 g2) key = None).
Proof.
  rewrite merge_grammars_get. split.
  - intros Hin. rewrite decide_True by by apply elem_of_app.
    eexists. split; [done|]. split_and!.
    + apply list_of_set_NoDup.
    + apply set_eq. intros a. by rewrite elem_of_list_to_set, list_of_set_elem.
    + intros c a Hget Ha. apply list_of_set_elem. unfold alternatives_of at 1.
      rewrite Hget. set_solver.
    + intros c a Hget Ha. apply list_of_set_elem. unfold alternatives_of at 2.
      rewrite Hget. set_solver.
  - intros [H1 H2]. rewrite decide_False; [done|].
    by intros [?|?]%elem_of_app.
Qed.

Lemma alternatives_of_get {C : Type} `{!Alternatives C} (g : dict C) key c :
  dict_get g key = Some c → alternatives_of g key = as_set c.
Proof. unfold alternatives_of. by intros ->. Qed.

Lemma merge_grammars_self_eq {C : Type} `{!Alternatives C} (g : dict C) :
  dict_wf g →
  merge_grammars list_of_set g g =
  (fun k => (k, list_of_set (alternatives_of g k))) <$> dict_keys g.
Proof.
  intros Hwf. unfold merge_grammars. rewrite foldl_app.
  set (F := fun key => list_of_set (alternatives_of g key ∪ alternatives_of g key)).
  change (foldl (fun m key => dict_set m key (F key))
            (foldl (fun m key => dict_set m key (F key)) [] (dict_keys g))
            (dict_keys g) = (fun k => (k, list_of_set (alternatives_of g k))) <$> dict_keys g).
  rewrite (foldl_set_fresh F [] (dict_keys g) Hwf);
    [|intros; apply not_elem_of_nil].
  rewrite foldl_set_again.
  - simpl. apply list_fmap_ext. intros _ k _. unfold F. f_equal. f_equal.
    set_solver.
  - intros k Hk. simpl.
    pose proof (foldl_set_get F [] (dict_keys g) k) as Hget.
    rewrite (foldl_set_fresh F [] (dict_keys g) Hwf) in Hget;
      [|intros; apply not_elem_of_nil].
    simpl in Hget. rewrite Hget. by rewrite decide_True.
Qed.

(** The grammar merged with itself, entry by entry. *)
Lemma merge_grammars_self_entries {C : Type} `{!Alternatives C} (g : dict C) :
  dict_wf g →
  merge_grammars list_of_set g g =
  (fun e => (e.1, list_of_set (as_set e.2))) <$> g.
Proof.
  intros Hwf. rewrite merge_grammars_self_eq by done.
  unfold dict_wf, dict_keys in *. clear -Hwf.
  induction g as [|[k c] g' IH]; [done|].
  rewrite fmap_cons in Hwf. apply NoDup_cons in Hwf as [Hk Hwf].
  rewrite !fmap_cons. simpl. f_equal.
  - f_equal. unfold alternatives_of. simpl. by rewrite decide_True.
  - rewrite <-(IH Hwf). apply list_fmap_ext. intros i k' Hk'. f_equal. f_equal.
    unfold alternatives_of. simpl. rewrite decide_False; [done|].
    intros ->. apply Hk. by eapply list_elem_of_lookup_2.
Qed.

(** C4 (amended). Merging a grammar with itself keeps its nonterminals, in
    their order, and gives each of them a list without repetitions of the
    same alternatives, whether the grammar holds its alternatives in lists
    or in sets. When no nonterminal has more than one alternative, a
    grammar with lists of alternatives (as the simple [get_grammar]
    returns) comes back as it is, and a grammar with sets of alternatives
    (as the stack [get_grammar] returns) comes back with every set turned
    into the list of its elements. *)
Theorem merge_grammars_self :
  (∀ (C : Type) (A : Alternatives C) (g : dict C),
     dict_wf g →
     dict_keys (merge_grammars list_of_set g g) = dict_keys g ∧
     ∀ key c,
       dict_get g key = Some c →
       ∃ alts',
         dict_get (merge_grammars list_of_set g g) key = Some alts' ∧
         NoDup alts' ∧ ∀ a, a ∈ alts' ↔ a ∈ as_set c) ∧
  (∀ g : grammar,
     dict_wf g →
     (∀ key alts, dict_get g key = Some alts → length alts ≤ 1) →
     merge_grammars list_of_set g g = g) ∧
  (∀ g : dict (gset string),
     dict_wf g →
     (∀ key alts, dict_get g key = Some alts → size alts ≤ 1) →
     merge_grammars list_of_set g g = (fun e => (e.1, elements e.2)) <$> g).
Proof.
  split_and!.
  - intros C A g Hwf. split.
    + rewrite merge_grammars_self_eq by done. unfold dict_keys.
      rewrite <-list_fmap_compose. by rewrite list_fmap_id.
    + intros key c Hget. rewrite merge_grammars_get.
      rewrite decide_True
        by (apply elem_of_app; left; by eapply dict_get_Some_keys).
      eexists. split; [done|]. split; [apply list_of_set_NoDup|].
      intros a. rewrite list_of_set_elem, (alternatives_of_get _ _ _ Hget).
      set_solver.
  - intros g Hwf Hone. rewrite merge_grammars_self_entries by done.
    etrans; [|apply list_fmap_id]. apply list_fmap_ext.
    intros i [k alts] Hi. simpl. f_equal.
    assert (dict_get g k = Some alts) as Hget.
    { apply dict_get_elem; [done|]. by eapply list_elem_of_lookup_2. }
    apply Hone in Hget. unfold as_set, list_alternatives.
    destruct alts as [|a [|b alts]]; simpl in *; [| |lia].
    + apply list_of_set_empty.
    + rewrite (right_id_L ∅ (∪)). apply list_of_set_singleton.
  - intros g Hwf Hone. rewrite merge_grammars_self_entries by done.
    apply list_fmap_ext. intros i [k c] Hi. simpl. f_equal.
    assert (dict_get g k = Some c) as Hget.
    { apply dict_get_elem; [done|]. by eapply list_elem_of_lookup_2. }
    apply Hone in Hget. unfold as_set, set_alternatives, id.
    destruct (decide (c = ∅)) as [->|Hne].
    + rewrite elements_empty. apply list_of_set_empty.
    + assert (size c = 1) as Hsize.
      { assert (size c ≠ 0) by (by apply size_non_empty_iff; intros ->%leibniz_equiv). lia. }
      apply size_1_elem_of in Hsize as [a Ha]. apply leibniz_equiv in Ha.
      rewrite Ha, elements_singleton. apply list_of_set_singleton.
Qed.

End MergeFacts.

(** C4, as stated, fails: a list of alternatives that repeats an
    alternative comes back shorter. *)
Lemma merge_grammars_self_counterexample :
  merge_grammars elements [("<start>", ["a"; "a"])] [("<start>", ["a"; "a"])]
  ≠ [("<start>", ["a"; "a"])].
Proof. compute_done. Qed.

(** The same holds whatever the order in which a set is listed. *)
Lemma merge_grammars_self_shorter list_of_set :
  (∀ X, list_of_set X ≡ₚ elements X) →
  merge_grammars list_of_set [("<start>", ["a"; "a"])] [("<start>", ["a"; "a"])]
  = [("<start>", ["a"])].
Proof.
  intros Hperm.
  rewrite (merge_grammars_self_eq list_of_set Hperm); [|unfold dict_wf; compute_done].
  assert (alternatives_of [("<start>", ["a"; "a"])] "<start>"
          = ({["a"]} : gset string)) as Hset.
  { unfold alternatives_of, as_set, list_alternatives. simpl. set_solver. }
  simpl. rewrite Hset. by rewrite (list_of_set_singleton list_of_set Hperm).
Qed.

Lemma merge_grammars_union_witness :
  ∃ alts,
    dict_get (merge_grammars elements
                [("<start>", ["<a>b"; "<a>b"]); ("<a>", ["x"])]
                [("<start>", {["<a>c"]})]) "<a>" = Some alts ∧
    NoDup alts ∧
    list_to_set alts =
      alternatives_of [("<start>", ["<a>b"; "<a>b"]); ("<a>", ["x"])] "<a>" ∪
      alternatives_of [("<start>", ({["<a>c"]} : gset string))] "<a>" ∧
    (∀ c a, dict_get [("<start>", ["<a>b"; "<a>b"]); ("<a>", ["x"])] "<a>" = Some c →
            a ∈ as_set c → a ∈ alts) ∧
    (∀ c a, dict_get [("<start>", ({["<a>c"]} : gset string))] "<a>" = Some c →
            a ∈ as_set c → a ∈ alts).
Proof.
  apply (merge_grammars_union elements (fun X => reflexivity (elements X))
           [("<start>", ["<a>b"; "<a>b"]); ("<a>", ["x"])]
           [("<start>", ({["<a>c"]} : gset string))] "<a>").
  left. compute_done.
Defined.

Lemma merge_grammars_self_witness :
  merge_grammars elements straddling_grammar straddling_grammar
  = straddling_grammar ∧
  merge_grammars elements
    [("<start>", ({["<urlparse:url>"]} : gset string));
     ("<urlparse:url>", {["http://url"]})]
    [("<start>", ({["<urlparse:url>"]} : gset string));
     ("<urlparse:url>", {["http://url"]})]
  = [("<start>", ["<urlparse:url>"]); ("<urlparse:url>", ["http://url"])].
Proof.
  destruct (merge_grammars_self elements (fun X => reflexivity (elements X)))
    as (_ & Hlists & Hsets).
  split.
  - apply Hlists.
    + unfold dict_wf. compute_done.
    + intros key alts. unfold straddling_grammar. simpl.
      repeat case_decide; intros [= <-]; simpl; lia.
  - rewrite Hsets; [by vm_compute| |].
    + unfold dict_wf. compute_done.
    + intros key alts. simpl.
      repeat case_decide; intros [= <-]; by rewrite ?size_singleton.
Defined.

(** ** The tracers *)

Section StackTracerFacts.
Context {P : Policy}.
Implicit Types (self : StackTracer.t) (d : dict string).

Lemma dict_set_wf {V} (d : dict V) k v : dict_wf d → dict_wf (dict_set d k v).
Proof.
  unfold dict_wf. intros Hwf. destruct (decide (k ∈ dict_keys d)) as [Hin|Hn].
  - by rewrite dict_keys_set.
  - rewrite dict_set_fresh by done. unfold dict_keys in *.
    rewrite fmap_app. simpl. apply NoDup_app. split_and!; [done| |].
    + intros x Hx ->%list_elem_of_singleton. done.
    + apply NoDup_singleton.
Qed.

Lemma update_vars_spec var value fr self self' :
  StackTracer.update_vars var value fr self = Ok self' →
  StackTracer.inputstr self' = StackTracer.inputstr self ∧
  StackTracer.istack self' = StackTracer.istack self ∧
  (StackTracer.defs self' = StackTracer.defs self ∨
   ∃ q v top,
     StackTracer.varname var fr = Ok q ∧ accept value = Some v ∧
     2 ≤ String.length (text v) ∧
     last (StackTracer.istack self) = Some top ∧
     InputStack.has_in top v = true ∧
     StackTracer.unset (StackTracer.defs self) q = true ∧
     StackTracer.defs self' = dict_set (StackTracer.defs self) q (text v)).
Proof.
  unfold StackTracer.update_vars.
  destruct (accept value) as [v|] eqn:Hv; [|intros [= <-]; auto].
  destruct (2 <=? String.length (text v)) eqn:Hlen; [|intros [= <-]; auto].
  apply Nat.leb_le in Hlen. unfold InputStack.has.
  destruct (last (StackTracer.istack self)) as [top|] eqn:Htop; [|done].
  simpl. destruct (InputStack.has_in top v) eqn:Hhas; [|intros [= <-]; auto].
  destruct (StackTracer.varname var fr) as [q|e] eqn:Hq; [|done]. simpl.
  destruct (StackTracer.unset (StackTracer.defs self) q) eqn:Hun;
    [|intros [= <-]; auto].
  intros [= <-]. simpl. split_and!; [done..|]. right.
  exists q, v, top. done.
Qed.

Lemma update_vars_records var value fr self self' :
  StackTracer.update_vars var value fr self = Ok self' →
  records (StackTracer.defs self) (StackTracer.defs self').
Proof.
  intros (_ & _ & [->|(q & v & top & _ & _ & Hlen & _ & _ & Hun & ->)])
    %update_vars_spec; [by left|].
  right. by exists q, (text v).
Qed.

Lemma update_all_spec (I : dict string → Prop) items fr self self' :
  (∀ d d', records d d' → I d → I d') →
  StackTracer.update_all items fr self = Ok self' →
  StackTracer.istack self' = StackTracer.istack self ∧
  (I (StackTracer.defs self) → I (StackTracer.defs self')).
Proof.
  intros HI. revert self.
  induction items as [|[var value] items IH]; intros self; simpl.
  - by intros [= <-].
  - destruct (StackTracer.update_vars var value fr self) as [self1|e] eqn:H1;
      [|done].
    simpl. intros [Hst Hd]%IH.
    pose proof (update_vars_records _ _ _ _ _ H1) as Hrec.
    apply update_vars_spec in H1 as (_ & Hst1 & _).
    split; [congruence|]. intros Hself. eapply Hd, HI; eauto.
Qed.

Lemma traceit_invariant (I : dict string → Prop) self fr ev self' :
  (∀ d d', records d d' → I d → I d') →
  StackTracer.traceit self fr ev = Ok self' →
  I (StackTracer.defs self) → I (StackTracer.defs self').
Proof.
  intros HI. unfold StackTracer.traceit.
  destruct (negb _); [by intros [= <-]|].
  destruct ev.
  - destruct (StackTracer.my_parameters fr) as [params|e]; [|done]. simpl.
    intros [_ Hd]%(update_all_spec I); [|done]. done.
  - intros [_ Hd]%(update_all_spec I); done.
  - destruct (InputStack.pop _) as [s|e]; [|done]. simpl. by intros [= <-].
  - by intros [= <-].
  - intros [_ Hd]%(update_all_spec I); done.
Qed.

Lemma run_invariant (I : dict string → Prop) events self self' :
  (∀ d d', records d d' → I d → I d') →
  StackTracer.run events self = Ok self' →
  I (StackTracer.defs self) → I (StackTracer.defs self').
Proof.
  intros HI. revert self.
  induction events as [|[fr ev] events IH]; intros self; simpl.
  - by intros [= <-].
  - destruct (StackTracer.traceit self fr ev) as [self1|e] eqn:H1; [|done].
    simpl. intros Hrun Hself. eapply IH; [done|].
    by eapply traceit_invariant.
Qed.

Lemma records_lookup d d' q s :
  records d d' → dict_get d q = Some s → s ≠ "" → dict_get d' q = Some s.
Proof.
  intros [->|(q' & s' & Hun & _ & ->)] Hget Hne; [done|].
  destruct (decide (q' = q)) as [->|Hq].
  - unfold StackTracer.unset in Hun. rewrite Hget in Hun. by destruct s.
  - by rewrite dict_get_set_ne.
Qed.

Lemma records_wf d d' : records d d' → dict_wf d → dict_wf d'.
Proof. intros [->|(q & s & _ & _ & ->)]; [done|]. apply dict_set_wf. Qed.

Lemma records_length START inputstr d d' :
  records d d' →
  (∀ q s, dict_get d q = Some s →
          q = START ∧ s = inputstr ∨ 2 ≤ String.length s) →
  (∀ q s, dict_get d' q = Some s →
          q = START ∧ s = inputstr ∨ 2 ≤ String.length s).
Proof.
  intros [->|(q' & s' & _ & Hlen & ->)] Hd q s; [by apply Hd|].
  destruct (decide (q' = q)) as [->|Hq].
  - rewrite dict_get_set_eq. intros [= <-]. by right.
  - rewrite dict_get_set_ne by done. apply Hd.
Qed.

End StackTracerFacts.

Section FirstWins.
Context {P : Policy}.
Implicit Types (self : StackTracer.t) (d : dict string).








End FirstWins.






Section InputStackFacts.
Context {P : Policy}.
Implicit Types (s : InputStack.t) (params : dict pyval).

Lemma accepted_elem params k v :
  (k, v) ∈ InputStack.accepted params ↔
  ∃ value, (k, value) ∈ params ∧ accept value = Some v.
Proof.
  unfold InputStack.accepted. rewrite list_elem_of_omap. split.
  - intros ([k' value] & Hin & Hacc). simpl in Hacc.
    destruct (accept value) as [v'|] eqn:Hv; [|done].
    injection Hacc as -> ->. eauto.
  - intros (value & Hin & Hacc). exists (k, value). simpl.
    by rewrite Hacc.
Qed.

Lemma has_in_spec (top : dict active) v :
  InputStack.has_in top v = true ↔
  ∃ k u, (k, u) ∈ top ∧ comes_from v u = true.
Proof.
  unfold InputStack.has_in. rewrite existsb_exists. split.
  - intros ([k u] & Hin%list_elem_of_In & Hc). eauto.
  - intros (k & u & Hin%list_elem_of_In & Hc). by exists (k, u).
Qed.

Lemma push_spec s params :
  ∃ new_frame,
    InputStack.push s params = s ++ [new_frame] ∧
    ∀ k v, (k, v) ∈ new_frame ↔
           ∃ value, (k, value) ∈ params ∧ accept value = Some v ∧
                    (s = [] ∨
                     ∃ top k' u, last s = Some top ∧ (k', u) ∈ top ∧
                                 comes_from v u = true).
Proof.
  unfold InputStack.push. eexists. split; [done|]. intros k v.
  destruct (last s) as [top|] eqn:Hlast.
  - rewrite list_elem_of_filter, accepted_elem. simpl. rewrite has_in_spec.
    split.
    + intros ((k' & u & Hin & Hc) & value & Hv & Hacc).
      exists value. split_and!; [done..|]. right. by exists top, k', u.
    + intros (value & Hv & Hacc & [->|(top' & k' & u & [= <-] & Hin & Hc)]);
        [done|]. split; eauto.
  - apply last_None in Hlast as ->. rewrite accepted_elem. naive_solver.
Qed.

Lemma pop_push s params : InputStack.pop (InputStack.push s params) = Ok s.
Proof.
  unfold InputStack.push, InputStack.pop.
  destruct (s ++ [_]) as [|x l] eqn:Heq.
  - by destruct s.
  - by rewrite <-Heq, removelast_last.
Qed.

End InputStackFacts.

(** ** The stack of inputs *)

(** C7. In the stack miner, a [call] event in [urllib/parse.py] puts one
    new frame on the stack of inputs. The frame holds the parameters of the
    call that are strings and, unless the stack was empty, are contained
    in some string of the frame that was on top; on an empty stack it holds
    all parameters that are strings. A [return] event takes the top frame
    off, so a return right after a call leaves the stack as it was before
    the call. *)
Theorem call_pushes_return_pops (self : StackTracer.t (P := plain)) fr :
  Str.endswith (co_filename fr) "urllib/parse.py" = true →
  (∀ self',
     StackTracer.traceit self fr Call = Ok self' →
     ∃ params new_frame,
       StackTracer.my_parameters fr = Ok params ∧
       (∀ k value, (k, value) ∈ params ↔
          (k, value) ∈ f_locals fr ∧
          k ∈ take (co_argcount fr) (co_varnames fr)) ∧
       StackTracer.istack self' = StackTracer.istack self ++ [new_frame] ∧
       ∀ k v, (k, v) ∈ new_frame ↔
              ∃ value, (k, value) ∈ params ∧ as_str value = Some v ∧
                       (StackTracer.istack self = [] ∨
                        ∃ top k' u,
                          last (StackTracer.istack self) = Some top ∧
                          (k', u) ∈ top ∧ Str.contains v u = true)) ∧
  (∀ self',
     StackTracer.traceit self fr Return = Ok self' →
     StackTracer.istack self ≠ [] ∧
     StackTracer.istack self' = removelast (StackTracer.istack self)) ∧
  (∀ self1 self2,
     StackTracer.traceit self fr Call = Ok self1 →
     StackTracer.traceit self1 fr Return = Ok self2 →
     StackTracer.istack self2 = StackTracer.istack self).
Proof.
  intros Hfile.
  assert (∀ self', StackTracer.traceit self fr Call = Ok self' →
            ∃ params, StackTracer.my_parameters fr = Ok params ∧
              StackTracer.istack self' =
              InputStack.push (StackTracer.istack self) params) as Hcall.
  { intros self'. unfold StackTracer.traceit. rewrite Hfile. simpl.
    destruct (StackTracer.my_parameters fr) as [params|e]; [|done]. simpl.
    intros [Hst _]%(update_all_spec (fun _ => True)); [|done].
    exists params. by rewrite Hst. }
  assert (∀ self0 self' : StackTracer.t (P := plain),
            StackTracer.traceit self0 fr Return = Ok self' →
            InputStack.pop (StackTracer.istack self0)
            = Ok (StackTracer.istack self')) as Hreturn.
  { intros self0 self'. unfold StackTracer.traceit. rewrite Hfile. simpl.
    destruct (InputStack.pop _) as [s|e]; [|done]. simpl. by intros [= <-]. }
  split_and!.
  - intros self' (params & Hparams & Hst)%Hcall.
    destruct (push_spec (StackTracer.istack self) params)
      as (new_frame & Hpush & Hnew).
    exists params, new_frame. split_and!; [done| |congruence|exact Hnew].
    intros k value. unfold StackTracer.my_parameters in Hparams.
    case_decide; [|done]. injection Hparams as <-.
    rewrite list_elem_of_filter. simpl. naive_solver.
  - intros self' Hpop%Hreturn. unfold InputStack.pop in Hpop.
    destruct (StackTracer.istack self); [done|]. by injection Hpop as <-.
  - intros self1 self2 (params & _ & Hst)%Hcall Hpop%Hreturn.
    rewrite Hst, pop_push in Hpop. by injection Hpop.
Qed.

Lemma call_pushes_return_pops_witness :
  ∃ self1 self2,
    StackTracer.traceit
      (@StackTracer.Make plain "a=b" [] [("<start>", "a=b")])
      parse_qs_call Call = Ok self1 ∧
    StackTracer.traceit self1 parse_qs_call Return = Ok self2 ∧
    StackTracer.istack self1 =
      [[("qs", "a=b"); ("encoding", "utf-8"); ("errors", "replace")]] ∧
    StackTracer.istack self2 = [].
Proof.
  eexists _, _.
  split; [vm_compute; reflexivity|]. split; [vm_compute; reflexivity|].
  split; [reflexivity|].
  eapply (proj2 (proj2 (call_pushes_return_pops
            (@StackTracer.Make plain "a=b" [] [("<start>", "a=b")])
            parse_qs_call eq_refl))); vm_compute; reflexivity.
Defined.

(** ** Entering and leaving the tracer *)

(** C6. Whatever the block under [with Tracer(...)] does, and however it
    ends, the statement ends the same way (an exception of the block is
    the exception of the statement) and leaves the interpreter with the
    trace function it had before. *)
Theorem with_Tracer_restores_hook {E : Type} (inputstr : string)
    (body : dict string → hook → completion E * dict string * hook)
    (sys_trace : hook) :
  ∃ c values h,
    body [] (Some (Traceit inputstr)) = (c, values, h) ∧
    Tracer.with_ inputstr body sys_trace
    = Ok (c, {| Tracer.inputstr := inputstr; Tracer.the_values := values;
                Tracer.oldtrace := Some sys_trace |}, sys_trace).
Proof.
  unfold Tracer.with_. simpl.
  destruct (body [] (Some (Traceit inputstr))) as [[c values] h].
  exists c, values, h. split; [done|]. by destruct c.
Qed.

(** ** What the tracers keep *)

Lemma dict_set_elem {V} (d : dict V) k v k' v' :
  (k', v') ∈ dict_set d k v → (k', v') = (k, v) ∨ (k', v') ∈ d.
Proof.
  induction d as [|[k1 v1] d IH]; simpl.
  - intros ->%list_elem_of_singleton. by left.
  - case_decide; subst.
    + intros [->|Hin]%elem_of_cons; [by left|]. right. by right.
    + intros [->|Hin]%elem_of_cons; [right; left|].
      destruct (IH Hin) as [|]; [by left|]. right. by right.
Qed.

Lemma dict_update_elem {V} (d e : dict V) k v :
  (k, v) ∈ dict_update d e → (k, v) ∈ d ∨ (k, v) ∈ e.
Proof.
  unfold dict_update. revert d.
  induction e as [|[k1 v1] e IH]; intros d; simpl; [by left|].
  intros [[Hin|Hin]%dict_set_elem|Hin]%IH.
  - right. rewrite Hin. left.
  - by left.
  - right. by right.
Qed.

Lemma my_vars_elem self fr var value :
  (var, value) ∈ Tracer.my_vars self fr ↔
  ∃ v, (var, v) ∈ f_locals fr ∧ as_str v = Some value ∧
       3 ≤ String.length value ∧
       Str.contains value (Tracer.inputstr self) = true.
Proof.
  unfold Tracer.my_vars. rewrite list_elem_of_omap. split.
  - intros ([k v] & Hin & Hsome). simpl in Hsome.
    destruct (as_str v) as [s|] eqn:Hs; [|done].
    destruct (2 <? String.length s) eqn:Hlen; [|done].
    destruct (Str.contains s (Tracer.inputstr self)) eqn:Hc; [|done].
    injection Hsome as -> ->. apply Nat.ltb_lt in Hlen. eauto.
  - intros (v & Hin & Hs & Hlen & Hc). exists (var, v). split; [done|].
    simpl. rewrite Hs, Hc. apply Nat.ltb_lt in Hlen. by rewrite Hlen.
Qed.

Lemma simple_run_inputstr inputstr events :
  Tracer.inputstr (simple_run inputstr events) = inputstr.
Proof.
  unfold simple_run. induction events as [|fe events IH] using rev_ind; [done|].
  by rewrite foldl_app.
Qed.

(** C5, as stated, fails for the stack miner: on the call of
    [parse_qs("a=b")] the default argument [encoding = "utf-8"] is put on
    the empty stack with the other string parameters and is then recorded,
    though it is no part of the sample. *)
Lemma stack_tracer_records_default_argument :
  ∃ self',
    StackTracer.run (P := plain) [(parse_qs_call, Call)]
      (StackTracer.init the_start_symbol "a=b") = Ok self' ∧
    dict_get (StackTracer.defs self') "parse_qs:encoding" = Some "utf-8" ∧
    Str.contains "utf-8" "a=b" = false.
Proof. eexists. split_and!; compute_done. Qed.

(** C5 (amended). The simple tracer keeps an observation only if its value
    is a string of at least three characters that occurs in the sample.
    [update_vars] of the stack miner records a value only if it is a
    string of at least two characters that occurs in some string of the
    top frame of the stack of inputs. Values that are no strings or are
    shorter are passed over without an error. *)
Theorem retained_observations :
  (∀ inputstr events var value,
     (var, value) ∈ Tracer.the_values (simple_run inputstr events) →
     3 ≤ String.length value ∧ Str.contains value inputstr = true) ∧
  (∀ self fr var value,
     (var, value) ∈ Tracer.my_vars self fr ↔
     ∃ v, (var, v) ∈ f_locals fr ∧ as_str v = Some value ∧
          3 ≤ String.length value ∧
          Str.contains value (Tracer.inputstr self) = true) ∧
  (∀ var value fr (self self' : StackTracer.t (P := plain)),
     StackTracer.update_vars var value fr self = Ok self' →
     ∀ q s,
       dict_get (StackTracer.defs self') q = Some s →
       dict_get (StackTracer.defs self) q = Some s ∨
       (as_str value = Some s ∧ 2 ≤ String.length s ∧
        ∃ top k u, last (StackTracer.istack self) = Some top ∧
                   (k, u) ∈ top ∧ Str.contains s u = true)) ∧
  (∀ var value fr (self : StackTracer.t (P := plain)),
     (as_str value = None ∨
      ∃ s, as_str value = Some s ∧ String.length s < 2) →
     StackTracer.update_vars var value fr self = Ok self).
Proof.
  split_and!.
  - intros inputstr events. unfold simple_run.
    induction events as [|[fr ev] events IH] using rev_ind; intros var value.
    + intros Hin. inversion Hin.
    + rewrite foldl_app. simpl.
      intros [Hin|Hin]%dict_update_elem; [by apply (IH var value)|].
      apply my_vars_elem in Hin as (v & _ & _ & Hlen & Hc).
      fold (simple_run inputstr events) in Hc.
      by rewrite simple_run_inputstr in Hc.
  - apply my_vars_elem.
  - intros var value fr self self'
      (_ & _ & [->|(q' & v & top & _ & Hacc & Hlen & Htop & Hhas & _ & ->)])
      %update_vars_spec q s; [by left|].
    destruct (decide (q' = q)) as [->|Hq].
    + rewrite dict_get_set_eq. intros [= <-]. right.
      apply has_in_spec in Hhas as (k & u & Hin & Hc).
      split_and!; [done..|]. by exists top, k, u.
    + rewrite dict_get_set_ne by done. by left.
  - intros var value fr self [Hnone|(s & Hs & Hlen)];
      unfold StackTracer.update_vars; simpl.
    + by rewrite Hnone.
    + rewrite Hs. simpl. apply Nat.leb_gt in Hlen.
      destruct (String.length s) as [|[|n]]; [done..|].
      apply Nat.leb_gt in Hlen. lia.
Qed.

Lemma retained_observations_witness :
  StackTracer.update_vars (P := plain) "sep" (VStr "&") parse_qs_call
    (@StackTracer.Make plain "a=b" [[("qs", "a=b")]] [("<start>", "a=b")])
  = Ok (@StackTracer.Make plain "a=b" [[("qs", "a=b")]] [("<start>", "a=b")]) ∧
  (3 ≤ String.length "a=b" ∧ Str.contains "a=b" "a=b" = true).
Proof.
  destruct retained_observations as (Hsimple & _ & _ & Hsilent). split.
  - apply Hsilent. right. exists "&". split; [reflexivity | simpl; lia].
  - apply (Hsimple "a=b" [(parse_qs_call, Call)] "qs" "a=b"). compute_done.
Defined.

(** ** More on merging *)

Section MergeOrder.
Variable list_of_set : gset string → list string.
Hypothesis list_of_set_perm : ∀ X, list_of_set X ≡ₚ elements X.

Lemma foldl_set_keys {V} (F : string → V) (d : dict V) keys :
  NoDup keys →
  dict_keys (foldl (fun m key => dict_set m key (F key)) d keys) =
  dict_keys d ++ filter (fun k => k ∉ dict_keys d) keys.
Proof.
  intros Hnd. revert d. induction Hnd as [|k keys Hk Hnd IH]; intros d.
  - simpl. by rewrite app_nil_r.
  - cbn [foldl]. rewrite IH. rewrite filter_cons.
    destruct (decide (k ∈ dict_keys d)) as [Hin|Hn].
    + rewrite dict_keys_set by done. by rewrite decide_False by auto.
    + rewrite decide_True by done. rewrite dict_set_fresh by done.
      assert (dict_keys (d ++ [(k, F k)]) = dict_keys d ++ [k]) as ->.
      { unfold dict_keys. by rewrite fmap_app. }
      rewrite <-(assoc_L (++)). simpl. do 2 f_equal.
      apply filter_ext_elem. intros k' Hk'.
      rewrite not_elem_of_app, list_elem_of_singleton. split; [naive_solver|].
      intros Hd. split; [done|]. intros ->. done.
Qed.

Lemma merge_grammars_alternatives {C1 C2 : Type}
    `{!Alternatives C1, !Alternatives C2} (g1 : dict C1) (g2 : dict C2) key :
  alternatives_of (merge_grammars list_of_set g1 g2) key =
  alternatives_of g1 key ∪ alternatives_of g2 key.
Proof.
  unfold alternatives_of at 1. rewrite merge_grammars_get.
  case_decide as Hin.
  - unfold as_set, list_alternatives. apply set_eq. intros a.
    by rewrite elem_of_list_to_set, list_of_set_perm, elem_of_elements.
  - apply not_elem_of_app in Hin as [H1 H2].
    apply dict_get_None in H1, H2. unfold alternatives_of.
    rewrite H1, H2. set_solver.
Qed.

Lemma merge_grammars_key_elem {C1 C2 : Type}
    `{!Alternatives C1, !Alternatives C2} (g1 : dict C1) (g2 : dict C2) key :
  key ∈ dict_keys (merge_grammars list_of_set g1 g2) ↔
  key ∈ dict_keys g1 ∨ key ∈ dict_keys g2.
Proof.
  rewrite <-elem_of_app. split.
  - intros Hin. destruct (decide (key ∈ dict_keys g1 ++ dict_keys g2)); [done|].
    apply dict_get_None in Hin; [done|].
    rewrite merge_grammars_get. by rewrite decide_False.
  - intros Hin.
    destruct (dict_get (merge_grammars list_of_set g1 g2) key) eqn:Hget.
    + by eapply dict_get_Some_keys.
    + rewrite merge_grammars_get, decide_True in Hget; done.
Qed.

Lemma merge_grammars_key_list {C1 C2 : Type}
    `{!Alternatives C1, !Alternatives C2} (g1 : dict C1) (g2 : dict C2) :
  dict_wf g1 → dict_wf g2 →
  dict_keys (merge_grammars list_of_set g1 g2) =
  dict_keys g1 ++ filter (fun k => k ∉ dict_keys g1) (dict_keys g2).
Proof.
  intros Hwf1 Hwf2. unfold merge_grammars. rewrite foldl_app.
  rewrite foldl_set_keys by done.
  rewrite foldl_set_keys by done. simpl.
  rewrite filter_all; [done|]. intros; apply not_elem_of_nil.
Qed.

Lemma merge_grammars_wf {C1 C2 : Type}
    `{!Alternatives C1, !Alternatives C2} (g1 : dict C1) (g2 : dict C2) :
  dict_wf (merge_grammars list_of_set g1 g2).
Proof.
  unfold merge_grammars.
  generalize (dict_keys g1 ++ dict_keys g2). intros keys.
  assert (dict_wf ([] : grammar)) as Hwf by apply NoDup_nil_2.
  revert Hwf. generalize ([] : grammar).
  induction keys as [|k keys IH]; intros d Hd; [done|].
  cbn [foldl]. apply IH. by apply dict_set_wf.
Qed.

(** X1. Merging is commutative up to order: [merge_grammars(g1, g2)] and
    [merge_grammars(g2, g1)] have the same nonterminals and, for each of
    them, the same alternatives, listed without repetition in some order.
    (The order of the nonterminals differs in general.) *)
Theorem merge_grammars_commutative {C1 C2 : Type}
    `{!Alternatives C1, !Alternatives C2} (g1 : dict C1) (g2 : dict C2) :
  (∀ key, key ∈ dict_keys (merge_grammars list_of_set g1 g2) ↔
          key ∈ dict_keys (merge_grammars list_of_set g2 g1)) ∧
  (∀ key alts,
     dict_get (merge_grammars list_of_set g1 g2) key = Some alts →
     ∃ alts', dict_get (merge_grammars list_of_set g2 g1) key = Some alts' ∧
              alts ≡ₚ alts').
Proof.
  split.
  - intros key. rewrite !merge_grammars_key_elem. tauto.
  - intros key alts. rewrite !merge_grammars_get.
    case_decide as Hin; [|done]. intros [= <-].
    rewrite decide_True
      by (apply elem_of_app; apply elem_of_app in Hin; tauto).
    eexists. split; [done|].
    rewrite !list_of_set_perm. by rewrite (comm_L (∪)).
Qed.


(** X3. The merged grammar lists the nonterminals of [g1] first, in the
    order of [g1], then the nonterminals that only [g2] has, in the order
    of [g2]; none is listed twice. *)
Theorem merge_grammars_key_order {C1 C2 : Type}
    `{!Alternatives C1, !Alternatives C2} (g1 : dict C1) (g2 : dict C2) :
  dict_wf g1 → dict_wf g2 →
  dict_keys (merge_grammars list_of_set g1 g2) =
  dict_keys g1 ++ filter (fun k => k ∉ dict_keys g1) (dict_keys g2) ∧
  NoDup (dict_keys (merge_grammars list_of_set g1 g2)).
Proof.
  intros Hwf1 Hwf2. split.
  - by apply merge_grammars_key_list.
  - apply merge_grammars_wf.
Qed.

End MergeOrder.

Lemma merge_grammars_commutative_witness :
  dict_keys (merge_grammars elements
               [("<start>", ["<a>b"]); ("<a>", ["x"])]
               [("<b>", ({["y"]} : gset string)); ("<start>", {["<b>c"]})])
  = ["<start>"; "<a>"; "<b>"] ∧
  dict_keys (merge_grammars elements
               [("<b>", ({["y"]} : gset string)); ("<start>", {["<b>c"]})]
               [("<start>", ["<a>b"]); ("<a>", ["x"])])
  = ["<b>"; "<start>"; "<a>"] ∧
  ∃ alts', dict_get (merge_grammars elements
               [("<b>", ({["y"]} : gset string)); ("<start>", {["<b>c"]})]
               [("<start>", ["<a>b"]); ("<a>", ["x"])]) "<start>" = Some alts' ∧
           elements ({["<a>b"]} ∪ {["<b>c"]} : gset string) ≡ₚ alts'.
Proof.
  split; [compute_done|]. split; [compute_done|].
  apply (proj2 (merge_grammars_commutative elements
                  (fun X => reflexivity (elements X))
                  [("<start>", ["<a>b"]); ("<a>", ["x"])]
                  [("<b>", ({["y"]} : gset string)); ("<start>", {["<b>c"]})])
           "<start>").
  vm_compute. reflexivity.
Defined.


Lemma merge_grammars_key_order_witness :
  dict_keys (merge_grammars elements
               [("<start>", ["<a>b"]); ("<a>", ["x"])]
               [("<b>", ["y"]); ("<start>", ["<b>c"])])
  = ["<start>"; "<a>"; "<b>"].
Proof.
  apply (merge_grammars_key_order elements
           [("<start>", ["<a>b"]); ("<a>", ["x"])]
           [("<b>", ["y"]); ("<start>", ["<b>c"])]); unfold dict_wf; compute_done.
Defined.

(** ** Merging the grammars of several traces *)

Section MergedGrammarFacts.
Variable list_of_set : gset string → list string.
Hypothesis list_of_set_perm : ∀ X, list_of_set X ≡ₚ elements X.
Context {T C : Type} `{!Alternatives C}.
Variable get_grammar : T → option (result (dict C * T)).

Lemma merge_grammars_NoDup {C1 C2 : Type}
    `{!Alternatives C1, !Alternatives C2} (g1 : dict C1) (g2 : dict C2) key alts :
  dict_get (merge_grammars list_of_set g1 g2) key = Some alts → NoDup alts.
Proof.
  rewrite merge_grammars_get. case_decide; [|done]. intros [= <-].
  by apply list_of_set_NoDup.
Qed.

Lemma merge_traces_spec m0 traces objects merged objects' :
  merge_traces list_of_set get_grammar m0 traces objects
  = Some (Ok (merged, objects')) →
  ∃ gs,
    calls get_grammar objects traces gs objects' ∧
    (∀ key, key ∈ dict_keys merged ↔
            key ∈ dict_keys m0 ∨ ∃ g, g ∈ gs ∧ key ∈ dict_keys g) ∧
    (∀ key a, a ∈ alternatives_of merged key ↔
              a ∈ alternatives_of m0 key ∨
              ∃ g, g ∈ gs ∧ a ∈ alternatives_of g key) ∧
    ((∀ key alts, dict_get m0 key = Some alts → NoDup alts) →
     ∀ key alts, dict_get merged key = Some alts → NoDup alts).
Proof.
  revert m0 objects merged objects'.
  induction traces as [|trace traces IH]; intros m0 objects merged objects';
    simpl.
  - intros [= <- <-]. exists []. split_and!; [constructor| | |done].
    + intros key. split; [auto|]. intros [|(g & Hg & _)]; [done|].
      by apply elem_of_nil in Hg.
    + intros key a. split; [auto|]. intros [|(g & Hg & _)]; [done|].
      by apply elem_of_nil in Hg.
  - destruct (objects !! trace) as [tracer|] eqn:Hobj; [|done].
    destruct (get_grammar tracer) as [[[g tracer1]|e]|] eqn:Hg; [|done..].
    intros Hrec.
    destruct (IH _ _ _ _ Hrec) as (gs & Hall & Hkeys & Halts & Hnd).
    exists (g :: gs). split_and!.
    + by econstructor.
    + intros key. rewrite Hkeys, merge_grammars_key_elem. split.
      * intros [[?|?]|(g' & ? & ?)]; [by left| |].
        -- right. exists g. split; [left|done].
        -- right. exists g'. split; [by right|done].
      * intros [?|(g' & [->|?]%elem_of_cons & ?)]; [by left; left|by left; right|].
        right. by exists g'.
    + intros key a.
      rewrite Halts, (merge_grammars_alternatives list_of_set list_of_set_perm),
        elem_of_union. split.
      * intros [[?|?]|(g' & ? & ?)]; [by left| |].
        -- right. exists g. split; [left|done].
        -- right. exists g'. split; [by right|done].
      * intros [?|(g' & [->|?]%elem_of_cons & ?)]; [by left; left|by left; right|].
        right. by exists g'.
    + intros _. apply Hnd. intros key alts. apply merge_grammars_NoDup.
Qed.

(** X4. When [get_merged_grammar(traces)] returns, [get_grammar] has
    returned a grammar for every trace of the list, in turn, each call
    working on its tracer as the calls before it have left it (a tracer
    may be listed more than once); the nonterminals of the merged grammar
    are those of these grammars, and the merged grammar gives a
    nonterminal, without repetition, exactly the alternatives that some of
    these grammars has for it. *)
Theorem get_merged_grammar_union traces objects merged objects' :
  get_merged_grammar list_of_set get_grammar traces objects
  = Some (Ok (merged, objects')) →
  ∃ gs,
    calls get_grammar objects traces gs objects' ∧
    (∀ key, key ∈ dict_keys merged ↔ ∃ g, g ∈ gs ∧ key ∈ dict_keys g) ∧
    (∀ key alts,
       dict_get merged key = Some alts →
       NoDup alts ∧
       ∀ a, a ∈ alts ↔ ∃ g, g ∈ gs ∧ a ∈ alternatives_of g key).
Proof.
  intros (gs & Hall & Hkeys & Halts & Hnd)%merge_traces_spec.
  exists gs. split_and!; [done| |].
  - intros key. rewrite Hkeys. split; [|auto].
    intros [Hin|?]; [|done]. by apply elem_of_nil in Hin.
  - intros key alts Hget. split; [by eapply Hnd|].
    intros a. specialize (Halts key a).
    rewrite (alternatives_of_get _ _ _ Hget) in Halts.
    unfold as_set, list_alternatives in Halts.
    rewrite elem_of_list_to_set in Halts.
    rewrite Halts. split; [|auto].
    intros [Hin|?]; [|done]. unfold alternatives_of in Hin. simpl in Hin.
    by apply elem_of_empty in Hin.
Qed.

Lemma merge_traces_Raise m0 traces objects e :
  merge_traces list_of_set get_grammar m0 traces objects = Some (Raise e) ↔
  ∃ pre trace post gs objects1 tracer,
    traces = pre ++ trace :: post ∧
    calls get_grammar objects pre gs objects1 ∧
    objects1 !! trace = Some tracer ∧
    get_grammar tracer = Some (Raise e).
Proof.
  split.
  - revert m0 objects.
    induction traces as [|trace traces IH]; intros m0 objects; simpl; [done|].
    destruct (objects !! trace) as [tracer|] eqn:Hobj; [|done].
    destruct (get_grammar tracer) as [[[g tracer1]|e']|] eqn:Hg; [| |done].
    + intros (pre & t & post & gs & o1 & tr & -> & Hpre & Ho1 & Hr)%IH.
      exists (trace :: pre), t, post, (g :: gs), o1, tr.
      split_and!; [done| |done..]. by econstructor.
    + intros [= ->]. exists [], trace, traces, [], objects, tracer.
      split_and!; [done|constructor|done..].
  - intros (pre & t & post & gs & o1 & tr & -> & Hpre & Ho1 & Hraise).
    revert m0.
    induction Hpre as [|o0 t0 tr0 g tr0' pre gs o1 Hobj Hgt Hpre IH];
      intros m0; simpl.
    + by rewrite Ho1, Hraise.
    + rewrite Hobj, Hgt. by apply IH.
Qed.

(** X5. [get_merged_grammar(traces)] raises an exception exactly when
    [get_grammar] raises it on some trace of the list, on its tracer as
    the calls for the traces before it have left it, after these calls
    have all returned a grammar; the traces after that one are not looked
    at. *)
Theorem get_merged_grammar_raises traces objects e :
  get_merged_grammar list_of_set get_grammar traces objects = Some (Raise e) ↔
  ∃ pre trace post gs objects1 tracer,
    traces = pre ++ trace :: post ∧
    calls get_grammar objects pre gs objects1 ∧
    objects1 !! trace = Some tracer ∧
    get_grammar tracer = Some (Raise e).
Proof. apply merge_traces_Raise. Qed.

End MergedGrammarFacts.

Lemma get_merged_grammar_union_witness :
  ∃ merged objects' gs,
    get_merged_grammar elements (Simple.get_grammar the_start_symbol)
      [0; 0] {[0 := straddling_tracer]}
    = Some (Ok (merged, objects')) ∧
    calls (Simple.get_grammar the_start_symbol)
      {[0 := straddling_tracer]} [0; 0] gs objects' ∧
    dict_keys merged = ["<start>"; "<x>"; "<q>"] ∧
    (∀ key, key ∈ dict_keys merged ↔ ∃ g, g ∈ gs ∧ key ∈ dict_keys g).
Proof.
  eexists _, _.
  assert (get_merged_grammar elements (Simple.get_grammar the_start_symbol)
            [0; 0] {[0 := straddling_tracer]}
          = Some (Ok _)) as Hrun by (vm_compute; reflexivity).
  destruct (get_merged_grammar_union elements
              (fun X => reflexivity (elements X))
              (Simple.get_grammar the_start_symbol) _ _ _ _ Hrun)
    as (gs & Hall & Hkeys & _).
  exists gs. split_and!; [exact Hrun | exact Hall | reflexivity | exact Hkeys].
Defined.

Lemma get_merged_grammar_raises_witness :
  get_merged_grammar elements (Simple.get_grammar the_start_symbol)
    [0] {[0 := twice_tracer]}
  = Some (Ok ([("<start>", ["ab<w>ce"]); ("<w>", ["cdab"])],
              {[0 := Tracer.Make "abcdabce"
                       [("x", "abcd"); ("y", "abce"); ("z", "abc")] None]})) ∧
  get_merged_grammar elements (Simple.get_grammar the_start_symbol)
    [0; 0] {[0 := twice_tracer]}
  = Some (Raise (KeyError "z")) ∧
  ∃ pre trace post gs objects1 tracer,
    [0; 0] = pre ++ trace :: post ∧
    calls (Simple.get_grammar the_start_symbol) {[0 := twice_tracer]}
      pre gs objects1 ∧
    objects1 !! trace = Some tracer ∧
    Simple.get_grammar the_start_symbol tracer = Some (Raise (KeyError "z")).
Proof.
  split; [by vm_compute|]. split; [by vm_compute|].
  apply (proj1 (get_merged_grammar_raises elements
                  (Simple.get_grammar the_start_symbol)
                  [0; 0] {[0 := twice_tracer]} (KeyError "z"))).
  by vm_compute.
Defined.

(** ** The simple tracer *)

Section DictUpdate.
Context {V : Type}.
Implicit Types d e : dict V.

Lemma dict_update_get d e k :
  dict_wf e →
  dict_get (dict_update d e) k =
  match dict_get e k with Some v => Some v | None => dict_get d k end.
Proof.
  unfold dict_update, dict_wf, dict_keys. revert d.
  induction e as [|[k1 v1] e IH]; intros d; simpl; [done|].
  intros [Hk1 Hnd]%NoDup_cons. rewrite IH by done.
  case_decide as Hk; subst.
  - assert (dict_get e k = None) as -> by by apply dict_get_None.
    apply dict_get_set_eq.
  - destruct (dict_get e k); [done|]. by apply dict_get_set_ne.
Qed.

Lemma dict_update_keys d e :
  dict_wf e →
  dict_keys (dict_update d e) =
  dict_keys d ++ filter (fun k => k ∉ dict_keys d) (dict_keys e).
Proof.
  unfold dict_update, dict_wf. revert d.
  induction e as [|[k v] e IH]; intros d.
  - simpl. by rewrite app_nil_r.
  - change (dict_keys ((k, v) :: e)) with (k :: dict_keys e).
    intros [Hk Hnd]%NoDup_cons. cbn [foldl]. simpl.
    rewrite IH by done. rewrite filter_cons.
    destruct (decide (k ∈ dict_keys d)) as [Hin|Hn].
    + rewrite dict_keys_set by done. by rewrite decide_False by auto.
    + rewrite decide_True by done. rewrite dict_set_fresh by done.
      assert (dict_keys (d ++ [(k, v)]) = dict_keys d ++ [k]) as ->.
      { unfold dict_keys. by rewrite fmap_app. }
      rewrite <-(assoc_L (++)). simpl. do 2 f_equal.
      apply filter_ext_elem. intros k' Hk'.
      rewrite not_elem_of_app, list_elem_of_singleton. split; [naive_solver|].
      intros Hd. split; [done|]. intros ->. done.
Qed.

End DictUpdate.

Lemma my_vars_sublist self fr :
  sublist (dict_keys (Tracer.my_vars self fr)) (dict_keys (f_locals fr)).
Proof.
  unfold Tracer.my_vars, dict_keys.
  induction (f_locals fr) as [|[k v] l IH]; simpl; [done|].
  destruct (as_str v) as [s|]; [|by apply sublist_cons].
  destruct (_ && _); [by apply sublist_skip | by apply sublist_cons].
Qed.

Lemma my_vars_wf self fr :
  dict_wf (f_locals fr) → dict_wf (Tracer.my_vars self fr).
Proof. unfold dict_wf. intros H. eapply sublist_NoDup; [done|apply my_vars_sublist]. Qed.

(** X6. In the simple tracer the last value wins: after [traceit] on a
    frame, a variable of the frame whose value is kept (a string of more
    than two characters that occurs in the sample) is bound to that value,
    whatever it was bound to before; every other variable keeps what it
    had. No observation is removed, the variables seen before keep their
    places and the new ones follow in the order of the frame. *)
Theorem traceit_last_value_wins self fr ev :
  dict_wf (f_locals fr) →
  (∀ var value,
     (var, value) ∈ Tracer.my_vars self fr →
     dict_get (Tracer.the_values (Tracer.traceit self fr ev)) var = Some value) ∧
  (∀ var,
     var ∉ dict_keys (Tracer.my_vars self fr) →
     dict_get (Tracer.the_values (Tracer.traceit self fr ev)) var =
     dict_get (Tracer.the_values self) var) ∧
  dict_keys (Tracer.the_values (Tracer.traceit self fr ev)) =
  dict_keys (Tracer.the_values self) ++
  filter (fun var => var ∉ dict_keys (Tracer.the_values self))
    (dict_keys (Tracer.my_vars self fr)).
Proof.
  intros Hwf%(my_vars_wf self). simpl. split_and!.
  - intros var value Hin. rewrite dict_update_get by done.
    by rewrite (dict_get_elem _ _ _ Hwf Hin).
  - intros var Hn. rewrite dict_update_get by done.
    apply dict_get_None in Hn. by rewrite Hn.
  - by apply dict_update_keys.
Qed.

Lemma traceit_last_value_wins_witness :
  dict_get
    (Tracer.the_values
       (Tracer.traceit (Tracer.Make "a=b&c" [("qs", "a=b"); ("sep", "b&c")] None)
          (Frame "parse_qsl" "urllib/parse.py" ["qs"] 1
             [("qs", VStr "a=b&c"); ("n", VOther); ("pair", VStr "a=b")])
          Line)) "qs" = Some "a=b&c" ∧
  dict_keys
    (Tracer.the_values
       (Tracer.traceit (Tracer.Make "a=b&c" [("qs", "a=b"); ("sep", "b&c")] None)
          (Frame "parse_qsl" "urllib/parse.py" ["qs"] 1
             [("qs", VStr "a=b&c"); ("n", VOther); ("pair", VStr "a=b")])
          Line)) = ["qs"; "sep"; "pair"].
Proof.
  destruct (traceit_last_value_wins
              (Tracer.Make "a=b&c" [("qs", "a=b"); ("sep", "b&c")] None)
              (Frame "parse_qsl" "urllib/parse.py" ["qs"] 1
                 [("qs", VStr "a=b&c"); ("n", VOther); ("pair", VStr "a=b")])
              Line) as (Hnew & _ & Hkeys).
  - unfold dict_wf. compute_done.
  - split.
    + apply Hnew. compute_done.
    + rewrite Hkeys. reflexivity.
Defined.

(** ** Names *)

Section Names.
Implicit Types s t u v w : string.
Local Arguments String.append !_ _ /.

(** The first occurrence of a character splits a string in one way. *)
Lemma first_char c w1 r1 w2 r2 :
  Str.contains (String c "") w1 = false →
  Str.contains (String c "") w2 = false →
  w1 +:+ String c r1 = w2 +:+ String c r2 → w1 = w2 ∧ r1 = r2.
Proof.
  intros H1 H2 Heq.
  destruct (str_app_eq_app _ _ _ _ Heq) as [(m & -> & Hm)|(m & -> & Hm)].
  - destruct m as [|c' m].
    + rewrite str_app_nil_r. simpl in Hm. by injection Hm.
    + simpl in Hm. injection Hm as <- _.
      apply contains_char_app in H2 as [_ H2].
      by rewrite contains_char_head in H2.
  - destruct m as [|c' m].
    + rewrite str_app_nil_r. simpl in Hm. by injection Hm.
    + simpl in Hm. injection Hm as <- _.
      apply contains_char_app in H1 as [_ H1].
      by rewrite contains_char_head in H1.
Qed.

Lemma varname_Ok var fr q :
  StackTracer.varname var fr = Ok q →
  ∃ class_name,
    q = class_name +:+ ":" +:+ var ∧
    (co_name fr ≠ "__new__" → class_name = co_name fr) ∧
    (co_name fr = "__new__" →
     ∃ first rest, co_varnames fr = first :: rest ∧
                   dict_get (f_locals fr) first = Some (VNamed class_name)).
Proof.
  unfold StackTracer.varname. simpl. case_decide as Hnew.
  - destruct (co_varnames fr) as [|first rest]; [done|].
    destruct (dict_get (f_locals fr) first) as [[| |name|]|] eqn:Hget; try done.
    simpl. intros [= <-]. exists name. split_and!; [done..|].
    intros _. by exists first, rest.
  - simpl. intros [= <-]. exists (co_name fr). done.
Qed.

Lemma varname_plain var fr :
  co_name fr ≠ "__new__" →
  StackTracer.varname var fr = Ok (co_name fr +:+ ":" +:+ var).
Proof. intros Hn. unfold StackTracer.varname. simpl. by rewrite decide_False. Qed.

End Names.

(** X8. With [Vars.Namespaced] set, [varname] puts the name of the function
    of the frame, or for [__new__] the name of the class that is its first
    argument, and a colon before the variable. It is the name that
    counts, not the function: for frames other than [__new__] and names
    without a colon, two variables get the same qualified name exactly
    when their functions have the same name and they have the same name
    themselves. So variables of functions with different names are kept
    apart, two functions with one name (the methods [geturl] of two
    classes) share their qualified names, and so do the [__new__] of a
    class and a function with the name of the class. *)
Theorem varname_qualifies_by_name :
  (∀ var fr q,
     StackTracer.varname var fr = Ok q →
     ∃ class_name,
       q = class_name +:+ ":" +:+ var ∧
       (co_name fr ≠ "__new__" → class_name = co_name fr) ∧
       (co_name fr = "__new__" →
        ∃ first rest, co_varnames fr = first :: rest ∧
                      dict_get (f_locals fr) first = Some (VNamed class_name))) ∧
  (∀ var fr var' fr',
     co_name fr ≠ "__new__" → co_name fr' ≠ "__new__" →
     Str.contains ":" (co_name fr) = false →
     Str.contains ":" (co_name fr') = false →
     (StackTracer.varname var fr = StackTracer.varname var' fr' ↔
      co_name fr = co_name fr' ∧ var = var')) ∧
  (∀ var fr first rest name fr',
     co_name fr = "__new__" → co_varnames fr = first :: rest →
     dict_get (f_locals fr) first = Some (VNamed name) →
     co_name fr' = name → name ≠ "__new__" →
     StackTracer.varname var fr = StackTracer.varname var fr').
Proof.
  split_and!; [apply varname_Ok| |].
  - intros var fr var' fr' Hn Hn' Hc Hc'.
    rewrite !varname_plain by done. split.
    + intros [= Heq]. by apply (first_char ":"%char) in Heq.
    + by intros [-> ->].
  - intros var fr first rest name fr' Hnew Hvars Hget Hname Hn.
    rewrite (varname_plain var fr') by congruence.
    unfold StackTracer.varname. simpl.
    rewrite decide_True by done. rewrite Hvars, Hget. simpl. by rewrite Hname.
Qed.

Lemma varname_qualifies_by_name_witness :
  Frame "geturl" "/usr/lib/python3.6/urllib/parse.py" ["self"] 1
    [("self", VNamed "SplitResult")]
  ≠ Frame "geturl" "/usr/lib/python3.6/urllib/parse.py" ["self"] 1
      [("self", VNamed "ParseResult")] ∧
  StackTracer.varname "self"
    (Frame "geturl" "/usr/lib/python3.6/urllib/parse.py" ["self"] 1
       [("self", VNamed "SplitResult")])
  = StackTracer.varname "self"
      (Frame "geturl" "/usr/lib/python3.6/urllib/parse.py" ["self"] 1
         [("self", VNamed "ParseResult")]) ∧
  StackTracer.varname "url"
    (Frame "urlparse" "/usr/lib/python3.6/urllib/parse.py" ["url"] 1 [])
  ≠ StackTracer.varname "url"
      (Frame "urlsplit" "/usr/lib/python3.6/urllib/parse.py" ["url"] 1 []).
Proof.
  split_and!.
  - discriminate.
  - apply (proj1 (proj2 varname_qualifies_by_name)); try discriminate;
      try reflexivity. done.
  - intros H.
    apply (proj1 (proj2 varname_qualifies_by_name)) in H as [H _];
      try discriminate; try reflexivity.
Defined.

(** ** The start symbol in a trace *)

Section StartSymbol.
Context {P : Policy}.
Variable START_SYMBOL : string.
Implicit Types (self : StackTracer.t) (d : dict string).

Lemma varname_colon var fr q :
  StackTracer.varname var fr = Ok q → Str.contains ":" q = true.
Proof.
  intros (c & -> & _)%varname_Ok. apply contains_char. by exists c, var.
Qed.

Lemma run_app events1 events2 self :
  StackTracer.run (events1 ++ events2) self =
  self1 ← StackTracer.run events1 self;
  StackTracer.run events2 self1.
Proof.
  revert self. induction events1 as [|[fr ev] events1 IH]; intros self; simpl;
    [done|].
  destruct (StackTracer.traceit self fr ev) as [self1|e]; [|done].
  simpl. apply IH.
Qed.

(** An invariant of the tracer is kept by a run when [update_vars], [push]
    and [pop] keep it. *)
Lemma run_state_invariant (I : StackTracer.t → Prop) events self self' :
  (∀ var value fr self self',
     StackTracer.update_vars var value fr self = Ok self' → I self → I self') →
  (∀ self params,
     I self →
     I (StackTracer.set_istack self
          (InputStack.push (StackTracer.istack self) params))) →
  (∀ self s,
     InputStack.pop (StackTracer.istack self) = Ok s → I self →
     I (StackTracer.set_istack self s)) →
  StackTracer.run events self = Ok self' → I self → I self'.
Proof.
  intros Hupd Hpush Hpop.
  assert (∀ items fr self self',
            StackTracer.update_all items fr self = Ok self' →
            I self → I self') as Hall.
  { clear self self'. intros items fr.
    induction items as [|[var value] items IH]; intros self self'; simpl.
    - by intros [= <-].
    - destruct (StackTracer.update_vars var value fr self) as [self1|e] eqn:H1;
        [|done].
      simpl. intros H2 Hself. eapply IH; [done|]. by eapply Hupd. }
  revert self. induction events as [|[fr ev] events IH]; intros self; simpl.
  - by intros [= <-].
  - destruct (StackTracer.traceit self fr ev) as [self1|e] eqn:H1; [|done].
    simpl. intros Hrun Hself. eapply IH; [done|]. clear Hrun IH.
    unfold StackTracer.traceit in H1.
    destruct (negb _); [by injection H1 as <-|].
    destruct ev.
    + destruct (StackTracer.my_parameters fr) as [params|e]; [|done].
      simpl in H1. eapply Hall; [done|]. by apply Hpush.
    + by eapply Hall.
    + destruct (InputStack.pop _) as [s|e] eqn:Hs; [|done]. simpl in H1.
      injection H1 as <-. by apply Hpop.
    + by injection H1 as <-.
    + by eapply Hall.
Qed.

Lemma assign_head (g : dict (gset string)) k alts g0 assignment :
  g = (k, alts) :: g0 →
  ∃ alts' g0', Stack.assign START_SYMBOL g assignment = (k, alts') :: g0'.
Proof.
  intros ->. destruct assignment as [var value]. unfold Stack.assign.
  cbn [Stack.rewrite_grammar].
  destruct (Stack.rewrite_alternatives _ _ alts false) as [alt b1].
  destruct (Stack.rewrite_grammar _ _ g0 b1) as [rest' b2].
  destruct b2; [|eauto]. simpl. case_decide as Hk; [rewrite <-Hk|]; eauto.
Qed.

Lemma get_grammar_head (assignments : dict string) var value :
  ∃ alts g0,
    Stack.get_grammar START_SYMBOL ((var, value) :: assignments) =
    (nt_var_of START_SYMBOL var, alts) :: g0.
Proof.
  unfold Stack.get_grammar.
  induction assignments as [|a assignments IH] using rev_ind.
  - simpl. unfold nt_var_of. eauto.
  - destruct IH as (alts & g0 & IH). rewrite app_comm_cons, foldl_app.
    cbn [foldl]. eapply assign_head. exact IH.
Qed.

Lemma run_defs_shape inputstr events self' :
  Str.contains ":" START_SYMBOL = false →
  StackTracer.run events (StackTracer.init START_SYMBOL inputstr) = Ok self' →
  StackTracer.inputstr self' = inputstr ∧
  ∃ rest,
    StackTracer.defs self' = (START_SYMBOL, inputstr) :: rest ∧
    ∀ q s, (q, s) ∈ rest → Str.contains ":" q = true.
Proof.
  intros Hstart Hrun.
  eapply (run_state_invariant (fun self =>
    StackTracer.inputstr self = inputstr ∧
    ∃ rest,
      StackTracer.defs self = (START_SYMBOL, inputstr) :: rest ∧
      ∀ q s, (q, s) ∈ rest → Str.contains ":" q = true)); [| | |done|].
  - intros var value fr self self1 Hupd (Hin & rest & Hdefs & Hrest).
    apply update_vars_spec in Hupd
      as (Hin1 & _ & [Heq|(q & v & top & Hq & _ & _ & _ & _ & _ & Heq)]).
    + split; [congruence|]. exists rest. by rewrite Heq.
    + split; [congruence|]. apply varname_colon in Hq.
      rewrite Heq, Hdefs. simpl. rewrite decide_False by congruence.
      eexists. split; [done|]. intros q' s' [[= -> ->]|Hin']%dict_set_elem;
        [done|by eapply Hrest].
  - intros self params Hself. exact Hself.
  - intros self s _ Hself. exact Hself.
  - split; [done|]. exists []. split; [done|]. intros q s Hin.
    by apply elem_of_nil in Hin.
Qed.

End StartSymbol.

(** X9. Whatever the events of a trace are, the first binding of [defs]
    stays the start symbol with the sample (the start symbol has no colon,
    while every name that [update_vars] binds has one), and so the first
    nonterminal of the grammar that [get_grammar] builds from the trace is
    the start symbol. This holds for the stack miner and the tainted
    miner. *)
Theorem start_symbol_stays_first (P : Policy) START_SYMBOL inputstr events
    (self' : StackTracer.t) :
  Str.contains ":" START_SYMBOL = false →
  StackTracer.run events (StackTracer.init START_SYMBOL inputstr)
  = Ok self' →
  StackTracer.inputstr self' = inputstr ∧
  (∃ rest,
     StackTracer.defs self' = (START_SYMBOL, inputstr) :: rest ∧
     ∀ q s, (q, s) ∈ rest → Str.contains ":" q = true) ∧
  (∃ alts g0,
     Stack.get_grammar START_SYMBOL (StackTracer.defs self') =
     (START_SYMBOL, alts) :: g0).
Proof.
  intros Hstart Hrun.
  destruct (run_defs_shape START_SYMBOL inputstr events self' Hstart Hrun)
    as (Hinput & rest & Hdefs & Hrest).
  split_and!; [done|by exists rest|].
  rewrite Hdefs.
  destruct (get_grammar_head START_SYMBOL rest START_SYMBOL inputstr)
    as (alts & g0 & Hg).
  exists alts, g0. rewrite Hg. unfold nt_var_of. by rewrite decide_True.
Qed.

Lemma start_symbol_stays_first_witness :
  ∃ self' : StackTracer.t (P := plain),
    StackTracer.run [(parse_qs_call, Call); (parse_qs_call, Line)]
      (StackTracer.init the_start_symbol "a=b") = Ok self' ∧
    StackTracer.inputstr self' = "a=b" ∧
    (∃ rest,
       StackTracer.defs self' = (the_start_symbol, "a=b") :: rest ∧
       ∀ q s, (q, s) ∈ rest → Str.contains ":" q = true) ∧
    (∃ alts g0,
       Stack.get_grammar the_start_symbol (StackTracer.defs self') =
       (the_start_symbol, alts) :: g0).
Proof.
  eexists. split; [vm_compute; reflexivity|].
  eapply (start_symbol_stays_first plain the_start_symbol "a=b"
            [(parse_qs_call, Call); (parse_qs_call, Line)]);
    [reflexivity | vm_compute; reflexivity].
Defined.

(** ** The depth of the stack of inputs *)

Section Depth.
Context {P : Policy}.
Implicit Types (self : StackTracer.t) (s : InputStack.t).

Lemma push_length s params :
  length (InputStack.push s params) = S (length s).
Proof. unfold InputStack.push. rewrite length_app. simpl. lia. Qed.

Lemma pop_length s s' : InputStack.pop s = Ok s' → length s' = pred (length s).
Proof.
  unfold InputStack.pop. destruct s as [|x l _] using rev_ind; [done|].
  destruct (l ++ [x]) eqn:Heq; [by destruct l|]. rewrite <-Heq.
  intros [= <-]. rewrite removelast_last, length_app. simpl. lia.
Qed.

Lemma update_all_istack items fr self self' :
  StackTracer.update_all items fr self = Ok self' →
  StackTracer.istack self' = StackTracer.istack self.
Proof.
  intros [H _]%(update_all_spec (fun _ => True)); done.
Qed.

Lemma traceit_depth self fr ev self' :
  StackTracer.traceit self fr ev = Ok self' →
  length (StackTracer.istack self') =
  depth_after (length (StackTracer.istack self)) [(fr, ev)].
Proof.
  unfold StackTracer.traceit. simpl. fold (in_parse fr).
  destruct (in_parse fr); simpl; [|by intros [= <-]].
  destruct ev.
  - destruct (StackTracer.my_parameters fr) as [params|e]; [|done]. simpl.
    intros ->%update_all_istack. simpl. apply push_length.
  - by intros ->%update_all_istack.
  - destruct (InputStack.pop _) as [s|e] eqn:Hs; [|done]. simpl.
    intros [= <-]. simpl. by apply pop_length.
  - by intros [= <-].
  - by intros ->%update_all_istack.
Qed.

Lemma depth_after_cons depth fe events :
  depth_after depth (fe :: events) =
  depth_after (depth_after depth [fe]) events.
Proof. destruct fe as [fr []]; simpl; by destruct (in_parse fr). Qed.

Lemma run_depth events self self' :
  StackTracer.run events self = Ok self' →
  length (StackTracer.istack self') =
  depth_after (length (StackTracer.istack self)) events.
Proof.
  revert self. induction events as [|[fr ev] events IH]; intros self.
  - by intros [= <-].
  - cbn [StackTracer.run].
    destruct (StackTracer.traceit self fr ev) as [self1|e] eqn:H1; [|done].
    intros Hrun. simpl in Hrun. apply IH in Hrun as ->.
    rewrite (depth_after_cons _ (fr, ev)).
    by rewrite (traceit_depth _ _ _ _ H1).
Qed.

Lemma varname_is_Ok var fr : frame_ok fr → ∃ q, StackTracer.varname var fr = Ok q.
Proof.
  intros [_ Hnew]. unfold StackTracer.varname. simpl. case_decide as Hn.
  - destruct (Hnew Hn) as (first & rest & name & -> & ->). simpl. eauto.
  - simpl. eauto.
Qed.

Lemma update_vars_is_Ok var value fr self :
  frame_ok fr → StackTracer.istack self ≠ [] →
  ∃ self', StackTracer.update_vars var value fr self = Ok self'.
Proof.
  intros Hfr Hne. unfold StackTracer.update_vars.
  destruct (accept value) as [v|]; [|eauto].
  destruct (2 <=? _); [|eauto]. unfold InputStack.has.
  destruct (last (StackTracer.istack self)) as [top|] eqn:Hlast.
  - simpl. destruct (InputStack.has_in top v); [|eauto].
    destruct (varname_is_Ok var fr Hfr) as [q ->]. simpl.
    destruct (StackTracer.unset _ _); eauto.
  - by apply last_None in Hlast.
Qed.

Lemma update_all_is_Ok items fr self :
  frame_ok fr → StackTracer.istack self ≠ [] →
  ∃ self', StackTracer.update_all items fr self = Ok self'.
Proof.
  intros Hfr. revert self.
  induction items as [|[var value] items IH]; intros self Hne; simpl; [eauto|].
  destruct (update_vars_is_Ok var value fr self Hfr Hne) as [self1 H1].
  rewrite H1. simpl. apply IH.
  apply update_vars_spec in H1 as (_ & -> & _). done.
Qed.

Lemma length_pos_nonempty s : 0 < length s → s ≠ [].
Proof. destruct s; simpl; [lia|done]. Qed.

Lemma traceit_is_Ok self fr ev :
  frame_ok fr →
  well_nested (length (StackTracer.istack self)) [(fr, ev)] = true →
  ∃ self', StackTracer.traceit self fr ev = Ok self'.
Proof.
  intros Hfr. unfold StackTracer.traceit. simpl. fold (in_parse fr).
  destruct (in_parse fr); simpl; [|eauto].
  destruct ev; rewrite ?andb_true_r.
  - intros _. unfold StackTracer.my_parameters.
    rewrite decide_True by apply Hfr. simpl.
    apply update_all_is_Ok; [done|]. simpl.
    unfold InputStack.push. by destruct (StackTracer.istack self).
  - intros Hd%Nat.ltb_lt. by apply update_all_is_Ok, length_pos_nonempty.
  - intros Hd%Nat.ltb_lt. unfold InputStack.pop.
    destruct (StackTracer.istack self); simpl in *; [lia|]. eauto.
  - eauto.
  - intros Hd%Nat.ltb_lt. by apply update_all_is_Ok, length_pos_nonempty.
Qed.

Lemma well_nested_cons depth fe events :
  well_nested depth (fe :: events) =
  well_nested depth [fe] && well_nested (depth_after depth [fe]) events.
Proof.
  destruct fe as [fr []]; simpl; destruct (in_parse fr);
    rewrite ?andb_true_r; try done.
Qed.

Lemma run_is_Ok events self :
  Forall (fun fe : frame * event => frame_ok fe.1) events →
  well_nested (length (StackTracer.istack self)) events = true →
  ∃ self', StackTracer.run events self = Ok self'.
Proof.
  intros Hfr. revert self.
  induction Hfr as [|[fr ev] events Hfr _ IH]; intros self; [simpl; eauto|].
  rewrite well_nested_cons. intros [H1 H2]%andb_true_iff.
  destruct (traceit_is_Ok self fr ev Hfr H1) as [self1 Hself1].
  cbn [StackTracer.run]. rewrite Hself1. simpl. apply IH.
  by rewrite (traceit_depth _ _ _ _ Hself1).
Qed.


Lemma run_filter events self :
  StackTracer.run events self = StackTracer.run (filter acted_on events) self.
Proof.
  revert self. induction events as [|[fr ev] events IH]; intros self; [done|].
  rewrite filter_cons. destruct (decide (acted_on (fr, ev))) as [Ha|Hn].
  - cbn [StackTracer.run].
    destruct (StackTracer.traceit self fr ev) as [self1|e]; [|done].
    simpl. apply IH.
  - cbn [StackTracer.run].
    assert (StackTracer.traceit self fr ev = Ok self) as ->; [|simpl; apply IH].
    unfold StackTracer.traceit. fold (in_parse fr).
    unfold acted_on in Hn. simpl in Hn.
    destruct (in_parse fr); [|done]. simpl in *. by destruct ev.
Qed.

End Depth.

(** X10. The depth of the stack of inputs follows the calls: after a run
    that raises nothing, the stack has one frame for every call of
    [urllib/parse.py] that has not returned. When the events are nested
    (every return and every line comes while a call is open) and the
    frames are as the interpreter makes them, the run raises nothing. This
    holds for the stack miner and the tainted miner. *)
Theorem run_follows_calls (P : Policy) (events : list (frame * event))
    (self : StackTracer.t) :
  (∀ self',
     StackTracer.run events self = Ok self' →
     length (StackTracer.istack self') =
     depth_after (length (StackTracer.istack self)) events) ∧
  (Forall (fun fe : frame * event => frame_ok fe.1) events →
   well_nested (length (StackTracer.istack self)) events = true →
   ∃ self', StackTracer.run events self = Ok self').
Proof. split; [apply run_depth | apply run_is_Ok]. Qed.

Lemma run_follows_calls_witness :
  ∃ self' : StackTracer.t (P := plain),
    StackTracer.run
      [(parse_qs_call, Call); (parse_qs_call, Line); (parse_qs_call, Return)]
      (StackTracer.init the_start_symbol "a=b") = Ok self' ∧
    length (StackTracer.istack self') = 0.
Proof.
  destruct (proj2 (run_follows_calls plain
              [(parse_qs_call, Call); (parse_qs_call, Line);
               (parse_qs_call, Return)]
              (StackTracer.init the_start_symbol "a=b"))) as [self' Hrun].
  - repeat constructor; simpl; try lia; discriminate.
  - reflexivity.
  - exists self'. split; [exact Hrun|].
    apply (proj1 (run_follows_calls plain _ _) self' Hrun).
Defined.



(** X12. The stack tracers look at the events of [urllib/parse.py] only,
    and pass over its [exception] events: a run over a list of events is
    the run over those of its events that are of that file and are no
    [exception], be the result a tracer or an exception. *)
Theorem run_passes_over_other_events (P : Policy)
    (events : list (frame * event)) (self : StackTracer.t) :
  StackTracer.run events self = StackTracer.run (filter acted_on events) self.
Proof. apply run_filter. Qed.

(** ** Where the recorded values come from *)

Section Provenance.
Variables START_SYMBOL inputstr : string.
Implicit Types (self : StackTracer.t (P := plain))
  (s : InputStack.t (P := plain)) (O : string → Prop).

Lemma update_vars_within O var value fr self self' :
  StackTracer.update_vars var value fr self = Ok self' →
  stack_within O (StackTracer.istack self) →
  values_within START_SYMBOL inputstr O (StackTracer.defs self) →
  StackTracer.istack self' = StackTracer.istack self ∧
  values_within START_SYMBOL inputstr O (StackTracer.defs self').
Proof.
  intros (_ & Hst & [Heq|(q & v & top & _ & _ & _ & Htop & Hhas & _ & Heq)])
    %update_vars_spec Hstack Hdefs; (split; [done|]); rewrite Heq; [done|].
  intros q' v'. destruct (decide (q = q')) as [->|Hne].
  - rewrite dict_get_set_eq. intros [= <-]. right.
    apply has_in_spec in Hhas as (k & u & Hin & Hc).
    destruct (Hstack top k u) as (u0 & Hu0 & Hc0);
      [by apply last_Some_elem_of | done |].
    exists u0. split; [done|]. by eapply contains_trans.
  - rewrite dict_get_set_ne by done. apply Hdefs.
Qed.

Lemma update_all_within O items fr self self' :
  StackTracer.update_all items fr self = Ok self' →
  stack_within O (StackTracer.istack self) →
  values_within START_SYMBOL inputstr O (StackTracer.defs self) →
  StackTracer.istack self' = StackTracer.istack self ∧
  values_within START_SYMBOL inputstr O (StackTracer.defs self').
Proof.
  revert self. induction items as [|[var value] items IH]; intros self; simpl.
  - by intros [= <-].
  - destruct (StackTracer.update_vars var value fr self) as [self1|e] eqn:H1;
      [|done].
    simpl. intros H2 Hstack Hdefs.
    destruct (update_vars_within O _ _ _ _ _ H1 Hstack Hdefs) as [Hst1 Hd1].
    destruct (IH _ H2) as [Hst2 Hd2]; [by rewrite Hst1|done|].
    split; [congruence|done].
Qed.

Lemma push_within O s params :
  stack_within O s →
  (s = [] → ∀ k value u, (k, value) ∈ params → as_str value = Some u → O u) →
  stack_within O (InputStack.push s params).
Proof.
  intros Hstack Hnew.
  destruct (push_spec s params) as (new_frame & -> & Hframe).
  intros fr_inputs k v [Hin| ->%list_elem_of_singleton]%elem_of_app Hkv.
  - by eapply Hstack.
  - apply Hframe in Hkv as (value & Hvalue & Hacc & [Hs|Htop]).
    + exists v. split; [by eapply Hnew|apply contains_refl].
    + destruct Htop as (top & k' & u & Htop & Hu & Hc).
      destruct (Hstack top k' u) as (u0 & Hu0 & Hc0);
        [by apply last_Some_elem_of | done |].
      exists u0. split; [done|]. by eapply contains_trans.
Qed.

Lemma pop_within O s s' :
  stack_within O s → InputStack.pop s = Ok s' → stack_within O s'.
Proof.
  unfold InputStack.pop. destruct s as [|x l _] using rev_ind; [done|].
  intros Hstack Hpop. assert (s' = l) as ->.
  { destruct (l ++ [x]) eqn:Heq; [by destruct l|]. rewrite <-Heq in Hpop.
    injection Hpop as <-. apply removelast_last. }
  intros fr_inputs k v Hin. apply Hstack. apply elem_of_app. by left.
Qed.

Lemma outermost_argument_more events more u :
  outermost_argument START_SYMBOL inputstr events u →
  outermost_argument START_SYMBOL inputstr (events ++ more) u.
Proof.
  intros (pre & fr & post & self & k & value & -> & H).
  exists pre, fr, (post ++ more), self, k, value.
  split; [|done]. by rewrite <-(assoc_L (++)).
Qed.

Lemma run_within events self' :
  StackTracer.run events (StackTracer.init START_SYMBOL inputstr) = Ok self' →
  stack_within (outermost_argument START_SYMBOL inputstr events)
    (StackTracer.istack self') ∧
  values_within START_SYMBOL inputstr
    (outermost_argument START_SYMBOL inputstr events)
    (StackTracer.defs self').
Proof.
  revert self'. induction events as [|[fr ev] events IH] using rev_ind;
    intros self'.
  - intros [= <-]. split.
    + intros fr_inputs k v Hin. by apply elem_of_nil in Hin.
    + intros q v. simpl. case_decide; [|done]. intros [= <-]. by left.
  - rewrite run_app.
    destruct (StackTracer.run events _) as [self1|e] eqn:Hrun; [|done].
    simpl. destruct (IH _ eq_refl) as [Hstack1 Hdefs1].
    set (O := outermost_argument START_SYMBOL inputstr (events ++ [(fr, ev)])).
    assert (stack_within O (StackTracer.istack self1)) as Hstack.
    { intros fr_inputs k v Hin Hkv.
      destruct (Hstack1 _ _ _ Hin Hkv) as (u & Hu & Hc).
      exists u. split; [by apply outermost_argument_more|done]. }
    assert (values_within START_SYMBOL inputstr O (StackTracer.defs self1)) as Hdefs.
    { intros q v Hget. destruct (Hdefs1 _ _ Hget) as [?|(u & Hu & Hc)];
        [by left|].
      right. exists u. split; [by apply outermost_argument_more|done]. }
    clear Hstack1 Hdefs1 IH.
    destruct (StackTracer.traceit self1 fr ev) as [self2|e] eqn:Hstep; [|done].
    simpl. intros [= <-]. unfold StackTracer.traceit in Hstep.
    fold (in_parse fr) in Hstep.
    destruct (in_parse fr) eqn:Hfile; simpl in Hstep;
      [|by injection Hstep as <-].
    destruct ev.
    + destruct (StackTracer.my_parameters fr) as [params|e] eqn:Hparams;
        [|done].
      simpl in Hstep.
      assert (stack_within O
                (InputStack.push (StackTracer.istack self1) params)) as Hpush.
      { apply push_within; [done|]. intros Hs k value u Hin Hu.
        unfold StackTracer.my_parameters in Hparams.
        case_decide; [|done]. injection Hparams as <-.
        apply list_elem_of_filter in Hin as [Hk Hin]. simpl in Hk.
        exists events, fr, [], self1, k, value. done. }
      destruct (update_all_within O _ _ _ _ Hstep) as [Hst Hd]; [done..|].
      split; [|done]. by rewrite Hst.
    + destruct (update_all_within O _ _ _ _ Hstep) as [Hst Hd]; [done..|].
      split; [|done]. by rewrite Hst.
    + destruct (InputStack.pop _) as [s|e] eqn:Hs; [|done]. simpl in Hstep.
      injection Hstep as <-. simpl. split; [|done]. by eapply pop_within.
    + by injection Hstep as <-.
    + destruct (update_all_within O _ _ _ _ Hstep) as [Hst Hd]; [done..|].
      split; [|done]. by rewrite Hst.
Qed.

End Provenance.

(** X13. In the stack miner every string on the stack of inputs, and every
    value recorded in [defs] besides the sample under the start symbol, is
    a part of a string argument of an outermost call: a call of
    [urllib/parse.py] that the trace enters while no call is open. So when
    these arguments are parts of the sample, all recorded values are. *)
Theorem recorded_values_come_from_outermost_calls START_SYMBOL inputstr events
    (self' : StackTracer.t (P := plain)) :
  StackTracer.run events (StackTracer.init START_SYMBOL inputstr) = Ok self' →
  (∀ fr_inputs k v,
     fr_inputs ∈ StackTracer.istack self' → (k, v) ∈ fr_inputs →
     ∃ u, outermost_argument START_SYMBOL inputstr events u ∧
          Str.contains v u = true) ∧
  (∀ q v,
     dict_get (StackTracer.defs self') q = Some v →
     q = START_SYMBOL ∧ v = inputstr ∨
     ∃ u, outermost_argument START_SYMBOL inputstr events u ∧
          Str.contains v u = true) ∧
  ((∀ u, outermost_argument START_SYMBOL inputstr events u →
         Str.contains u inputstr = true) →
   ∀ q v, dict_get (StackTracer.defs self') q = Some v →
          Str.contains v inputstr = true).
Proof.
  intros [Hstack Hdefs]%run_within. split_and!; [done..|].
  intros Hargs q v [[_ ->]|(u & Hu & Hc)]%Hdefs; [apply contains_refl|].
  eapply contains_trans; [done|]. by apply Hargs.
Qed.

Lemma recorded_values_come_from_outermost_calls_witness :
  ∃ self' : StackTracer.t (P := plain),
    StackTracer.run [(parse_qs_call, Call)]
      (StackTracer.init the_start_symbol "a=b") = Ok self' ∧
    dict_get (StackTracer.defs self') "parse_qs:encoding" = Some "utf-8" ∧
    ∀ q v,
      dict_get (StackTracer.defs self') q = Some v →
      q = the_start_symbol ∧ v = "a=b" ∨
      ∃ u, outermost_argument the_start_symbol "a=b" [(parse_qs_call, Call)] u ∧
           Str.contains v u = true.
Proof.
  eexists. split; [vm_compute; reflexivity|]. split; [reflexivity|].
  eapply (recorded_values_come_from_outermost_calls the_start_symbol "a=b"
            [(parse_qs_call, Call)]).
  vm_compute. reflexivity.
Defined.

(** ** How the simple synthesizer ends *)

Section SimpleOutcome.
Variable START_SYMBOL : string.
Implicit Types (g : grammar) (traces : dict string) (rules : list Simple.rule).

Lemma add_rules_Raise rules g traces e :
  Simple.add_rules rules g traces = Raise e →
  ∃ var, e = KeyError var ∧ var ∈ rule_vars rules.
Proof.
  unfold rule_vars. revert g traces.
  induction rules as [|[[var k] v] rules IH]; intros g traces; simpl; [done|].
  destruct (dict_del traces var) as [traces1|e'] eqn:Hdel; simpl.
  - intros (var' & -> & Hin)%IH. exists var'. split; [done|]. by right.
  - intros [= ->]. apply dict_del_Raise in Hdel as [-> _].
    exists var. split; [done|]. left.
Qed.

Lemma scan_traces_rule_vars traces g g' rules var :
  Simple.scan_traces traces g = (g', rules) →
  var ∈ rule_vars rules → var ∈ dict_keys traces.
Proof.
  intros Hrs%scan_traces_rules (r & -> & Hin)%list_elem_of_fmap.
  rewrite Forall_forall in Hrs.
  destruct (Hrs r Hin) as (var & value & Hv & ->). simpl.
  apply list_elem_of_fmap. by exists (var, value).
Qed.

Lemma loop_outcome fuel g traces :
  length traces < fuel →
  (∃ g' traces', Simple.loop fuel g traces = Some (Ok (g', traces'))) ∨
  (∃ var, Simple.loop fuel g traces = Some (Raise (KeyError var)) ∧
          var ∈ dict_keys traces).
Proof.
  revert g traces. induction fuel as [|fuel IH]; intros g traces Hlt; [lia|].
  simpl. destruct (Simple.scan_traces traces g) as [g1 rules] eqn:Hscan.
  destruct rules as [|r rules]; [left; eauto|].
  destruct (Simple.add_rules (r :: rules) g1 traces) as [[g2 traces2]|e]
    eqn:Hadd.
  - destruct (IH g2 traces2) as [?|(var & Hloop & Hin)]; [|by left|].
    + apply add_rules_length in Hadd. simpl in Hadd. lia.
    + right. exists var. split; [done|].
      eapply sublist_keys; [|done]. by eapply add_rules_sublist.
  - right. apply add_rules_Raise in Hadd as (var & -> & Hin).
    exists var. split; [done|]. by eapply scan_traces_rule_vars.
Qed.

Lemma dict_set_singletons g k a :
  singletons g → singletons (dict_set g k [a]).
Proof.
  unfold singletons. induction 1 as [|[k' alts] g Ha Hg IH]; simpl.
  - constructor; [simpl; eauto|constructor].
  - case_decide; constructor; simpl; eauto.
Qed.

Lemma add_rules_singletons rules g traces g' traces' :
  Simple.add_rules rules g traces = Ok (g', traces') →
  singletons g → singletons g'.
Proof.
  revert g traces. induction rules as [|[[var k] v] rules IH]; intros g traces.
  - by intros [= <- <-].
  - simpl. destruct (dict_del traces var) as [traces1|e]; [|done]. simpl.
    intros Hrec Hs. eapply IH; [done|]. by apply dict_set_singletons.
Qed.

Lemma loop_singletons fuel g traces g' traces' :
  Simple.loop fuel g traces = Some (Ok (g', traces')) →
  singletons g → singletons g'.
Proof.
  revert g traces. induction fuel as [|fuel IH]; intros g traces; [done|].
  simpl. destruct (Simple.scan_traces traces g) as [g1 rules] eqn:Hscan.
  apply scan_traces_refines in Hscan.
  destruct rules as [|r rules].
  - intros [= <- <-]. by eapply refines_singletons.
  - destruct (Simple.add_rules (r :: rules) g1 traces) as [[g2 traces2]|e]
      eqn:Hadd; [|done].
    intros Hloop Hs. eapply IH; [done|].
    eapply add_rules_singletons; [done|]. by eapply refines_singletons.
Qed.

Lemma dict_set_singletons_set (g : dict (gset string)) k a :
  singletons_set g → singletons_set (dict_set g k {[a]}).
Proof.
  unfold singletons_set. induction 1 as [|[k' alts] g Ha Hg IH]; simpl.
  - constructor; [simpl; eauto|constructor].
  - case_decide; constructor; simpl; eauto.
Qed.

Lemma assign_singletons (g : dict (gset string)) assignment :
  singletons_set g → singletons_set (Stack.assign START_SYMBOL g assignment).
Proof.
  intros Hs. destruct assignment as [var value]. unfold Stack.assign.
  destruct g as [|e g0] eqn:Hg.
  - repeat constructor. simpl. eauto.
  - rewrite <-Hg in *. clear Hg.
    destruct (Stack.rewrite_grammar _ _ g false) as [g1 append] eqn:Hrw.
    apply (rewrite_grammar_refines (fun _ _ => True)) in Hrw; [|done..].
    apply refines_set_singletons in Hrw.
    destruct append; [|done]. by apply dict_set_singletons_set.
Qed.

Lemma get_grammar_singletons (assignments : dict string) :
  singletons_set (Stack.get_grammar START_SYMBOL assignments).
Proof.
  unfold Stack.get_grammar.
  induction assignments as [|a assignments IH] using rev_ind.
  - constructor.
  - rewrite foldl_app. simpl. by apply assign_singletons.
Qed.

End SimpleOutcome.

(** X14. The simple [get_grammar] always ends, after at most one round more
    than there are observations: it returns a grammar, or it raises
    [KeyError] for a variable of [tracer.the_values] (when it deletes the
    observation of that variable a second time); it raises nothing else. *)
Theorem get_grammar_returns_or_raises_KeyError START_SYMBOL tracer :
  (∃ g tracer',
     Simple.get_grammar START_SYMBOL tracer = Some (Ok (g, tracer'))) ∨
  (∃ var,
     Simple.get_grammar START_SYMBOL tracer = Some (Raise (KeyError var)) ∧
     var ∈ dict_keys (Tracer.the_values tracer)).
Proof.
  unfold Simple.get_grammar.
  destruct (loop_outcome (S (length (Tracer.the_values tracer)))
              [(START_SYMBOL, [Tracer.inputstr tracer])]
              (Tracer.the_values tracer)) as [(g & traces' & ->)|(var & -> & Hin)];
    [lia|left; eauto|right; eauto].
Qed.

(** X15. A grammar that [get_grammar] builds from one trace gives every
    nonterminal exactly one alternative, in the simple miner (whenever it
    returns a grammar) and in the stack miner, whatever the observations
    are; a nonterminal gets several alternatives only when grammars are
    merged. *)
Theorem get_grammar_one_alternative START_SYMBOL :
  (∀ tracer g tracer' k alts,
     Simple.get_grammar START_SYMBOL tracer = Some (Ok (g, tracer')) →
     dict_get g k = Some alts → ∃ a, alts = [a]) ∧
  (∀ (assignments : dict string) k alts,
     dict_get (Stack.get_grammar START_SYMBOL assignments) k = Some alts →
     ∃ a, alts = {[a]}).
Proof.
  split.
  - intros tracer g tracer' k alts (_ & Hloop & _)%get_grammar_loop Hget.
    apply loop_singletons in Hloop.
    + by eapply singletons_get.
    + repeat constructor. simpl. eauto.
  - intros assignments k alts Hget.
    eapply singletons_set_get; [|done]. apply get_grammar_singletons.
Qed.

Lemma get_grammar_one_alternative_witness :
  (∃ a, ["abc"] = [a]) ∧ (∃ a, ({["<parse_qs:qs>"]} : gset string) = {[a]}).
Proof.
  split.
  - apply (proj1 (get_grammar_one_alternative the_start_symbol)
             straddling_tracer straddling_grammar straddling_tracer_after "<x>");
      reflexivity.
  - apply (proj2 (get_grammar_one_alternative the_start_symbol)
             [("<start>", "a=b"); ("parse_qs:qs", "a=b")] "<start>").
    vm_compute. reflexivity.
Defined.

(** ** What a call records *)

Section CallRecords.
Context {P : Policy}.
Hypothesis comes_from_refl : ∀ v : active, comes_from v v = true.
Implicit Types (self : StackTracer.t) (d : dict string).
Local Arguments String.append !_ _ /.

Lemma str_app_inv_head s t u : s +:+ t = s +:+ u → t = u.
Proof. induction s as [|c s IH]; simpl; [done|]. intros [= H]. auto. Qed.

Lemma varname_inj var var' fr q :
  StackTracer.varname var fr = Ok q → StackTracer.varname var' fr = Ok q →
  var = var'.
Proof.
  unfold StackTracer.varname. simpl.
  destruct (if decide (co_name fr = "__new__") then _ else _) as [c|e];
    [|done].
  simpl. intros [= <-] [= H]. apply str_app_inv_head in H.
  simpl in H. by injection H.
Qed.

Lemma update_all_keeps items fr self self' q s :
  StackTracer.update_all items fr self = Ok self' →
  dict_get (StackTracer.defs self) q = Some s → s ≠ "" →
  dict_get (StackTracer.defs self') q = Some s.
Proof.
  intros Hall Hget Hne.
  destruct (update_all_spec (fun d => dict_get d q = Some s) _ _ _ _
              (fun d d' Hrec Hd => records_lookup d d' q s Hrec Hd Hne) Hall)
    as [_ H]. by apply H.
Qed.

Lemma update_all_unset items fr self self' k q :
  StackTracer.update_all items fr self = Ok self' →
  StackTracer.varname k fr = Ok q → k ∉ dict_keys items →
  dict_get (StackTracer.defs self') q = dict_get (StackTracer.defs self) q.
Proof.
  intros Hall Hq. revert self Hall.
  induction items as [|[var value] items IH]; intros self; simpl.
  - by intros [= <-].
  - destruct (StackTracer.update_vars var value fr self) as [self1|e] eqn:H1;
      [|done].
    simpl. intros Hall [Hne Hk]%not_elem_of_cons.
    rewrite (IH _ Hall Hk).
    apply update_vars_spec in H1
      as (_ & _ & [->|(q' & v & top & Hq' & _ & _ & _ & _ & _ & ->)]); [done|].
    apply dict_get_set_ne. intros ->. apply Hne.
    by eapply varname_inj.
Qed.

Lemma update_all_binds items fr self self' top k value v q :
  dict_wf items →
  StackTracer.update_all items fr self = Ok self' →
  last (StackTracer.istack self) = Some top → (k, v) ∈ top →
  (k, value) ∈ items → accept value = Some v → 2 ≤ String.length (text v) →
  StackTracer.varname k fr = Ok q →
  dict_get (StackTracer.defs self') q =
  if StackTracer.unset (StackTracer.defs self) q
  then Some (text v) else dict_get (StackTracer.defs self) q.
Proof.
  intros Hwf Hall Htop Hkv Hin Hacc Hlen Hq. revert self Hall Htop.
  induction items as [|[var value'] items IH]; intros self; simpl.
  - by apply elem_of_nil in Hin.
  - destruct (StackTracer.update_vars var value' fr self) as [self1|e] eqn:H1;
      [|done].
    simpl. intros Hall Htop.
    apply NoDup_cons in Hwf as [Hvar Hwf].
    apply elem_of_cons in Hin as [[= <- <-]|Hin].
    + assert (StackTracer.update_vars k value fr self =
              Ok (if StackTracer.unset (StackTracer.defs self) q
                  then StackTracer.set_defs self
                         (dict_set (StackTracer.defs self) q (text v))
                  else self)) as H2.
      { unfold StackTracer.update_vars. rewrite Hacc.
        apply Nat.leb_le in Hlen. rewrite Hlen. unfold InputStack.has.
        rewrite Htop. simpl.
        assert (InputStack.has_in top v = true) as ->.
        { apply has_in_spec. exists k, v. split; [done|apply comes_from_refl]. }
        rewrite Hq. simpl. by destruct (StackTracer.unset _ _). }
      rewrite H2 in H1. injection H1 as <-.
      destruct (StackTracer.unset (StackTracer.defs self) q) eqn:Hun.
      * eapply update_all_keeps; [done| |].
        -- simpl. apply dict_get_set_eq.
        -- intros Heq. rewrite Heq in Hlen. simpl in Hlen. lia.
      * by eapply update_all_unset.
    + assert (var ≠ k) as Hne.
      { intros ->. apply Hvar. apply list_elem_of_fmap. by exists (k, value). }
      assert (dict_get (StackTracer.defs self1) q =
              dict_get (StackTracer.defs self) q) as Hsame.
      { apply update_vars_spec in H1
          as (_ & _ & [->|(q' & v' & top' & Hq' & _ & _ & _ & _ & _ & ->)]);
          [done|].
        apply dict_get_set_ne. intros ->. apply Hne. by eapply varname_inj. }
      rewrite (IH Hwf Hin self1 Hall).
      * unfold StackTracer.unset. by rewrite Hsame.
      * apply update_vars_spec in H1 as (_ & -> & _). done.
Qed.

End CallRecords.

(** X16. A call records its parameters: after a [call] event of
    [urllib/parse.py], every parameter that the call put on the stack of
    inputs and that has at least two characters is bound in [defs] under
    its qualified name, to its own value if the name had no value yet and
    to the value the name had otherwise. This holds for a miner in which a
    value counts as coming from itself, as in the stack miner and in the
    tainted miner. *)
Theorem call_records_parameters (P : Policy) (self self' : StackTracer.t)
    (fr : frame) (new_frame : dict active) k v q :
  (∀ v : active, comes_from v v = true) →
  in_parse fr = true → dict_wf (f_locals fr) →
  StackTracer.traceit self fr Call = Ok self' →
  last (StackTracer.istack self') = Some new_frame → (k, v) ∈ new_frame →
  2 ≤ String.length (text v) → StackTracer.varname k fr = Ok q →
  dict_get (StackTracer.defs self') q =
  if StackTracer.unset (StackTracer.defs self) q
  then Some (text v) else dict_get (StackTracer.defs self) q.
Proof.
  intros Hrefl Hfile Hwf Hstep Hlast Hkv Hlen Hq.
  unfold StackTracer.traceit in Hstep. fold (in_parse fr) in Hstep.
  rewrite Hfile in Hstep. simpl in Hstep.
  destruct (StackTracer.my_parameters fr) as [params|e] eqn:Hparams; [|done].
  simpl in Hstep.
  pose proof (update_all_istack _ _ _ _ Hstep) as Hst. simpl in Hst.
  rewrite Hst in Hlast.
  destruct (push_spec (StackTracer.istack self) params)
    as (new_frame' & Hpush & Hnew).
  rewrite Hpush, last_snoc in Hlast. injection Hlast as ->.
  apply Hnew in Hkv as Hkv'. destruct Hkv' as (value & Hin & Hacc & _).
  assert (dict_wf params) as Hwfp.
  { unfold StackTracer.my_parameters in Hparams. case_decide; [|done].
    injection Hparams as <-. unfold dict_wf, dict_keys in *.
    eapply sublist_NoDup; [done|]. apply fmap_sublist, sublist_filter. }
  rewrite (update_all_binds Hrefl params fr _ self' new_frame k value v q
             Hwfp Hstep); [done| |done..].
  simpl. by rewrite Hpush, last_snoc.
Qed.

Lemma is_from_refl (v : tstr) : is_from v v = true.
Proof. destruct v as [i s p]. simpl. by rewrite Nat.eqb_refl. Qed.

Lemma call_records_parameters_witness :
  (∃ self' : StackTracer.t (P := plain),
     StackTracer.traceit (StackTracer.init the_start_symbol "a=b")
       parse_qs_call Call = Ok self' ∧
     dict_get (StackTracer.defs self') "parse_qs:qs" = Some "a=b") ∧
  (∃ self' : StackTracer.t (P := tainted),
     StackTracer.traceit (StackTracer.init the_start_symbol "a=b")
       (Frame "parse_qs" "/usr/lib/python3.6/urllib/parse.py" ["qs"] 1
          [("qs", VTstr (Tstr 1 "a=b" None))]) Call = Ok self' ∧
     dict_get (StackTracer.defs self') "parse_qs:qs" = Some "a=b").
Proof.
  split.
  - eexists. split; [vm_compute; reflexivity|].
    apply (call_records_parameters plain
             (StackTracer.init the_start_symbol "a=b") _ parse_qs_call
             [("qs", "a=b"); ("encoding", "utf-8"); ("errors", "replace")]
             "qs" "a=b" "parse_qs:qs" contains_refl).
    + reflexivity.
    + unfold dict_wf. compute_done.
    + vm_compute. reflexivity.
    + reflexivity.
    + left.
    + simpl. lia.
    + reflexivity.
  - eexists. split; [vm_compute; reflexivity|].
    apply (call_records_parameters tainted
             (StackTracer.init the_start_symbol "a=b") _
             (Frame "parse_qs" "/usr/lib/python3.6/urllib/parse.py" ["qs"] 1
                [("qs", VTstr (Tstr 1 "a=b" None))])
             [("qs", Tstr 1 "a=b" None)]
             "qs" (Tstr 1 "a=b" None) "parse_qs:qs" is_from_refl).
    + reflexivity.
    + unfold dict_wf. compute_done.
    + vm_compute. reflexivity.
    + reflexivity.
    + left.
    + simpl. lia.
    + reflexivity.
Defined.

(** ** Traced strings *)

(** Induction along the parents of a traced string. *)
Lemma tstr_parent_ind (Q : tstr → Prop) :
  (∀ i s, Q (Tstr i s None)) →
  (∀ i s p, Q p → Q (Tstr i s (Some p))) →
  ∀ v, Q v.
Proof.
  intros Hnone Hsome. fix IH 1. intros [i s [p|]].
  - apply Hsome, IH.
  - apply Hnone.
Qed.

Lemma is_from_ancestors (v u : tstr) :
  is_from v u = true ↔ tstr_id u ∈ tstr_id <$> ancestors v.
Proof.
  induction v as [i s|i s p IH] using tstr_parent_ind; simpl.
  - rewrite orb_false_r, Nat.eqb_eq, elem_of_cons, elem_of_nil. naive_solver.
  - rewrite orb_true_iff, elem_of_cons, Nat.eqb_eq, IH. done.
Qed.

Lemma ancestors_trans (v w x : tstr) :
  w ∈ ancestors v → x ∈ ancestors w → x ∈ ancestors v.
Proof.
  induction v as [i s|i s p IH] using tstr_parent_ind; simpl.
  - intros [->|Hw]%elem_of_cons Hx; [done|]. by apply elem_of_nil in Hw.
  - intros [->|Hw]%elem_of_cons Hx; [done|]. right. by apply IH.
Qed.

(** X17. [is_from] of the tainted miner follows the parents of a traced
    string: a string comes from [u] exactly when it, or one of the strings
    it was taken from, is the object [u]. So a string comes from itself,
    what a string comes from its slices come from too, and a string with no
    parent does not come from another object, equal characters or not. *)
Theorem is_from_follows_parents :
  (∀ v u, is_from v u = true ↔ tstr_id u ∈ tstr_id <$> ancestors v) ∧
  (∀ v, is_from v v = true) ∧
  (∀ v w u, w ∈ ancestors v → is_from w u = true → is_from v u = true) ∧
  (∀ i j s s', i ≠ j → is_from (Tstr i s None) (Tstr j s' None) = false).
Proof.
  split_and!.
  - apply is_from_ancestors.
  - intros [i s p]. simpl. by rewrite Nat.eqb_refl.
  - intros v w u Hw. rewrite !is_from_ancestors.
    intros (x & -> & Hx)%list_elem_of_fmap. apply list_elem_of_fmap.
    exists x. split; [done|]. by eapply ancestors_trans.
  - intros i j s s' Hne. simpl. rewrite orb_false_r.
    apply Nat.eqb_neq. congruence.
Qed.

Lemma is_from_follows_parents_witness :
  is_from (Tstr 3 "b" (Some (Tstr 2 "a=b" (Some (Tstr 1 "a=b&c" None)))))
    (Tstr 1 "a=b&c" None) = true ∧
  is_from (Tstr 4 "a=b&c" None) (Tstr 1 "a=b&c" None) = false.
Proof.
  destruct is_from_follows_parents as (_ & Hrefl & Hup & Hother). split.
  - apply (Hup _ (Tstr 1 "a=b&c" None)); [|apply Hrefl].
    simpl. right. right. left.
  - by apply Hother.
Defined.

(** ** One observation *)

(** X18. With a single observation whose value occurs in the sample and
    whose nonterminal is not the start symbol, both synthesizers give the
    grammar of two rules: the start symbol, for the sample with every
    occurrence of the value replaced by the nonterminal of the variable,
    and that nonterminal, for the value. The simple synthesizer leaves no
    observation in the tracer. With a value that does not occur in the
    sample the grammar has the rule of the start symbol only and the
    observation stays. *)
Theorem get_grammar_single_observation START_SYMBOL inputstr var value old :
  nonterminal var ≠ START_SYMBOL → var ≠ START_SYMBOL →
  (Str.contains value inputstr = true →
   Simple.get_grammar START_SYMBOL (Tracer.Make inputstr [(var, value)] old) =
   Some (Ok ([(START_SYMBOL, [Str.replace value (nonterminal var) inputstr]);
              (nonterminal var, [value])],
             Tracer.Make inputstr [] old)) ∧
   Stack.get_grammar START_SYMBOL [(START_SYMBOL, inputstr); (var, value)] =
   [(START_SYMBOL, {[Str.replace value (nonterminal var) inputstr]});
    (nonterminal var, {[value]})]) ∧
  (Str.contains value inputstr = false →
   Simple.get_grammar START_SYMBOL (Tracer.Make inputstr [(var, value)] old) =
   Some (Ok ([(START_SYMBOL, [inputstr])],
             Tracer.Make inputstr [(var, value)] old)) ∧
   Stack.get_grammar START_SYMBOL [(START_SYMBOL, inputstr); (var, value)] =
   [(START_SYMBOL, {[inputstr]})]).
Proof.
  intros Hnt Hvar. split; intros Hc.
  - split.
    + unfold Simple.get_grammar. simpl. rewrite Hc. simpl.
      rewrite decide_False by done. rewrite decide_True by done. reflexivity.
    + unfold Stack.get_grammar. simpl. rewrite (decide_False _ _ Hvar).
      rewrite decide_True by done.
      rewrite rewrite_alternatives_singleton. unfold rewrite_one.
      rewrite Hc. simpl. by rewrite decide_False by done.
  - split.
    + unfold Simple.get_grammar. simpl. by rewrite Hc.
    + unfold Stack.get_grammar. simpl. rewrite (decide_False _ _ Hvar).
      rewrite decide_True by done.
      rewrite rewrite_alternatives_singleton. unfold rewrite_one.
      by rewrite Hc.
Qed.

Lemma get_grammar_single_observation_witness :
  Simple.get_grammar the_start_symbol
    (Tracer.Make "http://host/path" [("scheme", "http")] None) =
  Some (Ok ([("<start>", ["<scheme>://host/path"]); ("<scheme>", ["http"])],
            Tracer.Make "http://host/path" [] None)) ∧
  Stack.get_grammar the_start_symbol
    [(the_start_symbol, "http://host/path"); ("scheme", "http")] =
  [(the_start_symbol,
    {[Str.replace "http" (nonterminal "scheme") "http://host/path"]});
   (nonterminal "scheme", {["http"]})].
Proof.
  apply (get_grammar_single_observation the_start_symbol "http://host/path"
           "scheme" "http" None); [discriminate | discriminate | reflexivity].
Defined.

(** ** Merging keeps derivations *)

Section MergeDerivations.
Variable list_of_set : gset string → list string.
Hypothesis list_of_set_perm : ∀ X, list_of_set X ≡ₚ elements X.



End MergeDerivations.


(** ** The merged grammar of one trace *)

Section SingleTrace.
Variable list_of_set : gset string → list string.
Hypothesis list_of_set_perm : ∀ X, list_of_set X ≡ₚ elements X.
Variable START_SYMBOL : string.

Lemma add_rules_wf rules (g : grammar) traces g' traces' :
  Simple.add_rules rules g traces = Ok (g', traces') → dict_wf g → dict_wf g'.
Proof.
  revert g traces. induction rules as [|[[var k] v] rules IH]; intros g traces.
  - by intros [= <- <-].
  - simpl. destruct (dict_del traces var) as [traces1|e]; [|done]. simpl.
    intros Hrec Hwf. eapply IH; [done|]. by apply dict_set_wf.
Qed.

Lemma loop_wf fuel (g : grammar) traces g' traces' :
  Simple.loop fuel g traces = Some (Ok (g', traces')) → dict_wf g → dict_wf g'.
Proof.
  revert g traces. induction fuel as [|fuel IH]; intros g traces; [done|].
  simpl. destruct (Simple.scan_traces traces g) as [g1 rules] eqn:Hscan.
  apply scan_traces_keys in Hscan.
  destruct rules as [|r rules].
  - intros [= <- <-]. unfold dict_wf. by rewrite Hscan.
  - destruct (Simple.add_rules (r :: rules) g1 traces) as [[g2 traces2]|e]
      eqn:Hadd; [|done].
    intros Hloop Hwf. eapply IH; [done|].
    eapply add_rules_wf; [done|]. unfold dict_wf. by rewrite Hscan.
Qed.

Lemma assign_wf (g : dict (gset string)) assignment :
  dict_wf g → dict_wf (Stack.assign START_SYMBOL g assignment).
Proof.
  intros Hwf. destruct assignment as [var value]. unfold Stack.assign.
  destruct g as [|e g0] eqn:Hg.
  - unfold dict_wf. simpl. apply NoDup_singleton.
  - rewrite <-Hg in *. clear Hg.
    pose proof (rewrite_grammar_keys value
                  (if decide (var = START_SYMBOL) then var else nonterminal var)
                  g false) as Hkeys.
    destruct (Stack.rewrite_grammar _ _ g false) as [g1 append].
    simpl in Hkeys.
    assert (dict_wf g1) as Hwf1 by (unfold dict_wf; by rewrite Hkeys).
    destruct append; [|done]. by apply dict_set_wf.
Qed.

Lemma get_grammar_wf (assignments : dict string) :
  dict_wf (Stack.get_grammar START_SYMBOL assignments).
Proof.
  unfold Stack.get_grammar.
  induction assignments as [|a assignments IH] using rev_ind.
  - apply NoDup_nil_2.
  - rewrite foldl_app. simpl. by apply assign_wf.
Qed.

Lemma merge_grammars_empty {C : Type} `{!Alternatives C} (g : dict C) :
  dict_wf g →
  merge_grammars list_of_set ([] : grammar) g =
  (fun e : string * C => (e.1, list_of_set (as_set e.2))) <$> g.
Proof.
  intros Hwf. unfold merge_grammars. simpl.
  rewrite (foldl_set_fresh
             (fun key => list_of_set (alternatives_of ([] : grammar) key ∪
                                      alternatives_of g key)) [] (dict_keys g) Hwf);
    [|intros; apply not_elem_of_nil].
  simpl. unfold dict_wf, dict_keys in *.
  induction g as [|[k c] g IH]; [done|].
  rewrite fmap_cons in Hwf. apply NoDup_cons in Hwf as [Hk Hwf].
  rewrite !fmap_cons. simpl. f_equal.
  - f_equal. f_equal. unfold alternatives_of. simpl.
    rewrite decide_True by done. set_solver.
  - rewrite <-IH by done. apply list_fmap_ext. intros i k' Hk'.
    f_equal. f_equal. f_equal. unfold alternatives_of. simpl.
    rewrite decide_False; [done|]. intros ->.
    apply Hk. by eapply list_elem_of_lookup_2.
Qed.

(** X20. For a single trace, merging changes nothing: the simple
    [get_merged_grammar] returns the very grammar that [get_grammar]
    returns for the trace, and leaves the tracer as [get_grammar] does;
    the stack one returns the grammar of [get_grammar] with the set of
    each nonterminal, which has one element, turned into a list, and
    changes no tracer. *)
Theorem get_merged_grammar_single_trace :
  (∀ trace objects tracer g tracer',
     objects !! trace = Some tracer →
     Simple.get_grammar START_SYMBOL tracer = Some (Ok (g, tracer')) →
     get_merged_grammar list_of_set (Simple.get_grammar START_SYMBOL)
       [trace] objects
     = Some (Ok (g, <[trace := tracer']> objects))) ∧
  (∀ (P : Policy) trace objects (tracer : StackTracer.t),
     objects !! trace = Some tracer →
     get_merged_grammar list_of_set (stack_get_grammar START_SYMBOL)
       [trace] objects
     = Some (Ok ((fun e : string * gset string => (e.1, elements e.2)) <$>
                   Stack.get_grammar START_SYMBOL (StackTracer.defs tracer),
                 objects))).
Proof.
  split.
  - intros trace objects tracer g tracer' Hobj Hget.
    unfold get_merged_grammar. simpl. rewrite Hobj, Hget. do 3 f_equal.
    apply get_grammar_loop in Hget as (_ & Hloop & _).
    pose proof (loop_singletons _ _ _ _ _ Hloop) as Hs.
    apply loop_wf in Hloop; [|unfold dict_wf; simpl; apply NoDup_singleton].
    rewrite merge_grammars_empty by done.
    assert (singletons g) as Hg.
    { apply Hs. constructor; [simpl; eauto|constructor]. }
    clear -Hg list_of_set_perm. induction Hg as [|[k alts] g [a Ha] _ IH];
      [done|].
    simpl in Ha. subst alts. rewrite fmap_cons. f_equal; [|exact IH].
    simpl. f_equal. unfold as_set, list_alternatives. simpl.
    rewrite (right_id_L ∅ (∪)).
    by apply list_of_set_singleton.
  - intros P trace objects tracer Hobj.
    unfold get_merged_grammar, stack_get_grammar. simpl. rewrite Hobj.
    rewrite (insert_id objects trace tracer Hobj).
    do 3 f_equal.
    rewrite merge_grammars_empty by apply get_grammar_wf.
    pose proof (get_grammar_singletons START_SYMBOL (StackTracer.defs tracer))
      as Hg.
    induction Hg as [|[k alts] g [a Ha] _ IH]; [done|].
    simpl in Ha. subst alts. rewrite !fmap_cons. f_equal; [|exact IH].
    simpl. f_equal. unfold as_set, set_alternatives. simpl.
    rewrite elements_singleton. by apply list_of_set_singleton.
Qed.

End SingleTrace.

Lemma get_merged_grammar_single_trace_witness :
  get_merged_grammar elements (Simple.get_grammar the_start_symbol)
    [0] {[0 := straddling_tracer]}
  = Some (Ok (straddling_grammar,
              <[0 := straddling_tracer_after]> {[0 := straddling_tracer]})).
Proof.
  apply (proj1 (get_merged_grammar_single_trace elements
                  (fun X => reflexivity (elements X)) the_start_symbol)
           0 {[0 := straddling_tracer]} straddling_tracer).
  - reflexivity.
  - reflexivity.
Defined.

(** ** From a trace to its grammar *)

Section Reading.
Local Arguments String.append !_ _ /.
Implicit Types (s t u v w k : string) (c : ascii) (syms : list symbol).

Lemma plain_char_spec c :
  plain_char c = true ↔ c ≠ "<"%char ∧ c ≠ ">"%char.
Proof.
  unfold plain_char. rewrite andb_true_iff, !negb_true_iff.
  by rewrite <-!not_true_iff_false, !Ascii.eqb_eq.
Qed.

Lemma name_char_spec c :
  name_char c = true ↔ c ≠ "<"%char ∧ c ≠ ">"%char ∧ c ≠ " "%char.
Proof.
  unfold name_char. rewrite andb_true_iff, plain_char_spec, negb_true_iff.
  rewrite <-not_true_iff_false, Ascii.eqb_eq. tauto.
Qed.

Lemma all_chars_app p s t :
  all_chars p (s +:+ t) = all_chars p s && all_chars p t.
Proof. induction s as [|c s IH]; simpl; [done|]. by rewrite IH, andb_assoc. Qed.

Lemma render_app syms1 syms2 :
  render (syms1 ++ syms2) = render syms1 +:+ render syms2.
Proof.
  induction syms1 as [|[c|k] syms1 IH]; simpl; [done| |].
  - by rewrite IH.
  - by rewrite IH, str_app_assoc.
Qed.

Lemma render_terminals s : render (terminals s) = s.
Proof. induction s as [|c s IH]; simpl; [done|]. by rewrite IH. Qed.

(** Reading a name that has been opened. *)
Lemma symbols_from_name opened w rest :
  all_chars name_char w = true →
  symbols_from (Some opened) (w +:+ String ">" rest)
  = Nonterminal ("<" +:+ opened +:+ w +:+ ">") :: symbols_from None rest.
Proof.
  revert opened. induction w as [|c w IH]; intros opened; simpl.
  - done.
  - intros [Hc Hw]%andb_true_iff.
    apply name_char_spec in Hc as (Hlt & Hgt & Hsp).
    rewrite !decide_False by done. rewrite IH by done. simpl.
    do 2 f_equal. by rewrite str_app_assoc.
Qed.

Lemma symbols_from_render K syms :
  Forall (well_formed K) syms → symbols_from None (render syms) = syms.
Proof.
  induction 1 as [|[c|k] syms Hsym _ IH]; simpl; [done| |].
  - apply plain_char_spec in Hsym as [Hlt Hgt].
    by rewrite decide_False, IH.
  - destruct Hsym as [(w & -> & Hw) _]. simpl.
    rewrite str_app_assoc. simpl.
    rewrite (symbols_from_name "" w) by done. simpl. by rewrite IH.
Qed.

Lemma symbols_render K syms :
  Forall (well_formed K) syms → symbols (render syms) = syms.
Proof. apply symbols_from_render. Qed.

Lemma terminals_well_formed K s :
  bracket_free s = true → Forall (well_formed K) (terminals s).
Proof.
  induction s as [|c s IH]; simpl; [constructor|].
  intros [Hc Hs]%andb_true_iff. constructor; [done|by apply IH].
Qed.

Lemma symbols_terminals s : bracket_free s = true → symbols s = terminals s.
Proof.
  intros Hs. rewrite <-(render_terminals s) at 1.
  by apply (symbols_render []), terminals_well_formed.
Qed.

End Reading.

Section Replacing.
Local Arguments String.append !_ _ /.
Implicit Types (s t u v w k : string) (c : ascii) (syms : list symbol).

Lemma replace_from_cons old new c s :
  Str.replace_from 0 old new (String c s)
  = if String.prefix old (String c s)
    then new +:+ Str.replace_from (String.length old - 1) old new s
    else String c (Str.replace_from 0 old new s).
Proof. done. Qed.

Lemma replace_from_skip old new s1 s2 :
  Str.replace_from (String.length s1) old new (s1 +:+ s2)
  = Str.replace_from 0 old new s2.
Proof. induction s1 as [|c s1 IH]; simpl; [by destruct s2|done]. Qed.

(** A nonempty end of a string that ends in [c] ends in [c]. *)
Lemma suffix_last u c p q :
  u +:+ String c "" = p +:+ q → q ≠ "" → ∃ q', q = q' +:+ String c "".
Proof.
  intros Heq Hq.
  destruct (str_app_eq_app _ _ _ _ Heq) as [(m & -> & Hm)|(m & -> & Hm)].
  - destruct m as [|c' m]; simpl in Hm.
    + exists "". by rewrite <-Hm.
    + injection Hm as _ Hm. destruct m; [|done]. simpl in Hm. by subst q.
  - by exists m.
Qed.

Lemma all_chars_contains p c s :
  all_chars p s = true → p c = false → Str.contains (String c "") s = false.
Proof.
  intros Hs Hc. apply not_true_is_false.
  intros (l & r & ->)%contains_char.
  rewrite all_chars_app in Hs. apply andb_true_iff in Hs as [_ Hs].
  simpl in Hs. by rewrite Hc in Hs.
Qed.

Lemma all_chars_elem p c l r :
  all_chars p (l +:+ String c r) = true → p c = true.
Proof.
  rewrite all_chars_app. simpl. by intros [_ [? _]%andb_true_iff]%andb_true_iff.
Qed.

(** No occurrence of a string without [>] begins inside a string that ends
    in [>] and does not hold it. *)
Lemma no_prefix_inside value u s p q :
  bracket_free value = true → value ≠ "" →
  Str.contains value (u +:+ ">") = false →
  u +:+ ">" = p +:+ q → q ≠ "" →
  String.prefix value (q +:+ s) = false.
Proof.
  intros Hfree Hne Hnot Heq Hq. apply not_true_is_false.
  intros (r & Hr)%prefix_spec.
  destruct (str_app_eq_app _ _ _ _ Hr) as [(m & -> & Hm)|(m & Hq' & Hm)].
  - destruct (suffix_last _ _ _ _ Heq Hq) as [q' Hq'].
    rewrite Hq' in Hfree. unfold bracket_free in Hfree.
    rewrite str_app_assoc in Hfree.
    by apply all_chars_elem in Hfree.
  - apply not_true_iff_false in Hnot. apply Hnot, contains_spec.
    exists p, m. by rewrite Heq, Hq'.
Qed.

Lemma replace_from_through old new u s :
  (∀ p q, u = p +:+ q → q ≠ "" → String.prefix old (q +:+ s) = false) →
  Str.replace_from 0 old new (u +:+ s) = u +:+ Str.replace_from 0 old new s.
Proof.
  induction u as [|c u IH]; intros Hno; [done|].
  change (String c u +:+ s) with (String c (u +:+ s)) at 1.
  rewrite replace_from_cons.
  change (String c (u +:+ s)) with (String c u +:+ s) at 1.
  rewrite (Hno "" (String c u)) by done. simpl. f_equal. apply IH.
  intros p q -> Hq. by apply (Hno (String c p) q).
Qed.

(** A string without [<] that begins a well-formed text spells its first
    terminals. *)
Lemma prefix_terminals K value syms :
  bracket_free value = true → Forall (well_formed K) syms →
  String.prefix value (render syms) = true →
  ∃ rest, syms = terminals value ++ rest.
Proof.
  revert syms. induction value as [|c value IH]; intros syms Hfree Hwf.
  - intros _. by exists syms.
  - simpl in Hfree. apply andb_true_iff in Hfree as [Hc Hfree].
    intros (r & Hr)%prefix_spec. simpl in Hr.
    destruct Hwf as [|[c'|k] syms Hsym Hwf]; [done| |].
    + simpl in Hr. injection Hr as -> Hr.
      destruct (IH syms Hfree Hwf) as [rest ->].
      { apply prefix_spec. by exists r. }
      by exists rest.
    + destruct Hsym as [(w & -> & _) _]. simpl in Hr. injection Hr as <- _.
      apply plain_char_spec in Hc as [? _]. done.
Qed.

Lemma replace_render K value nt n syms :
  bracket_free value = true → value ≠ "" →
  (∀ k, k ∈ K → Str.contains value k = false) →
  length syms ≤ n → Forall (well_formed K) syms →
  ∃ syms', Str.replace_from 0 value nt (render syms) = render syms' ∧
           folds value nt syms syms'.
Proof.
  intros Hfree Hne HK. revert syms.
  induction n as [|n IH]; intros syms Hn Hwf.
  { destruct syms; [|simpl in Hn; lia]. exists []. split; [done|constructor]. }
  destruct Hwf as [|[c|k] syms Hsym Hwf].
  - exists []. split; [done|constructor].
  - change (render (Terminal c :: syms)) with (String c (render syms)).
    rewrite replace_from_cons.
    destruct (String.prefix value (String c (render syms))) eqn:Hpre.
    + destruct (prefix_terminals K value (Terminal c :: syms)) as [rest Hrest];
        [done|by constructor|done|].
      destruct value as [|c' value]; [done|]. simpl in Hrest.
      injection Hrest as -> ->.
      assert (Forall (well_formed K) rest) as Hwf'.
      { by apply Forall_app in Hwf as [_ ?]. }
      destruct (IH rest) as (rest' & Heq & Hfold); [|done|].
      { simpl in Hn. rewrite length_app in Hn. lia. }
      exists (Nonterminal nt :: rest'). split.
      * rewrite render_app, render_terminals.
        replace (String.length (String c' value) - 1)
          with (String.length value) by (simpl; lia).
        rewrite replace_from_skip. simpl. by rewrite Heq.
      * by apply (folds_run (String c' value) nt).
    + destruct (IH syms) as (syms' & Heq & Hfold); [simpl in Hn; lia|done|].
      exists (Terminal c :: syms'). split; [simpl; by rewrite Heq|].
      by constructor.
  - destruct Hsym as [(w & -> & Hw) Hin].
    destruct (IH syms) as (syms' & Heq & Hfold); [simpl in Hn; lia|done|].
    exists (Nonterminal ("<" +:+ w +:+ ">") :: syms'). split; [|by constructor].
    change (render (Nonterminal ("<" +:+ w +:+ ">") :: syms))
      with (("<" +:+ w +:+ ">") +:+ render syms).
    rewrite replace_from_through.
    + simpl. by rewrite Heq.
    + intros p q Hpq Hq.
      apply (no_prefix_inside value (String "<" w) _ p q); try done.
      by apply HK.
Qed.

Lemma folds_refl value nt syms : folds value nt syms syms.
Proof. induction syms; by constructor. Qed.

Lemma folds_well_formed K value nt syms syms' :
  is_nonterminal nt →
  folds value nt syms syms' →
  Forall (well_formed K) syms → Forall (well_formed (nt :: K)) syms'.
Proof.
  intros Hnt. induction 1 as [|sym syms syms' _ IH|syms syms' _ IH].
  - constructor.
  - intros [Hsym Hwf]%Forall_cons. constructor; [|by apply IH].
    destruct sym as [c|k]; [done|]. destruct Hsym. split; [done|by right].
  - intros [_ Hwf]%Forall_app. constructor; [|by apply IH].
    split; [done|left].
Qed.

(** What [rewrite_one] does to a well-formed alternative. *)
Lemma rewrite_one_render K value nt syms :
  bracket_free value = true → value ≠ "" →
  (∀ k, k ∈ K → Str.contains value k = false) →
  Forall (well_formed K) syms →
  ∃ syms', rewrite_one value nt (render syms) = render syms' ∧
           folds value nt syms syms'.
Proof.
  intros Hfree Hne HK Hwf. unfold rewrite_one.
  destruct (Str.contains value (render syms)).
  - unfold Str.replace. destruct value; [done|].
    by apply (replace_render K _ _ (length syms)).
  - exists syms. split; [done|apply folds_refl].
Qed.

End Replacing.

Section Folding.
Context {C1 C2 : Type} `{!Alternatives C1, !Alternatives C2}.
Local Arguments String.append !_ _ /.

Lemma generates_terminals {C : Type} `{!Alternatives C} (g : dict C) s syms t :
  generates_symbols g syms t →
  generates_symbols g (terminals s ++ syms) (s +:+ t).
Proof. intros H. induction s as [|c s IH]; simpl; [done|]. by constructor. Qed.

Lemma generates_terminals_only {C : Type} `{!Alternatives C} (g : dict C) s :
  generates_symbols g (terminals s) s.
Proof. induction s as [|c s IH]; simpl; by constructor. Qed.

Lemma generates_terminals_inv {C : Type} `{!Alternatives C} (g : dict C)
    s syms t :
  generates_symbols g (terminals s ++ syms) t →
  ∃ t', t = s +:+ t' ∧ generates_symbols g syms t'.
Proof.
  revert t. induction s as [|c s IH]; intros t; simpl.
  - intros H. by exists t.
  - intros H. inversion H as [|c' syms' t0 H0|]; subst.
    destruct (IH _ H0) as (t' & -> & Ht'). by exists t'.
Qed.

Lemma folds_terminals value nt s syms syms' :
  folds value nt syms syms' →
  folds value nt (terminals s ++ syms) (terminals s ++ syms').
Proof. intros H. induction s as [|c s IH]; simpl; [done|]. by constructor. Qed.

(** If the grammar [g'] has [value] for [nt], and for every alternative of
    [g] one in which [nt] stands for some occurrences of [value], then
    [g'] derives what [g] derives. *)
Lemma generates_folds (g : dict C1) (g' : dict C2) value nt syms t :
  value ≠ "" →
  (∃ alt, alt ∈ alternatives_of g' nt ∧ symbols alt = terminals value) →
  (∀ k alt, alt ∈ alternatives_of g k →
            ∃ alt', alt' ∈ alternatives_of g' k ∧
                    folds value nt (symbols alt) (symbols alt')) →
  generates_symbols g syms t →
  ∀ syms', folds value nt syms syms' → generates_symbols g' syms' t.
Proof.
  intros Hne (valt & Hvalt & Hsyms) Halts.
  induction 1 as [|c syms t _ IH|k alt syms t1 t2 Hin _ IH1 _ IH2];
    intros syms' Hfold.
  - inversion Hfold as [| |syms0 syms0' _ Heq]; [constructor|].
    destruct value; [done|]. done.
  - inversion Hfold as [|sym syms0 syms0' Hrest|syms0 syms0' Hrest Heq]; subst.
    + constructor. by apply IH.
    + destruct value as [|c' value]; [done|]. simpl in Heq.
      injection Heq as -> <-.
      destruct (generates_terminals_inv g' value syms0' t) as (t' & -> & Ht').
      { apply IH. by apply folds_terminals. }
      change (String c (value +:+ t')) with (String c value +:+ t').
      econstructor; [exact Hvalt| |exact Ht'].
      rewrite Hsyms. apply generates_terminals_only.
  - inversion Hfold as [|sym syms0 syms0' Hrest|syms0 syms0' Hrest Heq]; subst.
    + destruct (Halts _ _ Hin) as (alt' & Hin' & Hfold').
      econstructor; [exact Hin'|by apply IH1|by apply IH2].
    + destruct value; [done|]. done.
Qed.

(** A grammar with at most one alternative for every nonterminal derives
    at most one string. *)
Lemma generates_functional {C : Type} `{!Alternatives C} (g : dict C) syms t t' :
  (∀ k a a', a ∈ alternatives_of g k → a' ∈ alternatives_of g k → a = a') →
  generates_symbols g syms t → generates_symbols g syms t' → t = t'.
Proof.
  intros Hone H. revert t'.
  induction H as [|c syms t _ IH|k alt syms t1 t2 Hin _ IH1 _ IH2]; intros t' H'.
  - by inversion H'.
  - inversion H'; subst. f_equal. by apply IH.
  - inversion H' as [| |k' alt' syms' t1' t2' Hin' H1 H2]; subst.
    rewrite (Hone _ _ _ Hin' Hin) in H1.
    by rewrite (IH1 _ H1), (IH2 _ H2).
Qed.

End Folding.

Section OneEach.
Variable START_SYMBOL : string.
Implicit Types (sg : dict string).

Lemma dict_get_one_each sg k :
  dict_get (one_each sg) k = (fun a => ({[a]} : gset string)) <$> dict_get sg k.
Proof.
  induction sg as [|[k' a] sg IH]; [done|]. simpl. by case_decide.
Qed.

Lemma alternatives_of_one_each sg k a :
  a ∈ alternatives_of (one_each sg) k ↔ dict_get sg k = Some a.
Proof.
  unfold alternatives_of. rewrite dict_get_one_each.
  destruct (dict_get sg k) as [a'|]; simpl.
  - unfold as_set, set_alternatives, id. rewrite elem_of_singleton.
    split; [by intros ->|by intros [= ->]].
  - by rewrite elem_of_empty.
Qed.

Lemma dict_keys_one_each sg : dict_keys (one_each sg) = dict_keys sg.
Proof.
  unfold dict_keys, one_each. rewrite <-list_fmap_compose.
  by apply list_fmap_ext.
Qed.

Lemma dict_set_one_each sg k a :
  dict_set (one_each sg) k {[a]} = one_each (dict_set sg k a).
Proof.
  induction sg as [|[k' a'] sg IH]; [done|]. simpl.
  case_decide; [done|]. simpl. by rewrite IH.
Qed.

Lemma rewrite_grammar_one_each value nt_var sg b :
  Stack.rewrite_grammar value nt_var (one_each sg) b
  = (one_each ((fun e : string * string =>
                  (e.1, rewrite_one value nt_var e.2)) <$> sg),
     b || existsb (fun e : string * string => Str.contains value e.2) sg).
Proof.
  revert b. induction sg as [|[k a] sg IH]; intros b; simpl.
  - by rewrite orb_false_r.
  - rewrite rewrite_alternatives_singleton, IH. simpl.
    by rewrite orb_assoc.
Qed.

Lemma assign_one_each sg assignment :
  Stack.assign START_SYMBOL (one_each sg) assignment
  = one_each (assign_one START_SYMBOL sg assignment).
Proof.
  destruct assignment as [var value]. unfold Stack.assign, assign_one.
  fold (nt_var_of START_SYMBOL var).
  destruct sg as [|e sg]; [done|].
  change (one_each (e :: sg)) with ((e.1, {[e.2]}) :: one_each sg) at 1.
  change ((e.1, {[e.2]}) :: one_each sg) with (one_each (e :: sg)).
  rewrite rewrite_grammar_one_each. lazy beta iota zeta.
  rewrite orb_false_l.
  destruct (existsb _ (e :: sg)); [|done].
  by rewrite dict_set_one_each.
Qed.

Lemma foldl_assign_one_each sg (assignments : dict string) :
  foldl (Stack.assign START_SYMBOL) (one_each sg) assignments
  = one_each (foldl (assign_one START_SYMBOL) sg assignments).
Proof.
  revert sg. induction assignments as [|a assignments IH]; intros sg; [done|].
  simpl. by rewrite assign_one_each, IH.
Qed.

Lemma get_grammar_one_each (assignments : dict string) :
  Stack.get_grammar START_SYMBOL assignments
  = one_each (foldl (assign_one START_SYMBOL) [] assignments).
Proof. apply (foldl_assign_one_each []). Qed.

Lemma dict_get_fmap_snd (f : string → string) sg k :
  dict_get ((fun e : string * string => (e.1, f e.2)) <$> sg) k
  = f <$> dict_get sg k.
Proof.
  induction sg as [|[k' a] sg IH]; [done|]. simpl. by case_decide.
Qed.

Lemma dict_keys_fmap_snd (f : string → string) sg :
  dict_keys ((fun e : string * string => (e.1, f e.2)) <$> sg) = dict_keys sg.
Proof.
  unfold dict_keys. rewrite <-list_fmap_compose. by apply list_fmap_ext.
Qed.

Lemma assign_one_keys sg var value k :
  k ∈ dict_keys (assign_one START_SYMBOL sg (var, value)) ↔
  k ∈ dict_keys sg ∨
  (k = nt_var_of START_SYMBOL var ∧
   (sg = [] ∨
    existsb (fun e : string * string => Str.contains value e.2) sg = true)).
Proof.
  unfold assign_one. destruct sg as [|e sg].
  - simpl. rewrite list_elem_of_singleton, elem_of_nil. naive_solver.
  - destruct (existsb _ (e :: sg)).
    + rewrite dict_keys_set_elem, dict_keys_fmap_snd. naive_solver.
    + rewrite dict_keys_fmap_snd. naive_solver.
Qed.

End OneEach.

Section Sound.
Variable START_SYMBOL : string.
Variable K : list string.
Variable target : string → string → Prop.
Implicit Types (sg : dict string).
Local Arguments String.append !_ _ /.

Lemma well_formed_cons k sym :
  k ∈ K → well_formed (k :: K) sym → well_formed K sym.
Proof.
  intros Hk. destruct sym as [c|k']; [done|]. intros [? [->|?]%elem_of_cons]; done.
Qed.

Lemma existsb_contains_false value sg :
  existsb (fun e : string * string => Str.contains value e.2) sg = false →
  (fun e : string * string => (e.1, rewrite_one value
     (nt_var_of START_SYMBOL value) e.2)) <$> sg = sg ∧
  ∀ nt, (fun e : string * string => (e.1, rewrite_one value nt e.2)) <$> sg = sg.
Proof.
  intros Hex.
  assert (∀ nt, (fun e : string * string =>
                   (e.1, rewrite_one value nt e.2)) <$> sg = sg) as H.
  { intros nt. induction sg as [|[k a] sg IH]; [done|].
    simpl in Hex. apply orb_false_iff in Hex as [Ha Hex].
    rewrite fmap_cons, IH by done. unfold rewrite_one. simpl. by rewrite Ha. }
  split; [|done]. apply H.
Qed.

Lemma assign_one_sound sg var value :
  sound K target sg → sg ≠ [] →
  var ≠ START_SYMBOL →
  nonterminal var ∉ dict_keys sg →
  is_nonterminal (nonterminal var) → nonterminal var ∈ K →
  bracket_free value = true → value ≠ "" →
  (∀ k, k ∈ K → Str.contains value k = false) →
  target (nonterminal var) value →
  sound K target (assign_one START_SYMBOL sg (var, value)).
Proof.
  intros (Hwf & Hform & Hgen) Hne Hvar Hfresh Hnt HntK Hfree Hval HK Htarget.
  unfold assign_one, nt_var_of. rewrite decide_False by done.
  destruct sg as [|e0 sg0] eqn:Hsg; [done|]. rewrite <-Hsg in *. clear Hsg Hne.
  destruct (existsb _ sg) eqn:Hex; cycle 1.
  { destruct (existsb_contains_false _ _ Hex) as [_ ->]. done. }
  set (nt := nonterminal var) in *.
  set (sg1 := (fun e : string * string => (e.1, rewrite_one value nt e.2)) <$> sg).
  assert (dict_keys sg1 = dict_keys sg) as Hkeys1 by apply dict_keys_fmap_snd.
  assert (∀ k a', dict_get (dict_set sg1 nt value) k = Some a' →
                  k = nt ∧ a' = value ∨
                  k ≠ nt ∧ ∃ a, dict_get sg k = Some a ∧
                                a' = rewrite_one value nt a) as Hget'.
  { intros k a'. destruct (decide (nt = k)) as [<-|Hk].
    - rewrite dict_get_set_eq. intros [= <-]. by left.
    - rewrite dict_get_set_ne by done. unfold sg1. rewrite dict_get_fmap_snd.
      destruct (dict_get sg k) as [a|]; [|done]. intros [= <-].
      right. split; [done|]. by exists a. }
  assert (∀ k a, dict_get sg k = Some a →
                 ∃ syms syms', a = render syms ∧
                               rewrite_one value nt a = render syms' ∧
                               Forall (well_formed K) syms ∧
                               Forall (well_formed K) syms' ∧
                               folds value nt syms syms') as Hrw.
  { intros k a Hget. destruct (Hform _ _ Hget) as (syms & -> & Hsyms).
    destruct (rewrite_one_render K value nt syms) as (syms' & Heq & Hfold);
      [done..|].
    exists syms, syms'. split_and!; [done..| |done].
    eapply Forall_impl; [by eapply folds_well_formed|].
    intros sym. by apply well_formed_cons. }
  assert (∀ k a, dict_get sg k = Some a →
                 dict_get (dict_set sg1 nt value) k
                 = Some (rewrite_one value nt a)) as Hget1.
  { intros k a Hget. rewrite dict_get_set_ne.
    - unfold sg1. by rewrite dict_get_fmap_snd, Hget.
    - intros <-. apply Hfresh. by eapply dict_get_Some_keys. }
  split_and!.
  - apply dict_set_wf. unfold dict_wf. by rewrite Hkeys1.
  - intros k a' [[-> ->]|(_ & a & Hget & ->)]%Hget'.
    + exists (terminals value). split; [by rewrite render_terminals|].
      by apply terminals_well_formed.
    + destruct (Hrw _ _ Hget) as (syms & syms' & _ & ? & _ & ? & _). eauto.
  - assert (generates_symbols (one_each (dict_set sg1 nt value))
              (symbols value) value) as Hvalue.
    { rewrite symbols_terminals by done. apply generates_terminals_only. }
    intros k a' [[-> ->]|(Hk & a & Hget & ->)]%Hget'.
    + exists value. split; [done|]. exact Hvalue.
    + destruct (Hgen _ _ Hget) as (t & Ht & Hgt). exists t. split; [done|].
      destruct (Hrw _ _ Hget) as (syms & syms' & -> & Heq & Hs & Hs' & Hfold).
      rewrite Heq. rewrite (symbols_render K) in Hgt |- * by done.
      eapply (generates_folds (one_each sg)); [exact Hval| | |exact Hgt|exact Hfold].
      * exists value. split; [|by apply symbols_terminals].
        apply alternatives_of_one_each, dict_get_set_eq.
      * intros k' alt Halt%alternatives_of_one_each.
        exists (rewrite_one value nt alt). split.
        -- by apply alternatives_of_one_each, Hget1.
        -- destruct (Hrw _ _ Halt) as (s1 & s1' & -> & Heq1 & ? & ? & ?).
           rewrite Heq1. by rewrite !(symbols_render K).
Qed.

Lemma foldl_assign_one_sound (obs : dict string) sg :
  sound K target sg → sg ≠ [] →
  NoDup (nonterminal <$> dict_keys obs) →
  (∀ q v, (q, v) ∈ obs →
     q ≠ START_SYMBOL ∧ (nonterminal q ∉ dict_keys sg) ∧
     is_nonterminal (nonterminal q) ∧ nonterminal q ∈ K ∧
     bracket_free v = true ∧ v ≠ "" ∧
     (∀ k, k ∈ K → Str.contains v k = false) ∧
     target (nonterminal q) v) →
  sound K target (foldl (assign_one START_SYMBOL) sg obs) ∧
  (∀ k, k ∈ dict_keys sg →
        k ∈ dict_keys (foldl (assign_one START_SYMBOL) sg obs)).
Proof.
  revert sg. induction obs as [|[q v] obs IH]; intros sg Hsound Hne Hnd Hobs.
  { done. }
  simpl in Hnd. apply NoDup_cons in Hnd as [Hq Hnd].
  destruct (Hobs q v) as (Hstart & Hfresh & Hnt & HK & Hfree & Hv & Hno & Ht);
    [left|].
  simpl.
  destruct (IH (assign_one START_SYMBOL sg (q, v))) as [Hs Hkeys].
  - by apply assign_one_sound.
  - intros Hnil. destruct sg as [|e sg]; [done|].
    apply (f_equal dict_keys) in Hnil.
    assert (e.1 ∈ dict_keys (assign_one START_SYMBOL (e :: sg) (q, v))) as Hin.
    { apply assign_one_keys. left. left. }
    rewrite Hnil in Hin. by apply elem_of_nil in Hin.
  - done.
  - intros q' v' Hin.
    destruct (Hobs q' v') as (? & Hfresh' & ? & ? & ? & ? & ? & ?); [by right|].
    split_and!; try done.
    intros [?|[Heq _]]%assign_one_keys; [done|].
    unfold nt_var_of in Heq. rewrite decide_False in Heq by done.
    apply Hq. rewrite <-Heq. apply list_elem_of_fmap. exists q'. split; [done|].
    apply list_elem_of_fmap. by exists (q', v').
  - split; [done|]. intros k Hk. apply Hkeys, assign_one_keys. by left.
Qed.

End Sound.

Section FromAssignments.
Variable START_SYMBOL : string.
Local Arguments String.append !_ _ /.

Lemma NoDup_fmap_elem {A B} (f : A → B) (l : list A) x y :
  NoDup (f <$> l) → x ∈ l → y ∈ l → f x = f y → x = y.
Proof.
  intros Hnd [i Hi]%list_elem_of_lookup [j Hj]%list_elem_of_lookup Heq.
  assert (i = j) as ->; [|congruence].
  eapply NoDup_lookup; [exact Hnd| |]; rewrite list_lookup_fmap;
    [by rewrite Hi|by rewrite Hj, Heq].
Qed.

Lemma is_nonterminal_nonterminal q :
  all_chars name_char (Str.lower q) = true → is_nonterminal (nonterminal q).
Proof. intros Hq. by exists (Str.lower q). Qed.

(** The grammar that the stack [get_grammar] builds from a sample and
    observations that do not get in the way of each other derives the
    sample and the values, and nothing else. *)
Lemma get_grammar_generates inputstr (obs : dict string) :
  NoDup (START_SYMBOL :: (nonterminal <$> dict_keys obs)) →
  START_SYMBOL ∉ dict_keys obs →
  bracket_free inputstr = true →
  (∀ q v, (q, v) ∈ obs →
          bracket_free v = true ∧ v ≠ "" ∧
          all_chars name_char (Str.lower q) = true) →
  (∀ q v, q ∈ dict_keys obs → v ∈ obs.*2 →
          Str.contains v (nonterminal q) = false) →
  (∀ t, generates (Stack.get_grammar START_SYMBOL
                     ((START_SYMBOL, inputstr) :: obs)) START_SYMBOL t ↔
        t = inputstr) ∧
  (∀ q v, (q, v) ∈ obs →
     nonterminal q ∈ dict_keys (Stack.get_grammar START_SYMBOL
                                  ((START_SYMBOL, inputstr) :: obs)) →
     ∀ t, generates (Stack.get_grammar START_SYMBOL
                       ((START_SYMBOL, inputstr) :: obs)) (nonterminal q) t ↔
          t = v).
Proof.
  intros Hnd Hstart Hfree Hobs Hnames.
  apply NoDup_cons in Hnd as [Hfresh Hnd].
  assert (dict_wf obs) as Hwf by (by apply NoDup_fmap_1 in Hnd).
  set (K := nonterminal <$> dict_keys obs).
  set (target := fun k t : string =>
         (k = START_SYMBOL ∧ t = inputstr) ∨
         ∃ q, (q, t) ∈ obs ∧ k = nonterminal q).
  rewrite get_grammar_one_each. simpl.
  assert (nt_var_of START_SYMBOL START_SYMBOL = START_SYMBOL) as ->.
  { unfold nt_var_of. by rewrite decide_True. }
  set (sg0 := [(START_SYMBOL, inputstr)]).
  destruct (foldl_assign_one_sound START_SYMBOL K target obs sg0)
    as [(Hwf' & Hform & Hgen) Hkeys].
  - split_and!.
    + unfold dict_wf. simpl. apply NoDup_singleton.
    + intros k a. simpl. case_decide; [|done]. intros [= <-].
      exists (terminals inputstr). split; [by rewrite render_terminals|].
      by apply terminals_well_formed.
    + intros k a. simpl. case_decide as Hk; [|done]. intros [= <-].
      exists inputstr. split; [by left|].
      rewrite symbols_terminals by done. apply generates_terminals_only.
  - done.
  - done.
  - intros q v Hin. destruct (Hobs q v Hin) as (Hv & Hne & Hq).
    assert (q ∈ dict_keys obs) as Hqin.
    { apply list_elem_of_fmap. by exists (q, v). }
    split_and!.
    + intros ->. done.
    + simpl. intros Heq%list_elem_of_singleton. apply Hfresh.
      apply list_elem_of_fmap. by exists q.
    + by apply is_nonterminal_nonterminal.
    + apply list_elem_of_fmap. by exists q.
    + done.
    + done.
    + intros k (q' & -> & Hq')%list_elem_of_fmap. apply Hnames; [done|].
      apply list_elem_of_fmap. by exists (q, v).
    + right. by exists q.
  - set (sg := foldl (assign_one START_SYMBOL) sg0 obs) in *.
    assert (∀ k T, k ∈ dict_keys sg → (∀ t, target k t → t = T) →
                   ∀ t, generates (one_each sg) k t ↔ t = T) as Hexact.
    { intros k T Hk HT t.
      apply list_elem_of_fmap in Hk as ([k' a] & -> & Hin). simpl.
      apply (dict_get_elem _ _ _ Hwf') in Hin.
      destruct (Hgen _ _ Hin) as (t0 & Ht0 & Hgt0).
      apply HT in Ht0 as ->.
      assert (generates (one_each sg) k' T) as HgT.
      { unfold generates. rewrite <-(str_app_nil_r T).
        econstructor; [by apply alternatives_of_one_each|done|constructor]. }
      split; [|by intros ->].
      intros Hgt. eapply generates_functional; [|exact Hgt|exact HgT].
      intros k a1 a2 H1%alternatives_of_one_each H2%alternatives_of_one_each.
      congruence. }
    split.
    + apply Hexact; [apply Hkeys; left|].
      intros t [[_ ->]|(q & Hin & Heq)]; [done|].
      exfalso. apply Hfresh. apply list_elem_of_fmap.
      exists q. split; [done|]. apply list_elem_of_fmap. by exists (q, t).
    + intros q v Hin Hk. rewrite dict_keys_one_each in Hk.
      apply Hexact; [done|].
      assert (q ∈ dict_keys obs) as Hqin.
      { apply list_elem_of_fmap. by exists (q, v). }
      intros t [[Heq _]|(q' & Hin' & Heq)].
      * exfalso. apply Hfresh. apply list_elem_of_fmap. by exists q.
      * assert (q = q') as <-.
        { eapply (NoDup_fmap_elem nonterminal); [exact Hnd|done| |done].
          apply list_elem_of_fmap. by exists (q', t). }
        apply (dict_get_elem _ _ _ Hwf) in Hin, Hin'. congruence.
Qed.

End FromAssignments.

Section TraceToGrammar.
Local Arguments String.append !_ _ /.

Lemma lower_app s t : Str.lower (s +:+ t) = Str.lower s +:+ Str.lower t.
Proof. induction s as [|c s IH]; simpl; [done|]. by rewrite IH. Qed.

Lemma nonterminal_colon q :
  Str.contains ":" q = true → Str.contains ":" (nonterminal q) = true.
Proof.
  intros (l & r & ->)%contains_char. apply contains_char.
  exists ("<" +:+ Str.lower l), (Str.lower r +:+ ">").
  unfold nonterminal. rewrite lower_app. simpl.
  by rewrite !str_app_assoc.
Qed.

End TraceToGrammar.

(** X21. From a trace to its grammar. Whatever the events of a trace are:
    if the sample and the recorded values have no angle bracket, the
    recorded names have no angle bracket and no space, no two names give
    the same nonterminal, and no recorded value occurs in the nonterminal
    of a recorded name, then the grammar that the stack [get_grammar]
    builds from the tracer, read as a grammar, derives the sample from the
    start symbol and nothing else, and from the nonterminal of every name
    that has a rule the value recorded for that name and nothing else.
    This holds for the stack miner and the tainted miner. *)
Theorem traced_grammar_derives_sample (P : Policy) START_SYMBOL inputstr events
    (self' : StackTracer.t) :
  Str.contains ":" START_SYMBOL = false →
  StackTracer.run events (StackTracer.init START_SYMBOL inputstr) = Ok self' →
  NoDup (nonterminal <$> dict_keys (tail (StackTracer.defs self'))) →
  bracket_free inputstr = true →
  (∀ q v, (q, v) ∈ tail (StackTracer.defs self') →
          bracket_free v = true ∧ all_chars name_char (Str.lower q) = true) →
  (∀ q v, q ∈ dict_keys (tail (StackTracer.defs self')) →
          v ∈ (tail (StackTracer.defs self')).*2 →
          Str.contains v (nonterminal q) = false) →
  (∀ t, generates (Stack.get_grammar START_SYMBOL (StackTracer.defs self'))
          START_SYMBOL t ↔ t = inputstr) ∧
  (∀ q v, (q, v) ∈ tail (StackTracer.defs self') →
     nonterminal q ∈ dict_keys (Stack.get_grammar START_SYMBOL
                                  (StackTracer.defs self')) →
     ∀ t, generates (Stack.get_grammar START_SYMBOL (StackTracer.defs self'))
            (nonterminal q) t ↔ t = v).
Proof.
  intros Hstart Hrun Hnd Hfree Hobs Hnames.
  destruct (run_defs_shape START_SYMBOL inputstr events self' Hstart Hrun)
    as (_ & rest & Hdefs & Hrest).
  assert (dict_wf (StackTracer.defs self')) as Hwf.
  { eapply (run_invariant dict_wf); [|done|].
    - intros d d'. apply records_wf.
    - unfold dict_wf. simpl. apply NoDup_singleton. }
  assert (∀ q s, dict_get (StackTracer.defs self') q = Some s →
                 q = START_SYMBOL ∧ s = inputstr ∨ 2 ≤ String.length s) as Hlen.
  { eapply (run_invariant (fun d => ∀ q s, dict_get d q = Some s →
              q = START_SYMBOL ∧ s = inputstr ∨ 2 ≤ String.length s)); [|done|].
    - intros d d'. apply records_length.
    - intros q s. simpl. case_decide; [|done]. intros [= <-]. by left. }
  rewrite Hdefs in *. simpl in Hnd, Hobs, Hnames |- *.
  assert (∀ q, q ∈ dict_keys rest → Str.contains ":" q = true) as Hkeys.
  { intros q ([q' s] & -> & Hin)%list_elem_of_fmap. by eapply Hrest. }
  apply get_grammar_generates; [| |done| |done].
  - apply NoDup_cons. split; [|done].
    intros (q & Heq & Hin%Hkeys)%list_elem_of_fmap.
    apply nonterminal_colon in Hin. congruence.
  - intros Hin%Hkeys. congruence.
  - intros q v Hin. destruct (Hobs q v Hin) as [Hv Hq]. split_and!; [done| |done].
    assert (q ≠ START_SYMBOL) as Hne.
    { intros ->. apply Hrest in Hin. congruence. }
    destruct (Hlen q v) as [[? _]|Hl]; [|done|].
    + apply dict_get_elem; [done|]. by right.
    + intros ->. simpl in Hl. lia.
Qed.

Lemma traced_grammar_derives_sample_witness :
  ∃ self' : StackTracer.t (P := plain),
    StackTracer.run urlsplit_events
      (StackTracer.init the_start_symbol "http://host/path") = Ok self' ∧
    Stack.get_grammar the_start_symbol (StackTracer.defs self')
    = [("<start>", {["<urlparse:url>"]});
       ("<urlparse:url>", {["<urlsplit:url>"]});
       ("<urlsplit:url>", {["<urlsplit:scheme>://<urlsplit:netloc>/path"]});
       ("<urlsplit:scheme>", {["http"]});
       ("<urlsplit:netloc>", {["host"]})] ∧
    ∀ t, generates (Stack.get_grammar the_start_symbol (StackTracer.defs self'))
           the_start_symbol t ↔ t = "http://host/path".
Proof.
  eexists. split; [vm_compute; reflexivity|]. split; [by vm_compute|].
  eapply (traced_grammar_derives_sample plain the_start_symbol
            "http://host/path" urlsplit_events).
  - reflexivity.
  - vm_compute. reflexivity.
  - simpl. compute_done.
  - reflexivity.
  - intros q v Hin. simpl in Hin.
    repeat (apply elem_of_cons in Hin as [Heq|Hin];
            [injection Heq as -> ->; split; reflexivity|]).
    by apply elem_of_nil in Hin.
  - intros q v Hq Hv. simpl in Hq, Hv.
    repeat (apply elem_of_cons in Hq as [->|Hq]);
      try (by apply elem_of_nil in Hq);
      repeat (apply elem_of_cons in Hv as [->|Hv]);
      try (by apply elem_of_nil in Hv); reflexivity.
Defined.

(** ** How [defs] grows *)

(** X22. [defs] grows at its end: a run of the trace function removes no
    name from [defs] and keeps the names in their order; the names it binds
    for the first time come after them. The sample of the tracer stays as
    it is. This holds for the stack miner and the tainted miner. *)
Theorem defs_grow_at_the_end (P : Policy) (events : list (frame * event))
    (self self' : StackTracer.t) :
  StackTracer.run events self = Ok self' →
  StackTracer.inputstr self' = StackTracer.inputstr self ∧
  ∃ new, dict_keys (StackTracer.defs self') =
         dict_keys (StackTracer.defs self) ++ new.
Proof.
  intros Hrun.
  eapply (run_state_invariant (fun self1 =>
    StackTracer.inputstr self1 = StackTracer.inputstr self ∧
    ∃ new, dict_keys (StackTracer.defs self1) =
           dict_keys (StackTracer.defs self) ++ new)); [| | |exact Hrun|].
  - intros var value fr self1 self2 Hupd (Hin & new & Hkeys).
    apply update_vars_spec in Hupd
      as (Hin1 & _ & [Heq|(q & v & top & _ & _ & _ & _ & _ & _ & Heq)]).
    + split; [congruence|]. exists new. by rewrite Heq.
    + split; [congruence|]. rewrite Heq.
      destruct (decide (q ∈ dict_keys (StackTracer.defs self1))) as [Hq|Hq].
      * exists new. by rewrite dict_keys_set.
      * exists (new ++ [q]). rewrite dict_set_fresh by done.
        unfold dict_keys in *. rewrite fmap_app, Hkeys. simpl.
        by rewrite <-(assoc_L (++)).
  - intros self1 params Hself. exact Hself.
  - intros self1 s _ Hself. exact Hself.
  - split; [done|]. exists []. by rewrite app_nil_r.
Qed.

Lemma defs_grow_at_the_end_witness :
  ∃ (self' : StackTracer.t (P := plain)) new,
    StackTracer.run [(parse_qs_call, Call); (parse_qs_call, Line)]
      (StackTracer.init the_start_symbol "a=b") = Ok self' ∧
    dict_keys (StackTracer.defs self') = ["<start>"] ++ new.
Proof.
  eexists.
  assert (StackTracer.run (P := plain)
            [(parse_qs_call, Call); (parse_qs_call, Line)]
            (StackTracer.init the_start_symbol "a=b") = Ok _) as Hrun
    by (vm_compute; reflexivity).
  destruct (defs_grow_at_the_end plain _ _ _ Hrun) as (_ & new & Hkeys).
  exists new. split; [exact Hrun | exact Hkeys].
Defined.

(** ** When a round of the simple synthesizer raises *)

Lemma add_rules_is_Ok rules (g : grammar) (traces : dict string) :
  dict_wf traces →
  (∃ g' traces', Simple.add_rules rules g traces = Ok (g', traces')) ↔
  NoDup (rule_vars rules) ∧ ∀ var, var ∈ rule_vars rules → var ∈ dict_keys traces.
Proof.
  unfold rule_vars. revert g traces.
  induction rules as [|[[var k] v] rules IH]; intros g traces Hwf.
  - simpl. split; [|eauto]. intros _. split; [apply NoDup_nil_2|].
    intros var Hin. by apply elem_of_nil in Hin.
  - rewrite fmap_cons. cbn [Simple.add_rules fst].
    destruct (dict_del traces var) as [traces1|e] eqn:Hdel.
    + destruct (dict_del_keys _ _ _ Hwf Hdel) as (Hwf1 & _ & Hkeys).
      simpl. rewrite (IH _ _ Hwf1), NoDup_cons. split.
      * intros [Hnd Hin]. split_and!; [|done|].
        -- intros Hvar%Hin%Hkeys. by destruct Hvar.
        -- intros var' [->|Hvar%Hin%Hkeys]%elem_of_cons; [|by destruct Hvar].
           apply dict_del_Ok in Hdel as (d1 & v' & d2 & -> & _).
           unfold dict_keys. rewrite fmap_app, fmap_cons, elem_of_app.
           right. left.
      * intros [[Hvar Hnd] Hin]. split; [done|].
        intros var' Hvar'. apply Hkeys. split.
        -- apply Hin. by right.
        -- by intros ->.
    + apply dict_del_Raise in Hdel as [_ Hn]. simpl. split.
      * by intros (g' & traces' & ?).
      * intros [_ Hin]. exfalso. apply Hn, Hin. left.
Qed.

(** X23. A round of the simple [get_grammar] raises exactly when its scan
    has listed a variable twice in [new_rules], which it does when the
    value of the variable occurs in two alternatives: the loop that adds
    the new rules deletes the observation of a variable once for every
    entry of [new_rules], and goes through without [KeyError] if and only
    if no variable is listed twice. *)
Theorem round_raises_on_repeated_variable (traces : dict string)
    (g g1 : grammar) (rules : list Simple.rule) :
  dict_wf traces →
  Simple.scan_traces traces g = (g1, rules) →
  ((∃ g2 traces', Simple.add_rules rules g1 traces = Ok (g2, traces')) ↔
   NoDup (rule_vars rules)) ∧
  (¬ NoDup (rule_vars rules) →
   ∃ var, Simple.add_rules rules g1 traces = Raise (KeyError var) ∧
          var ∈ rule_vars rules).
Proof.
  intros Hwf Hscan.
  assert ((∃ g2 traces', Simple.add_rules rules g1 traces = Ok (g2, traces')) ↔
          NoDup (rule_vars rules)) as Hiff.
  { rewrite add_rules_is_Ok by done. split; [by intros []|].
    intros Hnd. split; [done|]. intros var.
    by eapply scan_traces_rule_vars. }
  split; [done|]. intros Hdup.
  destruct (Simple.add_rules rules g1 traces) as [[g2 traces']|e] eqn:Hadd.
  - exfalso. apply Hdup, Hiff. eauto.
  - apply add_rules_Raise in Hadd as (var & -> & Hin). eauto.
Qed.

Lemma round_raises_on_repeated_variable_witness :
  ∃ var,
    Simple.add_rules
      [("z", "<z>", "abc"); ("z", "<z>", "abc")]
      [("<start>", ["<x><y>"]); ("<x>", ["<z>d"]); ("<y>", ["<z>e"])]
      [("z", "abc")]
    = Raise (KeyError var) ∧
    var ∈ rule_vars [("z", "<z>", "abc"); ("z", "<z>", "abc")].
Proof.
  apply (proj2 (round_raises_on_repeated_variable
                  [("z", "abc")]
                  [("<start>", ["<x><y>"]); ("<x>", ["abcd"]); ("<y>", ["abce"])]
                  [("<start>", ["<x><y>"]); ("<x>", ["<z>d"]); ("<y>", ["<z>e"])]
                  [("z", "<z>", "abc"); ("z", "<z>", "abc")]
                  ltac:(unfold dict_wf; compute_done) eq_refl)).
  unfold rule_vars. simpl. intros Hnd. apply NoDup_cons in Hnd as [Hn _].
  apply Hn. left.
Defined.

(** ** Every recorded value was observed *)

Section Observed.
Context {P : Policy}.
Implicit Types (self : StackTracer.t).

(** An invariant of the tracer is kept by a run when [push] and [pop] keep
    it and [update_vars] keeps it for the locals of the frames of the
    run. *)
Lemma run_events_invariant (I : StackTracer.t → Prop) events self self' :
  (∀ var value fr ev self self',
     (fr, ev) ∈ events → in_parse fr = true → (var, value) ∈ f_locals fr →
     StackTracer.update_vars var value fr self = Ok self' → I self → I self') →
  (∀ self params,
     I self →
     I (StackTracer.set_istack self
          (InputStack.push (StackTracer.istack self) params))) →
  (∀ self s,
     InputStack.pop (StackTracer.istack self) = Ok s → I self →
     I (StackTracer.set_istack self s)) →
  StackTracer.run events self = Ok self' → I self → I self'.
Proof.
  intros Hupd Hpush Hpop.
  assert (∀ items fr ev self self',
            (fr, ev) ∈ events → in_parse fr = true →
            (∀ kv, kv ∈ items → kv ∈ f_locals fr) →
            StackTracer.update_all items fr self = Ok self' →
            I self → I self') as Hall.
  { clear self self'. intros items fr ev.
    induction items as [|[var value] items IH]; intros self self' Hin Hfile Hsub;
      simpl.
    - by intros [= <-].
    - destruct (StackTracer.update_vars var value fr self) as [self1|e] eqn:H1;
        [|done].
      simpl. intros H2 Hself. eapply IH; [done..| |done|].
      + intros kv Hkv. apply Hsub. by right.
      + eapply (Hupd var value fr ev); [done..| |done|done].
        apply Hsub. left. }
  assert (∀ events0 self self',
            (∀ fe, fe ∈ events0 → fe ∈ events) →
            StackTracer.run events0 self = Ok self' → I self → I self')
    as Hgen; [|by apply Hgen].
  clear self self'.
  induction events0 as [|[fr ev] events0 IH]; intros self self' Hsub; simpl.
  - by intros [= <-].
  - destruct (StackTracer.traceit self fr ev) as [self1|e] eqn:H1; [|done].
    simpl. intros Hrun Hself.
    eapply IH; [intros; apply Hsub; by right|done|].
    clear Hrun IH. unfold StackTracer.traceit in H1. fold (in_parse fr) in H1.
    assert ((fr, ev) ∈ events) as Hin by (apply Hsub; left).
    destruct (in_parse fr) eqn:Hfile; simpl in H1; [|by injection H1 as <-].
    destruct ev.
    + destruct (StackTracer.my_parameters fr) as [params|e] eqn:Hparams;
        [|done].
      simpl in H1. eapply Hall; [done..| |done|by apply Hpush].
      intros kv Hkv. unfold StackTracer.my_parameters in Hparams.
      case_decide; [|done]. injection Hparams as <-.
      by apply list_elem_of_filter in Hkv as [_ Hkv].
    + by eapply Hall.
    + destruct (InputStack.pop _) as [s|e] eqn:Hs; [|done]. simpl in H1.
      injection H1 as <-. by apply Hpop.
    + by injection H1 as <-.
    + by eapply Hall.
Qed.

End Observed.

Lemma simple_run_snoc inputstr events fr ev :
  simple_run inputstr (events ++ [(fr, ev)]) =
  Tracer.traceit (simple_run inputstr events) fr ev.
Proof. unfold simple_run. by rewrite foldl_app. Qed.

(** X24. Every recorded value was observed. A value that the stack miner
    or the tainted miner has in [defs], besides the sample under the start
    symbol, is the value of a local variable of a frame of
    [urllib/parse.py] among the traced events: the local has the type the
    miner accepts (for the tainted miner, a traced string), at least two
    characters, and the name it is recorded under is its qualified name.
    An observation of the simple tracer is the value of a local variable
    of a traced frame, a string of at least three characters that occurs
    in the sample. *)
Theorem recorded_values_were_observed :
  (∀ (P : Policy) START_SYMBOL inputstr events (self' : StackTracer.t) q v,
     StackTracer.run events (StackTracer.init START_SYMBOL inputstr) = Ok self' →
     dict_get (StackTracer.defs self') q = Some v →
     q = START_SYMBOL ∧ v = inputstr ∨
     ∃ fr ev k value a,
       (fr, ev) ∈ events ∧ in_parse fr = true ∧ (k, value) ∈ f_locals fr ∧
       accept value = Some a ∧ text a = v ∧ 2 ≤ String.length v ∧
       StackTracer.varname k fr = Ok q) ∧
  (∀ inputstr events var value,
     (var, value) ∈ Tracer.the_values (simple_run inputstr events) →
     ∃ fr ev v,
       (fr, ev) ∈ events ∧ (var, v) ∈ f_locals fr ∧ as_str v = Some value ∧
       3 ≤ String.length value ∧ Str.contains value inputstr = true).
Proof.
  split.
  - intros P START_SYMBOL inputstr events self' q v Hrun.
    revert q v.
    eapply (run_events_invariant (fun self => ∀ q v,
      dict_get (StackTracer.defs self) q = Some v →
      q = START_SYMBOL ∧ v = inputstr ∨
      ∃ fr ev k value a,
        (fr, ev) ∈ events ∧ in_parse fr = true ∧ (k, value) ∈ f_locals fr ∧
        accept value = Some a ∧ text a = v ∧ 2 ≤ String.length v ∧
        StackTracer.varname k fr = Ok q)); [| | |exact Hrun|].
    + intros var value fr ev self self1 Hin Hfile Hloc Hupd Hself q v.
      apply update_vars_spec in Hupd
        as (_ & _ & [->|(q' & a & top & Hq & Hacc & Hlen & _ & _ & _ & ->)]);
        [apply Hself|].
      destruct (decide (q' = q)) as [->|Hne].
      * rewrite dict_get_set_eq. intros [= <-]. right.
        exists fr, ev, var, value, a. done.
      * rewrite dict_get_set_ne by done. apply Hself.
    + intros self params Hself. exact Hself.
    + intros self s _ Hself. exact Hself.
    + intros q v. simpl. case_decide; [|done]. intros [= <-]. by left.
  - intros inputstr events.
    induction events as [|[fr ev] events IH] using rev_ind; intros var value.
    + intros Hin. by apply elem_of_nil in Hin.
    + rewrite simple_run_snoc. simpl.
      intros [Hin|Hin]%dict_update_elem.
      * destruct (IH _ _ Hin) as (fr' & ev' & v & Hev & H).
        exists fr', ev', v. split; [|done]. apply elem_of_app. by left.
      * apply my_vars_elem in Hin as (v & Hloc & Hstr & Hlen & Hc).
        rewrite simple_run_inputstr in Hc.
        exists fr, ev, v. split_and!; [|done..].
        apply elem_of_app. right. left.
Qed.

Lemma recorded_values_were_observed_witness :
  ∃ self' : StackTracer.t (P := tainted),
    StackTracer.run
      [(Frame "parse_qs" "/usr/lib/python3.6/urllib/parse.py"
          ["qs"; "encoding"] 2
          [("qs", VTstr (Tstr 1 "a=b" None)); ("encoding", VStr "utf-8")],
        Call)]
      (StackTracer.init the_start_symbol "a=b") = Ok self' ∧
    StackTracer.defs self' = [("<start>", "a=b"); ("parse_qs:qs", "a=b")] ∧
    ∃ (fr : frame) (ev : event) k value (a : tstr),
      (fr, ev) ∈
        [(Frame "parse_qs" "/usr/lib/python3.6/urllib/parse.py"
            ["qs"; "encoding"] 2
            [("qs", VTstr (Tstr 1 "a=b" None)); ("encoding", VStr "utf-8")],
          Call)] ∧
      in_parse fr = true ∧ (k, value) ∈ f_locals fr ∧
      value = VTstr a ∧ tstr_text a = "a=b".
Proof.
  eexists.
  assert (StackTracer.run (P := tainted)
            [(Frame "parse_qs" "/usr/lib/python3.6/urllib/parse.py"
                ["qs"; "encoding"] 2
                [("qs", VTstr (Tstr 1 "a=b" None)); ("encoding", VStr "utf-8")],
              Call)]
            (StackTracer.init the_start_symbol "a=b") = Ok _) as Hrun
    by (vm_compute; reflexivity).
  split; [exact Hrun|]. split; [reflexivity|].
  destruct (proj1 recorded_values_were_observed tainted the_start_symbol "a=b"
              _ _ "parse_qs:qs" "a=b" Hrun eq_refl)
    as [[Heq _]|(fr & ev & k & value & a & Hin & Hfile & Hloc & Hacc & Htext & _)];
    [discriminate|].
  exists fr, ev, k, value, a. split_and!; [done..| |done].
  simpl in Hacc. destruct value; congruence.
Defined.
